(** * AtlasTerritoryMap: a shallow embedding of territoryServer.go and tribeCount.go

  The development follows the Go sources function by function.  Go's
  fixed-width integers are integers of [Z] with the wrap-around written
  out where the source converts or can overflow, [float64] is the
  kernel's binary64 type, Go maps are finite maps of stdpp together with
  an explicit iteration order (Go leaves the order of [range] over a map
  unspecified), and files are the list of bytes written to them. *)

From Stdlib Require Import ZArith List Floats Uint63 ZifyNat.
From Stdlib Require Strings.Byte.
From stdpp Require Import gmap strings list fin_maps sorting.

Local Open Scope Z_scope.

(** ** Go integers *)

Module GoInt.

(** [uintN(v)]: keep the low [w] bits. *)
Definition wrapU (w : Z) (v : Z) : Z := v mod 2 ^ w.

(** [int(v)] on a 64-bit platform: two's complement wrap-around. *)
Definition wrapS64 (v : Z) : Z := (v + 2 ^ 63) mod 2 ^ 64 - 2 ^ 63.

Definition uint16 : Z → Z := wrapU 16.
Definition uint32 : Z → Z := wrapU 32.
Definition uint64 : Z → Z := wrapU 64.

(** [x << s] for an [int] [x] and an unsigned shift count [s]: bits
    shifted past the width are lost, a count of 64 or more gives 0. *)
Definition shl64 (x s : Z) : Z := wrapS64 (x * 2 ^ s).

(** [a / b] on [int]: truncated division; [None] is the run-time panic
    on a zero divisor. *)
Definition div64 (a b : Z) : option Z :=
  if decide (b = 0) then None else Some (wrapS64 (Z.quot a b)).

(** [Min] and [Max] of territoryServer.go. *)
Definition Min (x y : Z) : Z := if decide (x < y) then x else y.
Definition Max (x y : Z) : Z := if decide (x > y) then x else y.

End GoInt.

(** ** Sorting, as package sort does it

  [insertionSort] is the insertion sort of Go's package sort:

    for i := a + 1; i < b; i++ {
      for j := i; j > a && less(j, j-1); j-- { swap(j, j-1) }
    }

  The sorted prefix is kept reversed, so that its head is the element
  just left of the one that is sinking.  [sort.SliceStable] is this
  insertion sort on blocks followed by stable merges; a stable sort has
  one possible result, which is the one computed here.  [sort.Slice] and
  [sort.Sort] are only used in the sources on keys that determine the
  element ([uint32] checksums, distinct owner ids), where every correct
  sort returns the same slice. *)

Section Sort.
Context {A : Type} (less : A → A → bool).

Fixpoint sink (x : A) (rprefix : list A) : list A :=
  match rprefix with
  | [] => [x]
  | y :: r => if less x y then y :: sink x r else x :: y :: r
  end.

Definition insertionSort (l : list A) : list A :=
  rev (fold_left (λ rp x, sink x rp) l []).

(** [notless a b]: [a] may stay to the right of [b]. *)
Definition notless (a b : A) : Prop := less a b = false.

(** The order of a sorted slice: nothing is less than something on its left. *)
Definition sorted_by (l : list A) : Prop :=
  StronglySorted (λ a b, less b a = false) l.

End Sort.

(** ** Owner colours (territoryServer.go, [colors], [colorValues],
     [isTribeID], [getTribeColor]) *)

Module Color.

(** [color.NRGBA]: four 8-bit channels. *)
Record NRGBA := mkNRGBA { R : Z; G : Z; B : Z; A : Z }.

Global Instance NRGBA_eq_dec : EqDecision NRGBA.
Proof. solve_decision. Defined.

(** The palette array, with the entries that the source comments out left out. *)
Definition colors : list string := ["yellow"; "blue"; "purple"; "coral"].

Definition colorValues : gmap string NRGBA :=
  list_to_map
    [ ("black",  mkNRGBA 0x00 0x00 0x00 0xff);
      ("gray",   mkNRGBA 0xa9 0xa9 0xa9 0xff);
      ("yellow", mkNRGBA 0xff 0xff 0x00 0xff);
      ("blue",   mkNRGBA 0x00 0x00 0xff 0xff);
      ("purple", mkNRGBA 0x80 0x00 0x80 0xff);
      ("coral",  mkNRGBA 0xff 0x7f 0x50 0xff) ].

(** [m[key]] on a Go map: the zero value when the key is absent. *)
Definition index (m : gmap string NRGBA) (key : string) : NRGBA :=
  default (mkNRGBA 0 0 0 0) (m !! key).

Definition isTribeID (tribeID : Z) : bool :=
  bool_decide (tribeID > 1000000000 + 50000).

(** [colors[idx]] cannot go out of range: [idx] is a remainder modulo
    the length of the array. *)
Definition getTribeColor (tribeID : Z) : NRGBA :=
  if decide (tribeID = 0) then index colorValues "black"
  else if negb (isTribeID tribeID) then index colorValues "gray"
  else
    let idx := tribeID mod Z.of_nat (length colors) in
    let color := nth (Z.to_nat idx) colors "" in
    index colorValues color.

(** The colours by name, as the claims speak of them. *)
Definition black  : NRGBA := mkNRGBA 0x00 0x00 0x00 0xff.
Definition gray   : NRGBA := mkNRGBA 0xa9 0xa9 0xa9 0xff.
Definition yellow : NRGBA := mkNRGBA 0xff 0xff 0x00 0xff.
Definition blue   : NRGBA := mkNRGBA 0x00 0x00 0xff 0xff.
Definition purple : NRGBA := mkNRGBA 0x80 0x00 0x80 0xff.
Definition coral  : NRGBA := mkNRGBA 0xff 0x7f 0x50 0xff.

Definition palette : list NRGBA := [yellow; blue; purple; coral].
Definition paletteSize : Z := Z.of_nat (length palette).
Definition threshold : Z := 1000050000.

(** The classification as the specification words it: below the
    threshold a player, otherwise a group. *)
Definition spec_color (ownerID : Z) : NRGBA :=
  if decide (ownerID = 0) then black
  else if decide (ownerID < threshold) then gray
  else nth (Z.to_nat (ownerID mod paletteSize)) palette black.

End Color.

(** ** Top-N owners by marker count (tribeCount.go) *)

(** [TribeCount] holds the per tribe number of markers. *)
Record TribeCount := mkTribeCount { tribeID : Z; count : Z }.

Global Instance TribeCount_eq_dec : EqDecision TribeCount.
Proof. solve_decision. Defined.

(** ** container/heap on a [TribeCountHeap]

  The slice holds pointers that are never written through, so a heap is
  the list of the records pointed to.  Indices are natural numbers; the
  overflow test [j1 < 0] of [down] cannot fire on a slice that fits in
  memory. *)

Module Heap.

(** [TribeCountHeap.Less] on the two elements compared. *)
Definition Less (a b : TribeCount) : bool :=
  if decide (count a < count b) then true
  else if decide (count a = count b) then bool_decide (tribeID a < tribeID b)
  else false.

Definition lessAt (h : list TribeCount) (i j : nat) : bool :=
  match h !! i, h !! j with
  | Some a, Some b => Less a b
  | _, _ => false
  end.

(** [TribeCountHeap.Swap]. *)
Definition Swap (h : list TribeCount) (i j : nat) : list TribeCount :=
  match h !! i, h !! j with
  | Some a, Some b => <[i := b]> (<[j := a]> h)
  | _, _ => h
  end.

(** [heap.down]; [None] when the fuel does not cover the loop. *)
Fixpoint down (fuel : nat) (h : list TribeCount) (i n : nat)
  : option (list TribeCount) :=
  match fuel with
  | O => None
  | S fuel =>
      let j1 := (2 * i + 1)%nat in
      if decide (n ≤ j1)%nat then Some h
      else
        let j2 := (j1 + 1)%nat in
        let j := if decide (j2 < n)%nat
                 then (if lessAt h j2 j1 then j2 else j1) else j1 in
        if negb (lessAt h j i) then Some h
        else down fuel (Swap h i j) j n
  end.

(** [heap.up]. *)
Fixpoint up (fuel : nat) (h : list TribeCount) (j : nat)
  : option (list TribeCount) :=
  match fuel with
  | O => None
  | S fuel =>
      let i := ((j - 1) / 2)%nat in
      if decide (i = j) then Some h
      else if negb (lessAt h j i) then Some h
      else up fuel (Swap h i j) i
  end.

(** The loop of [heap.Init]: [i] runs from [n/2 - 1] down to 0; [k] is
    the number of iterations left, [i = k - 1]. *)
Fixpoint initLoop (k : nat) (h : list TribeCount) (n : nat)
  : option (list TribeCount) :=
  match k with
  | O => Some h
  | S i => h' ← down (S n) h i n; initLoop i h' n
  end.

Definition Init (h : list TribeCount) : option (list TribeCount) :=
  let n := length h in
  initLoop (n / 2) h n.

(** [heap.Push]: append, then [up] from the last index. *)
Definition Push (h : list TribeCount) (x : TribeCount)
  : option (list TribeCount) :=
  let h := h ++ [x] in
  up (S (length h)) h (length h - 1).

(** [heap.Pop]: swap the root to the end, sift down, cut the last
    element off.  On an empty heap [Swap(0, -1)] panics. *)
Definition Pop (h : list TribeCount) : option (list TribeCount * TribeCount) :=
  match length h with
  | O => None
  | S n =>
      h' ← down (S n) (Swap h 0 n) 0 n;
      x ← last h';
      Some (take n h', x)
  end.

End Heap.

(** ** [TopNTribes] of tribeCount.go

    [order] is the sequence of values that [range counts] yields: some
    enumeration of the map, see [iteration_of]. *)

Definition iteration_of (counts : gmap Z TribeCount) (order : list TribeCount) : Prop :=
  order ≡ₚ (map_to_list counts).*2.

Module TribeCountSort.

(** The comparison handed to [sort.SliceStable], on the two elements compared. *)
Definition sliceLess (a b : TribeCount) : bool :=
  if decide (count a < count b) then false
  else if decide (count a = count b) then bool_decide (tribeID a > tribeID b)
  else true.

(** [None] would be [heap.Init] running out of fuel, see [Heap.Init_total]. *)
Definition TopNTribes (n : Z) (order : list TribeCount) : option (list Z) :=
  let pq := order in
  pq ← Heap.Init pq;
  let pq := insertionSort sliceLess pq in
  let totalCount := Z.of_nat (length pq) in
  Some (tribeID <$> take (Z.to_nat (GoInt.Min n totalCount)) pq).

End TribeCountSort.

(** ** [TopNTribes] as the bounded heap of the revision kept at the end of
       territoryServer.go *)

Module TribeCountHeap.

(** One round of [for _, v := range counts]; the state is [(pq, i)]. *)
Definition step (n : Z) (st : list TribeCount * Z) (v : TribeCount)
  : option (list TribeCount * Z) :=
  let '(pq, i) := st in
  if decide (i < n) then Some (pq ++ [v], i + 1)
  else
    pq ← (if decide (i = n) then Heap.Init pq else Some pq);
    pq ← Heap.Push pq v;
    pq ← (if decide (Z.of_nat (length pq) > n)
          then fst <$> Heap.Pop pq else Some pq);
    Some (pq, i + 1).

Fixpoint loop (n : Z) (st : list TribeCount * Z) (order : list TribeCount)
  : option (list TribeCount * Z) :=
  match order with
  | [] => Some st
  | v :: order => st ← step n st v; loop n st order
  end.

(** [for i := Min(n, len(pq)) - 1; i >= 0; i--]: the first [Min(n, len(pq))]
    elements of the heap array, last one first. *)
Definition TopNTribes (n : Z) (order : list TribeCount) : option (list Z) :=
  '(pq, i) ← loop n ([], 0) order;
  pq ← (if decide (i ≤ n) then Heap.Init pq else Some pq);
  let k := GoInt.Min n (Z.of_nat (length pq)) in
  Some (tribeID <$> rev (take (Z.to_nat k) pq)).

End TribeCountHeap.

(** ** The two composite keys the claims about [TopNTribes] speak of *)

(** [a] may stand before [b] when ranking by count descending, then owner
    id descending. *)
Definition count_desc_id_desc (a b : TribeCount) : Prop :=
  count b < count a ∨ (count a = count b ∧ tribeID b ≤ tribeID a).

(** The key of the specification: count descending, then owner id
    ascending. *)
Definition count_desc_id_asc (a b : TribeCount) : Prop :=
  count b < count a ∨ (count a = count b ∧ tribeID a ≤ tribeID b).

(** The counts of the specification's example: owners 10 and 20 with five
    markers each, owner 5 with three. *)
Definition example_counts : gmap Z TribeCount :=
  list_to_map [ (10, mkTribeCount 10 5); (20, mkTribeCount 20 5); (5, mkTribeCount 5 3) ].

(** The example of the specification, in one of the orders [range] may take. *)
Definition example_order : list TribeCount :=
  [ mkTribeCount 10 5; mkTribeCount 20 5; mkTribeCount 5 3 ].

(** ** float64

    Go's [float64] is IEEE 754 binary64, and so is the kernel's [float]:
    the arithmetic and the comparisons below are the machine's. *)

Module Float64.

Definition t : Set := PrimFloat.float.

(** [float64(n)] for an [int] [n]: the nearest binary64 value. *)
Definition of_int (n : Z) : t :=
  if decide (n < 0) then
    if decide (n = - 2 ^ 63)
    then PrimFloat.opp (PrimFloat.mul (PrimFloat.of_uint63 (Uint63.of_Z (2 ^ 62))) 2%float)
    else PrimFloat.opp (PrimFloat.of_uint63 (Uint63.of_Z (- n)))
  else PrimFloat.of_uint63 (Uint63.of_Z n).

(** The integer part of a finite value, rounded towards zero; [None] for
    infinities and NaN. *)
Definition truncate (f : t) : option Z :=
  match FloatOps.Prim2SF f with
  | S754_zero _ => Some 0
  | S754_finite s m e =>
      let mag := if decide (0 ≤ e) then Z.pos m * 2 ^ e else Z.pos m / 2 ^ (- e) in
      Some (if s then - mag else mag)
  | _ => None
  end.

(** [uint16(f)] as the gc compiler does it on amd64: truncate to a signed
    32-bit integer (CVTTSD2SL, which answers [-2^31] for a value out of its
    range and for NaN) and keep the low 16 bits.  The language leaves the
    result to the implementation when [f] does not fit the target type. *)
Definition to_uint16 (f : t) : Z :=
  let i32 := match truncate f with
             | Some z => if decide (- 2 ^ 31 ≤ z < 2 ^ 31) then z else - 2 ^ 31
             | None => - 2 ^ 31
             end in
  GoInt.uint16 i32.

End Float64.

(** ** encoding/binary, little endian *)

Module LittleEndian.

Definition byte_of_Z (v : Z) : Byte.byte :=
  default Byte.x00 (Byte.of_N (Z.to_N (v mod 256))).

Definition Z_of_byte (b : Byte.byte) : Z := Z.of_N (Byte.to_N b).

(** The [k] low bytes of [v], lowest first. *)
Fixpoint put (k : nat) (v : Z) : list Byte.byte :=
  match k with
  | O => []
  | S k => byte_of_Z v :: put k (v ≫ 8)
  end.

Definition PutUint16 (v : Z) : list Byte.byte := put 2 v.
Definition PutUint32 (v : Z) : list Byte.byte := put 4 v.
Definition PutUint64 (v : Z) : list Byte.byte := put 8 v.

(** The value of a byte string read lowest byte first. *)
Fixpoint get (bs : list Byte.byte) : Z :=
  match bs with
  | [] => 0
  | b :: bs => Z.lor (Z_of_byte b) (get bs ≪ 8)
  end.

(** [Uint16(b)] reads [b[0]] and [b[1]], [Uint64(b)] the first eight bytes. *)
Definition Uint16 (bs : list Byte.byte) : Z := get (take 2 bs).
Definition Uint64 (bs : list Byte.byte) : Z := get (take 8 bs).

End LittleEndian.

(** ** hash/crc32 with the IEEE polynomial *)

Module CRC32.

(** The polynomial, bits reversed. *)
Definition IEEE : Z := 0xedb88320.

(** One entry of the table ([simpleMakeTable]): eight shift steps. *)
Definition shiftStep (crc : Z) : Z :=
  if Z.testbit crc 0 then Z.lxor (crc ≫ 1) IEEE else crc ≫ 1.

Definition tableEntry (i : Z) : Z :=
  Nat.iter 8 shiftStep i.

Definition IEEETable : list Z :=
  Eval vm_compute in tableEntry <$> seqZ 0 256.

(** [^crc] on a [uint32]. *)
Definition complement (crc : Z) : Z := Z.lxor crc 0xffffffff.

(** [crc = tab[byte(crc)^v] ^ (crc >> 8)]. *)
Definition byteStep (crc : Z) (v : Byte.byte) : Z :=
  let idx := Z.lxor (Z.land crc 0xff) (LittleEndian.Z_of_byte v) in
  Z.lxor (nth (Z.to_nat idx) IEEETable 0) (crc ≫ 8).

(** [simpleUpdate]. *)
Definition update (crc : Z) (p : list Byte.byte) : Z :=
  complement (fold_left byteStep p (complement crc)).

Definition ChecksumIEEE (data : list Byte.byte) : Z := update 0 data.

End CRC32.

(** ** Markers and configuration (territoryServer.go) *)

(** [Marker] represents a territory flag roughly as stored in redis. *)
Record Marker := mkMarker {
  serverX : Z;
  serverY : Z;
  tribeOrOwnerID : Z;
  relX : Float64.t;
  relY : Float64.t;
  markerType : Z;
}.

(** The fields of [Configuration] that the modelled functions read. *)
Record Configuration := mkConfiguration {
  FetchRateInSeconds : Z;
  ServersX : Z;
  ServersY : Z;
  GameSize : Z;
  TileSize : Z;
  MaxZoom : Z;
  GridSize : Float64.t;
  LandRadiusUE : Float64.t;
  WaterRadiusUE : Float64.t;
}.

(** The defaults of [loadConfig]. *)
Definition defaultConfig : Configuration :=
  {| FetchRateInSeconds := 15; ServersX := 3; ServersY := 3;
     GameSize := 2048; TileSize := 256; MaxZoom := 7;
     GridSize := 1400000%float; LandRadiusUE := 10000%float;
     WaterRadiusUE := 21000%float |}.

(** ** [fetchClaimMarkers]

    The redis client is what [SMembers] answers for the set named
    [territorymapdata:<key>]: its members as byte strings, in the order the
    reply lists them, or the text of the error that [Result()] returns. *)

Module Fetch.

Definition Client : Type := Z → string + list (list Byte.byte).

(** The body of [for _, rawString := range results].  A record of fewer
    than 13 bytes makes [bytes[12]] panic: [None]. *)
Definition parseRecord (x y : Z) (bytes : list Byte.byte) : option Marker :=
  if decide (length bytes < 13)%nat then None
  else
    let tid := LittleEndian.Uint64 (take 8 bytes) in
    let tx := LittleEndian.Uint16 (take 2 (drop 8 bytes)) in
    let ty := LittleEndian.Uint16 (take 2 (drop 10 bytes)) in
    Some {| serverX := x; serverY := y; tribeOrOwnerID := tid;
            relX := PrimFloat.div (Float64.of_int tx) (Float64.of_int 65535);
            relY := PrimFloat.div (Float64.of_int ty) (Float64.of_int 65535);
            markerType := LittleEndian.Z_of_byte (nth 12 bytes Byte.x00) |}.

(** The members of a set, none when [SMembers] fails. *)
Definition members (client : Client) (key : Z) : list (list Byte.byte) :=
  match client key with
  | inl err => []
  | inr results => results
  end.

(** The state of the two loops: [crcs] and [markers]. *)
Definition Acc : Type := list Z * list Marker.

Definition addRecord (x y : Z) (acc : option Acc) (rawString : list Byte.byte) : option Acc :=
  '(crcs, markers) ← acc;
  let newCRC := CRC32.ChecksumIEEE rawString in
  m ← parseRecord x y rawString;
  Some (crcs ++ [newCRC], markers ++ [m]).

(** One cell: an error is logged and the cell skipped. *)
Definition fetchCell (client : Client) (acc : option Acc) (cell : Z * Z) : option Acc :=
  let '(x, y) := cell in
  match client (Z.lor (x ≪ 16) y) with
  | inl err => acc
  | inr results => fold_left (addRecord x y) results acc
  end.

(** The cells in the order of the two [for] loops. *)
Definition cells (config : Configuration) : list (Z * Z) :=
  x ← seqZ 0 (ServersX config); y ← seqZ 0 (ServersY config); [(x, y)].

Definition crcLess (a b : Z) : bool := bool_decide (a < b).

(** [hash.Sum32()] after [binary.Write(hash, binary.LittleEndian, crc)] for
    every [crc]: the digest starts at 0 and each write updates it. *)
Definition hashAll (crcs : list Z) : Z :=
  fold_left (λ h crc, CRC32.update h (LittleEndian.PutUint32 crc)) crcs 0.

Definition fetchClaimMarkers (config : Configuration) (client : Client)
  : option (list Marker * Z) :=
  '(crcs, markers) ← fold_left (fetchCell client) (cells config) (Some ([], []));
  let crcs := insertionSort crcLess crcs in
  Some (markers, hashAll crcs).

(** The raw records of a list of cells, and of a snapshot, in the order
    they are read. *)
Definition recordsOf (client : Client) (cs : list (Z * Z)) : list (list Byte.byte) :=
  cell ← cs; members client (Z.lor (cell.1 ≪ 16) cell.2).

Definition records (config : Configuration) (client : Client) : list (list Byte.byte) :=
  recordsOf client (cells config).

(** The lines that [log.Printf("Warning! %v", err)] writes, one for every
    cell whose [SMembers] fails, in the order of the two loops. *)
Definition warnings (config : Configuration) (client : Client) : list string :=
  omap (λ cell : Z * Z,
          match client (Z.lor (cell.1 ≪ 16) cell.2) with
          | inl err => Some ("Warning! " +:+ err)
          | inr results => None
          end)
       (cells config).

(** A record long enough for [bytes[12]]. *)
Definition wellFormed (r : list Byte.byte) : Prop := (13 ≤ length r)%nat.

Global Instance wellFormed_dec r : Decision (wellFormed r).
Proof. unfold wellFormed. apply _. Defined.

(** The change fingerprint. *)
Definition fingerprint (config : Configuration) (client : Client) : option Z :=
  snd <$> fetchClaimMarkers config client.

End Fetch.

(** ** Sample snapshots *)

Module Samples.

Definition bytes_of (l : list Z) : list Byte.byte := LittleEndian.byte_of_Z <$> l.

(** Owner 1000060001 at raw position (1000, 2000), land. *)
Definition record_a : list Byte.byte :=
  bytes_of [97; 180; 155; 59; 0; 0; 0; 0; 232; 3; 208; 7; 0; 0; 0; 0].

(** Owner 8068444704 at the same position, land: the owner id of
    [record_a] with the bits of the CRC polynomial flipped. *)
Definition record_b : list Byte.byte :=
  bytes_of [32; 178; 234; 224; 1; 0; 0; 0; 232; 3; 208; 7; 0; 0; 0; 0].

(** Owner 5 at raw position (1, 2), water. *)
Definition record_c : list Byte.byte :=
  bytes_of [5; 0; 0; 0; 0; 0; 0; 0; 1; 0; 2; 0; 1; 0; 0; 0].

(** Owner 7 at raw position (770, 1284), land. *)
Definition record_d : list Byte.byte :=
  bytes_of [7; 0; 0; 0; 0; 0; 0; 0; 2; 3; 4; 5; 0; 0; 0; 0].

(** A grid of one cell, and one of two cells (0,0) and (0,1). *)
Definition config_1x1 : Configuration :=
  {| FetchRateInSeconds := 15; ServersX := 1; ServersY := 1;
     GameSize := 2048; TileSize := 256; MaxZoom := 7;
     GridSize := 1400000%float; LandRadiusUE := 10000%float;
     WaterRadiusUE := 21000%float |}.

Definition config_1x2 : Configuration :=
  {| FetchRateInSeconds := 15; ServersX := 1; ServersY := 2;
     GameSize := 2048; TileSize := 256; MaxZoom := 7;
     GridSize := 1400000%float; LandRadiusUE := 10000%float;
     WaterRadiusUE := 21000%float |}.

Definition client_of (cell0 cell1 : list (list Byte.byte)) : Fetch.Client :=
  λ key, if decide (key = 0) then inr cell0
         else if decide (key = 1) then inr cell1 else inl "redis: nil".

(** The same three records, met in two different orders. *)
Definition snapshot_1 : Fetch.Client := client_of [record_a; record_c] [record_d].
Definition snapshot_2 : Fetch.Client := client_of [record_d; record_c] [record_a].

(** Two snapshots of one marker each, of different owners. *)
Definition snapshot_a : Fetch.Client := client_of [record_a] [].
Definition snapshot_b : Fetch.Client := client_of [record_b] [].

End Samples.

(** ** package image: rectangles *)

(** [image.Rectangle], with [Min] and [Max] spelled out. *)
Record Rectangle := mkRectangle { MinX : Z; MinY : Z; MaxX : Z; MaxY : Z }.

Global Instance Rectangle_eq_dec : EqDecision Rectangle.
Proof. solve_decision. Defined.

(** [image.Rect]: the corners are put in order. *)
Definition Rect (x0 y0 x1 y1 : Z) : Rectangle :=
  let '(x0, x1) := if decide (x0 > x1) then (x1, x0) else (x0, x1) in
  let '(y0, y1) := if decide (y0 > y1) then (y1, y0) else (y0, y1) in
  {| MinX := x0; MinY := y0; MaxX := x1; MaxY := y1 |}.

(** ** Map options and virtual bounds (territoryServer.go) *)

(** The paths built with [path.Join]: a tile
    [tilePath/zoom/tileX/tileY.png] or [gamePath/world.map]. *)
Inductive Filename :=
  | NoFile
  | TilePng (tilePath : string) (zoom tileX tileY : Z)
  | WorldMap (gamePath : string).

Global Instance Filename_eq_dec : EqDecision Filename.
Proof. solve_decision. Defined.

(** [MapOptions] holds map construction information. *)
Record MapOptions := mkMapOptions {
  filename : Filename;
  actualPixels : Z;
  virtualPixels : Z;
  virtualClip : Rectangle;
}.

Global Instance MapOptions_eq_dec : EqDecision MapOptions.
Proof. solve_decision. Defined.

(** [VirtualBounds] represents a marker in virtual coordinates for the quad tree. *)
Record VirtualBounds := mkVirtualBounds {
  vbX : Float64.t;
  vbY : Float64.t;
  vbRadius : Float64.t;
  vbMarker : Marker;
}.

(** [quadtree.BoundingBox]. *)
Record BoundingBox := mkBoundingBox {
  bbMinX : Float64.t; bbMaxX : Float64.t; bbMinY : Float64.t; bbMaxY : Float64.t;
}.

(** [ClaimFlagOutputEntry] and [FlagOwnerOutputHeader], for saving the
    compressed file out. *)
Record ClaimFlagOutputEntry := mkClaim { X : Z; Y : Z }.

Record FlagOwnerOutputHeader := mkOwner {
  TribeOrPlayerID : Z;
  LandClaims : list ClaimFlagOutputEntry;
  WaterClaims : list ClaimFlagOutputEntry;
}.

Global Instance ClaimFlagOutputEntry_eq_dec : EqDecision ClaimFlagOutputEntry.
Proof. solve_decision. Defined.

Global Instance FlagOwnerOutputHeader_eq_dec : EqDecision FlagOwnerOutputHeader.
Proof. solve_decision. Defined.

(** [ByTribeOrPlayerID.Less]. *)
Definition ByTribeOrPlayerID (a b : FlagOwnerOutputHeader) : bool :=
  bool_decide (TribeOrPlayerID a < TribeOrPlayerID b).

(** ** Rendering

    The quad tree is the one of package goquadtree, which is not part of
    these sources: a tree is the list of the entities added to it, and
    [Query] is whatever the package answers for a tree and a box. *)

Section Rendering.
Context (config : Configuration).
Context (Query : list VirtualBounds → BoundingBox → list VirtualBounds).

(** The larger of the two grid dimensions. *)
Definition servers : Z :=
  if decide (ServersX config >= ServersY config) then ServersX config
  else ServersY config.

(** [float64(opts.virtualPixels / config.ServersX)], or [ServersY]; the
    integer division panics on a grid of no servers. *)
Definition virtualPixelsPerServer (opts : MapOptions) : option Float64.t :=
  Float64.of_int <$> GoInt.div64 (virtualPixels opts) servers.

Definition virtualLandRadius (perServer : Float64.t) : Float64.t :=
  (perServer * LandRadiusUE config / GridSize config)%float.

Definition virtualWaterRadius (perServer : Float64.t) : Float64.t :=
  (perServer * WaterRadiusUE config / GridSize config)%float.

(** [float64(opts.actualPixels) / float64(Max.X - Min.X + 1)]. *)
Definition virtualToActual (opts : MapOptions) : Float64.t :=
  (Float64.of_int (actualPixels opts)
   / Float64.of_int
       (GoInt.wrapS64 (MaxX (virtualClip opts) - MinX (virtualClip opts) + 1)))%float.

(** [createQuadTree]: one entity per marker, all with the water radius. *)
Definition placeMarker (perServer : Float64.t) (marker : Marker) : VirtualBounds :=
  let vServerOffsetX := (Float64.of_int (serverX marker) * perServer)%float in
  let vServerOffsetY := (Float64.of_int (serverY marker) * perServer)%float in
  let vX := (relX marker * perServer + vServerOffsetX)%float in
  let vY := (relY marker * perServer + vServerOffsetY)%float in
  {| vbX := vX; vbY := vY; vbRadius := virtualWaterRadius perServer; vbMarker := marker |}.

Definition createQuadTree (opts : MapOptions) (markers : list Marker)
  : option (list VirtualBounds) :=
  perServer ← virtualPixelsPerServer opts;
  Some (placeMarker perServer <$> markers).

(** The box handed to [Query]. *)
Definition qtBB (opts : MapOptions) : BoundingBox :=
  {| bbMinX := Float64.of_int (MinX (virtualClip opts));
     bbMaxX := Float64.of_int (MaxX (virtualClip opts));
     bbMinY := Float64.of_int (MinY (virtualClip opts));
     bbMaxY := Float64.of_int (MaxY (virtualClip opts)) |}.

(** The marker adjusted for the clip zone: [tX] and [tY]. *)
Definition clipX (opts : MapOptions) (vb : VirtualBounds) : Float64.t :=
  (vbX vb - Float64.of_int (MinX (virtualClip opts)))%float.
Definition clipY (opts : MapOptions) (vb : VirtualBounds) : Float64.t :=
  (vbY vb - Float64.of_int (MinY (virtualClip opts)))%float.

(** The condition of the [continue] under the comment "filter points
    outside of clip + gutter". *)
Definition outsideGutter (opts : MapOptions) (waterRadius : Float64.t)
    (vb : VirtualBounds) : bool :=
  let tX := clipX opts vb in
  let tY := clipY opts vb in
  (tX <? - waterRadius)%float
  || (tY <? - waterRadius)%float
  || (Float64.of_int (MaxX (virtualClip opts)) + waterRadius <=? tX)%float
  || (Float64.of_int (MaxY (virtualClip opts)) + waterRadius <=? tY)%float.

(** The marker in image coordinates: [iX] and [iY]. *)
Definition imageX (opts : MapOptions) (vb : VirtualBounds) : Float64.t :=
  (clipX opts vb * virtualToActual opts)%float.
Definition imageY (opts : MapOptions) (vb : VirtualBounds) : Float64.t :=
  (clipY opts vb * virtualToActual opts)%float.

(** A filled circle drawn into the mask. *)
Record Circle := mkCircle {
  cX : Float64.t; cY : Float64.t; cRadius : Float64.t; cColor : Color.NRGBA;
}.

(** The radius in image coordinates, at least one pixel. *)
Definition imageRadius (opts : MapOptions) (perServer : Float64.t)
    (vb : VirtualBounds) : Float64.t :=
  let iRadius :=
    if decide (markerType (vbMarker vb) = 0)
    then (virtualLandRadius perServer * virtualToActual opts)%float
    else if decide (markerType (vbMarker vb) = 1)
    then (virtualWaterRadius perServer * virtualToActual opts)%float
    else 1%float in
  if (iRadius <? 1)%float then 1%float else iRadius.

(** [generateImage], up to the encoding of the image: the circles drawn,
    in order, for the file named by [opts]. *)
Definition generateImage (opts : MapOptions) (quadTree : list VirtualBounds)
  : option (Filename * list Circle) :=
  perServer ← virtualPixelsPerServer opts;
  let waterRadius := virtualWaterRadius perServer in
  let drawn :=
    omap (λ vb,
            if outsideGutter opts waterRadius vb then None
            else Some {| cX := imageX opts vb; cY := imageY opts vb;
                         cRadius := imageRadius opts perServer vb;
                         cColor := Color.getTribeColor (tribeOrOwnerID (vbMarker vb)) |})
         (Query quadTree (qtBB opts)) in
  Some (filename opts, drawn).

(** *** [generateCompressedFile] *)

(** One round of the loop over the query result, on [IDMap]. *)
Definition addClaim (opts : MapOptions) (waterRadius : Float64.t)
    (IDMap : gmap Z FlagOwnerOutputHeader) (vb : VirtualBounds)
  : gmap Z FlagOwnerOutputHeader :=
  if outsideGutter opts waterRadius vb then IDMap
  else
    let iX := imageX opts vb in
    let iY := imageY opts vb in
    let owner := tribeOrOwnerID (vbMarker vb) in
    let Entry := default {| TribeOrPlayerID := owner; LandClaims := []; WaterClaims := [] |}
                         (IDMap !! owner) in
    let claim := {| X := Float64.to_uint16 iX; Y := Float64.to_uint16 iY |} in
    let Entry :=
      if decide (markerType (vbMarker vb) = 0)
      then {| TribeOrPlayerID := TribeOrPlayerID Entry;
              LandClaims := LandClaims Entry ++ [claim];
              WaterClaims := WaterClaims Entry |}
      else if decide (markerType (vbMarker vb) = 1)
      then {| TribeOrPlayerID := TribeOrPlayerID Entry;
              LandClaims := LandClaims Entry;
              WaterClaims := WaterClaims Entry ++ [claim] |}
      else Entry in
    <[owner := Entry]> IDMap.

(** The file is the bytes written so far; every [f.Write] appends. *)
Definition FileVerison : Z := 2.
Definition CompressionType : Z := 0x0001.

Definition writeClaim (f : list Byte.byte) (e : ClaimFlagOutputEntry) : list Byte.byte :=
  let f := f ++ LittleEndian.PutUint16 (X e) in
  f ++ LittleEndian.PutUint16 (Y e).

(** The body of [for _, k := range IDList]. *)
Definition writeOwner (f : list Byte.byte) (k : FlagOwnerOutputHeader) : list Byte.byte :=
  let f := f ++ LittleEndian.PutUint64 (TribeOrPlayerID k) in
  let f := f ++ LittleEndian.PutUint32 (GoInt.uint32 (Z.of_nat (length (LandClaims k)))) in
  let f := f ++ LittleEndian.PutUint32 (GoInt.uint32 (Z.of_nat (length (WaterClaims k)))) in
  let f := fold_left writeClaim (LandClaims k) f in
  fold_left writeClaim (WaterClaims k) f.

(** The header and the owners; [ranged] is [IDMap] in the order
    [for _, v := range IDMap] yields it. *)
Definition writeFile (opts : MapOptions) (size : nat)
    (ranged : list FlagOwnerOutputHeader) : list Byte.byte :=
  let SrcPixels := GoInt.uint16 (actualPixels opts) in
  let f := [] in
  let f := f ++ LittleEndian.PutUint16 FileVerison in
  let f := f ++ LittleEndian.PutUint16 CompressionType in
  let f := f ++ LittleEndian.PutUint16 SrcPixels in
  let f := f ++ LittleEndian.PutUint16 (GoInt.uint16 (GameSize config)) in
  let f := f ++ LittleEndian.PutUint32 (GoInt.uint32 (Z.of_nat size)) in
  let IDList := insertionSort ByTribeOrPlayerID ranged in
  fold_left writeOwner IDList f.

(** [IDMap] after the loop over the query result. *)
Definition aggregate (opts : MapOptions) (waterRadius : Float64.t)
    (queried : list VirtualBounds) : gmap Z FlagOwnerOutputHeader :=
  fold_left (addClaim opts waterRadius) queried ∅.

Context (rangeIDMap : gmap Z FlagOwnerOutputHeader → list FlagOwnerOutputHeader).

Definition generateCompressedFile (opts : MapOptions) (quadTree : list VirtualBounds)
  : option (Filename * list Byte.byte) :=
  perServer ← virtualPixelsPerServer opts;
  let waterRadius := virtualWaterRadius perServer in
  let IDMap := aggregate opts waterRadius (Query quadTree (qtBB opts)) in
  Some (filename opts, writeFile opts (size IDMap) (rangeIDMap IDMap)).

(** *** [generateTiles] *)

(** [opts] as [generateTiles] sets it up before the loops. *)
Definition tileBaseOptions : MapOptions :=
  {| filename := NoFile;
     actualPixels := TileSize config;
     virtualPixels :=
       GoInt.wrapS64 (TileSize config * GoInt.shl64 1 (GoInt.uint64 (MaxZoom config - 1)));
     virtualClip := Rect 0 0 0 0 |}.

(** [opts] for one tile. *)
Definition tileOptions (tilePath : string) (zoomLevel virtualPixelsPerTile tileX tileY : Z)
  : MapOptions :=
  let minX := GoInt.wrapS64 (tileX * virtualPixelsPerTile) in
  let maxX := GoInt.wrapS64 (GoInt.wrapS64 (minX + virtualPixelsPerTile) - 1) in
  let minY := GoInt.wrapS64 (tileY * virtualPixelsPerTile) in
  let maxY := GoInt.wrapS64 (GoInt.wrapS64 (minY + virtualPixelsPerTile) - 1) in
  {| filename := TilePng tilePath zoomLevel tileX tileY;
     actualPixels := actualPixels tileBaseOptions;
     virtualPixels := virtualPixels tileBaseOptions;
     virtualClip := Rect minX minY maxX maxY |}.

(** The options of the calls of [generateImage], in the order of the two
    loops; [None] is the panic of the division when [tiles] is zero. *)
Definition tileCalls (tilePath : string) (zoomLevel : Z) : option (list MapOptions) :=
  let tiles := GoInt.shl64 1 zoomLevel in
  virtualPixelsPerTile ← GoInt.div64 (virtualPixels tileBaseOptions) tiles;
  Some (tileX ← seqZ 0 tiles; tileY ← seqZ 0 tiles;
        [tileOptions tilePath zoomLevel virtualPixelsPerTile tileX tileY]).

Definition generateTiles (tilePath : string) (zoomLevel : Z) (markers : list Marker)
  : option (list (Filename * list Circle)) :=
  qt ← createQuadTree tileBaseOptions markers;
  calls ← tileCalls tilePath zoomLevel;
  mapM (λ opts, generateImage opts qt) calls.

(** *** [generateGame] *)

Definition BitsPerPixel : Z := 32.

(** [uint16(math.Floor(math.Sqrt(float64(BitsPerPixel))))]. *)
Definition ChannelBlocksPerDimension : Z :=
  Float64.to_uint16 (PrimFloat.sqrt (Float64.of_int BitsPerPixel)).

Definition gameOptions (gamePath : string) : MapOptions :=
  let CorrectedGameSize := GoInt.wrapS64 (GameSize config * ChannelBlocksPerDimension) in
  let vp := GoInt.wrapS64 (CorrectedGameSize * servers) in
  {| filename := WorldMap gamePath;
     actualPixels := CorrectedGameSize;
     virtualPixels := vp;
     virtualClip := Rect 0 0 (GoInt.wrapS64 (vp - 1)) (GoInt.wrapS64 (vp - 1)) |}.

Definition generateGame (gamePath : string) (markers : list Marker)
  : option (Filename * list Byte.byte) :=
  let opts := gameOptions gamePath in
  qt ← createQuadTree opts markers;
  generateCompressedFile opts qt.

End Rendering.

(** ** The tile pyramid as the specification describes it *)

(** The virtual extent per axis, [tileSize * 2^(maxZoom-1)]. *)
Definition virtualExtent (config : Configuration) : Z :=
  TileSize config * 2 ^ (MaxZoom config - 1).

(** Tile [(tileX, tileY)] of zoom level [z]: the clip rectangle
    [[tileX*v, tileX*v+v-1] × [tileY*v, tileY*v+v-1]] with
    [v = virtualExtent / 2^z], at [tileSize] actual pixels. *)
Definition spec_tile (config : Configuration) (tilePath : string) (z tileX tileY : Z)
  : MapOptions :=
  let v := virtualExtent config / 2 ^ z in
  {| filename := TilePng tilePath z tileX tileY;
     actualPixels := TileSize config;
     virtualPixels := virtualExtent config;
     virtualClip := {| MinX := tileX * v; MinY := tileY * v;
                       MaxX := tileX * v + v - 1; MaxY := tileY * v + v - 1 |} |}.

(** A point of the virtual space lies in a clip rectangle, bounds included. *)
Definition insideClip (opts : MapOptions) (px py : Z) : Prop :=
  MinX (virtualClip opts) ≤ px ≤ MaxX (virtualClip opts) ∧
  MinY (virtualClip opts) ≤ py ≤ MaxY (virtualClip opts).

(** ** The world snapshot as the specification lays it out *)

Module SnapshotFormat.

(** [u16 x, u16 y]. *)
Definition claim_bytes (e : ClaimFlagOutputEntry) : list Byte.byte :=
  LittleEndian.PutUint16 (X e) ++ LittleEndian.PutUint16 (Y e).

(** [u64 ownerID, u32 landClaimCount, u32 waterClaimCount], the land
    pairs, the water pairs. *)
Definition owner_record (k : FlagOwnerOutputHeader) : list Byte.byte :=
  LittleEndian.PutUint64 (TribeOrPlayerID k)
  ++ LittleEndian.PutUint32 (GoInt.uint32 (Z.of_nat (length (LandClaims k))))
  ++ LittleEndian.PutUint32 (GoInt.uint32 (Z.of_nat (length (WaterClaims k))))
  ++ mjoin (claim_bytes <$> LandClaims k)
  ++ mjoin (claim_bytes <$> WaterClaims k).

(** [u16 formatVersion (=2), u16 encodingFlag, u16 sourceResolution,
    u16 destResolution, u32 ownerCount], the owner records. *)
Definition snapshot (sourceResolution destResolution : Z)
    (owners : list FlagOwnerOutputHeader) : list Byte.byte :=
  LittleEndian.PutUint16 2
  ++ LittleEndian.PutUint16 1
  ++ LittleEndian.PutUint16 sourceResolution
  ++ LittleEndian.PutUint16 destResolution
  ++ LittleEndian.PutUint32 (GoInt.uint32 (Z.of_nat (length owners)))
  ++ mjoin (owner_record <$> owners).

End SnapshotFormat.

(** ** The gutter as the specification describes it *)

(** The virtual position lies inside the clip window expanded on every side
    by the water radius. *)
Definition insideExpandedClip (opts : MapOptions) (waterRadius : Float64.t)
    (vb : VirtualBounds) : bool :=
  (Float64.of_int (MinX (virtualClip opts)) - waterRadius <=? vbX vb)%float
  && (vbX vb <=? Float64.of_int (MaxX (virtualClip opts)) + waterRadius)%float
  && (Float64.of_int (MinY (virtualClip opts)) - waterRadius <=? vbY vb)%float
  && (vbY vb <=? Float64.of_int (MaxY (virtualClip opts)) + waterRadius)%float.

(** The entities of a query result that the loops of [generateImage] and
    [generateCompressedFile] do not skip. *)
Definition processed (opts : MapOptions) (waterRadius : Float64.t)
    (queried : list VirtualBounds) : list VirtualBounds :=
  filter (λ vb, outsideGutter opts waterRadius vb = false) queried.


(** ** Sample tiles and entities *)

Module SampleTiles.

(** Tile (1, 0) of zoom level 2 under the default configuration: the clip
    rectangle [4096, 8191] × [0, 4095] of an extent of 16384. *)
Definition tile_2_1_0 : MapOptions := spec_tile defaultConfig "tiles" 2 1 0.

(** The water radius in virtual pixels there: 5461 * 21000 / 1400000. *)
Definition waterRadius : Float64.t := virtualWaterRadius defaultConfig 5461%float.

Definition marker_of (owner : Z) (type : Z) : Marker :=
  {| serverX := 0; serverY := 0; tribeOrOwnerID := owner;
     relX := 0%float; relY := 0%float; markerType := type |}.

(** An entity at virtual (10000, 100): 1808 virtual pixels to the right
    of the right edge of the tile. *)
Definition far_right : VirtualBounds :=
  {| vbX := 10000%float; vbY := 100%float; vbRadius := waterRadius;
     vbMarker := marker_of 1000060001 0 |}.

(** An entity at virtual (4040, 100): 56 virtual pixels to the left of the
    left edge of the tile, inside the gutter. *)
Definition in_left_gutter : VirtualBounds :=
  {| vbX := 4040%float; vbY := 100%float; vbRadius := waterRadius;
     vbMarker := marker_of 1000060001 0 |}.

(** A world of 3 × 3 servers rendered at a game size of 16384: 81920
    actual pixels over 245760 virtual ones. *)
Definition large_game : Configuration :=
  {| FetchRateInSeconds := 15; ServersX := 3; ServersY := 3;
     GameSize := 16384; TileSize := 256; MaxZoom := 7;
     GridSize := 1400000%float; LandRadiusUE := 10000%float;
     WaterRadiusUE := 21000%float |}.

(** An entity at virtual (237568, 1000) of that world, water. *)
Definition far_east : VirtualBounds :=
  {| vbX := 237568%float; vbY := 1000%float;
     vbRadius := virtualWaterRadius large_game 81920%float;
     vbMarker := marker_of 5 1 |}.

End SampleTiles.

(** The record stored under a key of [IDMap] carries that key. *)
Definition keyed (IDMap : gmap Z FlagOwnerOutputHeader) : Prop :=
  ∀ k e, IDMap !! k = Some e → TribeOrPlayerID e = k.

(** The owner of an entity. *)
Definition ownerOf (vb : VirtualBounds) : Z := tribeOrOwnerID (vbMarker vb).

(** ** The background workers

    A worker is an endless loop around one cycle: fetch, compare the
    fingerprint with [previousCrc], generate or skip, sleep.  A cycle is a
    function of the snapshot it fetches and of [previousCrc]; it returns
    the new [previousCrc] and what it did.  The goroutines of the tile
    worker are joined by [wg.Wait()] before the cycle goes on: their
    writes are listed by zoom level. *)

Inductive Event :=
  | Log (msg : string)
  | TileWritten (file : Filename) (circles : list Circle)
  | WorldWritten (file : Filename) (bytes : list Byte.byte)
  | UrlsUpdated
  | UrlsNotified
  | Sleep (seconds : Z).

(** The events that write an artifact. *)
Definition isWrite (e : Event) : bool :=
  match e with
  | TileWritten _ _ | WorldWritten _ _ => true
  | _ => false
  end.

Definition writes (events : list Event) : list Event := filter (λ e, isWrite e = true) events.

(** ** [path.Clean] and [path.Join] of the Go library *)

Module Path.

Definition slash : Ascii.ascii := Ascii.ascii_of_nat 47.
Definition dot : list Ascii.ascii := String.list_ascii_of_string ".".
Definition dotdot : list Ascii.ascii := String.list_ascii_of_string "..".

(** The elements of a path, the stretches between its slashes; [cur] is
    the element being read, last character first. *)
Fixpoint elements (cs cur : list Ascii.ascii) : list (list Ascii.ascii) :=
  match cs with
  | [] => [rev cur]
  | c :: cs =>
      if decide (c = slash) then rev cur :: elements cs []
      else elements cs (c :: cur)
  end.

(** One element met by the loop of [path.Clean]; [out] holds the elements
    written so far, the last one first.  An empty element and [.] are
    dropped; [..] takes the last element back when there is one to take,
    is dropped at the root, and is kept at the start of a path that is
    not rooted. *)
Definition cleanStep (rooted : bool) (out : list (list Ascii.ascii))
    (e : list Ascii.ascii) : list (list Ascii.ascii) :=
  if decide (e = []) then out
  else if decide (e = dot) then out
  else if decide (e = dotdot) then
    match out with
    | top :: rest =>
        if decide (top = dotdot) then (if rooted then out else e :: out) else rest
    | [] => if rooted then [] else [e]
    end
  else e :: out.

(** The elements with a slash between any two. *)
Fixpoint separated (es : list (list Ascii.ascii)) : list Ascii.ascii :=
  match es with
  | [] => []
  | [e] => e
  | e :: es => e ++ slash :: separated es
  end.

(** [path.Clean]: the shortest path name equivalent to [path]. *)
Definition Clean (path : string) : string :=
  match String.list_ascii_of_string path with
  | [] => "."
  | c :: cs =>
      let rooted := bool_decide (c = slash) in
      let out := rev (fold_left (cleanStep rooted) (elements (c :: cs) []) []) in
      if rooted then String.string_of_list_ascii (slash :: separated out)
      else if decide (out = []) then "."
      else String.string_of_list_ascii (separated out)
  end.

(** The loop of [path.Join] over its arguments: an element is appended
    after a slash once the buffer holds something, and an empty element
    is skipped while it holds nothing. *)
Fixpoint joinLoop (buf : list Ascii.ascii) (elem : list string) : list Ascii.ascii :=
  match elem with
  | [] => buf
  | e :: elem =>
      if bool_decide (buf ≠ []) || bool_decide (e ≠ "")
      then
        let buf := if bool_decide (buf ≠ []) then buf ++ [slash] else buf in
        joinLoop (buf ++ String.list_ascii_of_string e) elem
      else joinLoop buf elem
  end.

(** [path.Join]: the empty string when every element is empty, else the
    elements joined by slashes and cleaned. *)
Definition Join (elem : list string) : string :=
  if decide (sum_list (String.length <$> elem) = 0)%nat then ""
  else Clean (String.string_of_list_ascii (joinLoop [] elem)).

End Path.

Section Workers.
Context (config : Configuration).
Context (Query : list VirtualBounds → BoundingBox → list VirtualBounds).
Context (rangeIDMap : gmap Z FlagOwnerOutputHeader → list FlagOwnerOutputHeader).
Context (WWWDir : string).

(** [path.Join(config.WWWDir, "territoryTiles")] and
    [path.Join(config.WWWDir, "gameTiles")]. *)
Definition tilePath : string := Path.Join [WWWDir; "territoryTiles"].
Definition gamePath : string := Path.Join [WWWDir; "gameTiles"].

(** One round of the loop of [tileBackgroundWorker]. *)
Definition tileCycle (client : Fetch.Client) (previousCrc : Z) : option (Z * list Event) :=
  '(markers, crc) ← Fetch.fetchClaimMarkers config client;
  if decide (crc ≠ previousCrc) then
    tiles ← mapM (λ zoom, generateTiles config Query tilePath zoom markers)
                 (seqZ 0 (MaxZoom config));
    Some (crc,
          Log "Getting markers for tiles" :: (Log <$> Fetch.warnings config client)
          ++ [Log "Starting tile generation"]
          ++ (uncurry TileWritten <$> mjoin tiles)
          ++ [Log "Finished tile generation"; Sleep (FetchRateInSeconds config)])
  else
    Some (previousCrc,
          Log "Getting markers for tiles" :: (Log <$> Fetch.warnings config client)
          ++ [Log "tile CRCs matched so skipping generation";
              Sleep (FetchRateInSeconds config)]).

(** One round of the loop of [gameBackgroundWorker]. *)
Definition gameCycle (client : Fetch.Client) (previousCrc : Z) : option (Z * list Event) :=
  '(markers, crc) ← Fetch.fetchClaimMarkers config client;
  if decide (crc ≠ previousCrc) then
    world ← generateGame config Query rangeIDMap gamePath markers;
    Some (crc,
          Log "Getting markers for game image" :: (Log <$> Fetch.warnings config client)
          ++ [Log "Generating game images";
              uncurry WorldWritten world; UrlsUpdated; UrlsNotified;
              Sleep (FetchRateInSeconds config)])
  else
    Some (previousCrc,
          Log "Getting markers for game image" :: (Log <$> Fetch.warnings config client)
          ++ [Log "game CRCs matched so skipping generation";
              Sleep (FetchRateInSeconds config)]).

(** The first rounds of a worker, one per snapshot fetched, from a given
    [previousCrc]; the events of each round are kept apart. *)
Fixpoint rounds (cycle : Fetch.Client → Z → option (Z * list Event))
    (snapshots : list Fetch.Client) (previousCrc : Z) : option (list (list Event)) :=
  match snapshots with
  | [] => Some []
  | client :: snapshots =>
      '(previousCrc, events) ← cycle client previousCrc;
      rest ← rounds cycle snapshots previousCrc;
      Some (events :: rest)
  end.


(** [updateUrlsInRedis] and [notifyUrlsChanged] come before the loop. *)
Definition gameBackgroundWorker (snapshots : list Fetch.Client) : option (list (list Event)) :=
  ([UrlsUpdated; UrlsNotified] ::.) <$> rounds gameCycle snapshots 1.

End Workers.

(** ** Sample collaborators *)

Module SampleQueries.

(** A quad tree that answers every query with all its entities. *)
Definition query_all : list VirtualBounds → BoundingBox → list VirtualBounds :=
  λ quadTree _, quadTree.

(** A map ranged in the order in which [map_to_list] lists it. *)
Definition range_by_key
  : gmap Z FlagOwnerOutputHeader → list FlagOwnerOutputHeader :=
  λ IDMap, (map_to_list IDMap).*2.

End SampleQueries.

(** ** [parseServerID] (territoryServer.go) *)

Module Strconv.

(** The value of a decimal digit. *)
Definition digit (c : Ascii.ascii) : option Z :=
  let n := Z.of_nat (Ascii.nat_of_ascii c) in
  if decide (48 ≤ n ≤ 57) then Some (n - 48) else None.

(** The loop of [strconv.ParseUint(s, 10, bitSize)] from the value [n]
    read so far: a character that is no digit is a syntax error, a value
    above [maxVal] a range error. *)
Fixpoint parseLoop (maxVal : Z) (cs : list Ascii.ascii) (n : Z) : option Z :=
  match cs with
  | [] => Some n
  | c :: cs =>
      d ← digit c;
      let n1 := n * 10 + d in
      if decide (n1 > maxVal) then None else parseLoop maxVal cs n1
  end.

(** [strconv.ParseUint(s, 10, 32)]; the empty string is a syntax error. *)
Definition ParseUint32 (s : string) : option Z :=
  match String.list_ascii_of_string s with
  | [] => None
  | cs => parseLoop (2 ^ 32 - 1) cs 0
  end.

End Strconv.

(** [parseServerID] unpacks the packed server ID: X in the high 16 bits,
    Y in the low ones.  [None] is the error returned. *)
Definition parseServerID (packed : string) : option (Z * Z) :=
  id ← Strconv.ParseUint32 packed;
  let buf := LittleEndian.PutUint32 (GoInt.uint32 id) in
  Some (LittleEndian.Uint16 (drop 2 buf), LittleEndian.Uint16 (take 2 buf)).

(** ** [Configuration.getDatabaseByName] *)

(** [RedisConfiguration] holds Atlas database configuration. *)
Record RedisConfiguration := mkRedisConfiguration {
  Name : string;
  URL : string;
  Port : Z;
  Password : string;
}.

Global Instance RedisConfiguration_eq_dec : EqDecision RedisConfiguration.
Proof. solve_decision. Defined.

Definition notFound : RedisConfiguration :=
  {| Name := "not found"; URL := "localhost"; Port := 6379; Password := "" |}.

(** The loop over [c.DatabaseConnections]. *)
Fixpoint getDatabaseByName (DatabaseConnections : list RedisConfiguration) (name : string)
  : RedisConfiguration :=
  match DatabaseConnections with
  | [] => notFound
  | v :: rest => if decide (Name v = name) then v else getDatabaseByName rest name
  end.

(** The connections [loadConfig] starts from. *)
Definition defaultDatabaseConnections : list RedisConfiguration :=
  [ {| Name := "Default"; URL := "localhost"; Port := 6379; Password := "foobared" |};
    {| Name := "TribeDB"; URL := "localhost"; Port := 6379; Password := "foobared" |} ].

(** ** The key prefix of [loadConfig] *)

(** [strings.HasSuffix]. *)
Definition HasSuffix (s suffix : string) : bool :=
  bool_decide (String.list_ascii_of_string suffix `suffix_of` String.list_ascii_of_string s).

(** The last statement of [loadConfig]: a prefix that is not empty ends
    with a slash. *)
Definition fixKeyPrefix (AtlasS3KeyPrefix : string) : string :=
  if decide (0 < String.length AtlasS3KeyPrefix)%nat
  then if negb (HasSuffix AtlasS3KeyPrefix "/")
       then AtlasS3KeyPrefix +:+ "/" else AtlasS3KeyPrefix
  else AtlasS3KeyPrefix.

(** ** The records of a snapshot, with their cells *)

(** A record together with the cell it was read from. *)
Definition TaggedRecord : Type := Z * Z * list Byte.byte.

Definition taggedRecordsOf (client : Fetch.Client) (cs : list (Z * Z)) : list TaggedRecord :=
  cell ← cs;
  (λ r, (cell.1, cell.2, r)) <$> Fetch.members client (Z.lor (cell.1 ≪ 16) cell.2).

Definition taggedRecords (config : Configuration) (client : Fetch.Client)
  : list TaggedRecord :=
  taggedRecordsOf client (Fetch.cells config).

Definition parseTagged (t : TaggedRecord) : option Marker :=
  Fetch.parseRecord t.1.1 t.1.2 t.2.

(** The client that answers an empty set where [client] answers an error. *)
Definition emptyOnError (client : Fetch.Client) : Fetch.Client :=
  λ key, inr (Fetch.members client key).

(** A value of the closed unit interval. *)
Definition unitInterval (f : Float64.t) : bool :=
  (0 <=? f)%float && (f <=? 1)%float.

(** What holds of every marker that [fetchClaimMarkers] returns. *)
Definition markerInGrid (config : Configuration) (m : Marker) : Prop :=
  0 ≤ serverX m < ServersX config ∧
  0 ≤ serverY m < ServersY config ∧
  0 ≤ tribeOrOwnerID m < 2 ^ 64 ∧
  0 ≤ markerType m < 256 ∧
  unitInterval (relX m) = true ∧
  unitInterval (relY m) = true.

(** [record_a] with its last reserved byte set. *)
Definition record_a_reserved : list Byte.byte :=
  Samples.bytes_of [97; 180; 155; 59; 0; 0; 0; 0; 232; 3; 208; 7; 0; 0; 0; 255].

(** The quotients [t / 65535] for [fuel] raw coordinates from [from] on
    are all in the unit interval. *)
Fixpoint checkUnit (fuel : nat) (from : Z) : bool :=
  match fuel with
  | O => true
  | S fuel =>
      unitInterval (PrimFloat.div (Float64.of_int from) (Float64.of_int 65535))
      && checkUnit fuel (from + 1)
  end.

(** ** Rounds of a worker and changes of the fingerprint *)

(** For the fingerprints met round after round, from a stored
    [previousCrc]: whether each differs from the one met just before. *)
Fixpoint changes (previousCrc : Z) (fingerprints : list Z) : list bool :=
  match fingerprints with
  | [] => []
  | crc :: rest => bool_decide (crc ≠ previousCrc) :: changes crc rest
  end.

(** The round wrote an artifact. *)
Definition wrote (events : list Event) : bool := bool_decide (writes events ≠ []).

(** The events that publish: the writes, and the two messages to redis. *)
Definition isPublish (e : Event) : bool :=
  match e with
  | TileWritten _ _ | WorldWritten _ _ | UrlsUpdated | UrlsNotified => true
  | _ => false
  end.

(** The round wrote the world snapshot once, then updated the urls and
    notified, in that order, or did none of the three. *)
Definition publishesInOrder (events : list Event) : Prop :=
  filter (λ e, isPublish e = true) events = []
  ∨ ∃ file bytes,
      filter (λ e, isPublish e = true) events
      = [WorldWritten file bytes; UrlsUpdated; UrlsNotified].


(** ** The claims of an owner *)

(** The claim stored for an entity. *)
Definition claimOf (opts : MapOptions) (vb : VirtualBounds) : ClaimFlagOutputEntry :=
  {| X := Float64.to_uint16 (imageX opts vb); Y := Float64.to_uint16 (imageY opts vb) |}.

(** The claims of one owner and one marker type among some entities, in
    the order of the entities. *)
Definition claimsOf (opts : MapOptions) (owner type : Z) (entities : list VirtualBounds)
  : list ClaimFlagOutputEntry :=
  claimOf opts
    <$> filter (λ vb, ownerOf vb = owner ∧ markerType (vbMarker vb) = type) entities.

(** ** Values that fit the fields of the file *)

(** A claim whose coordinates are [uint16] values. *)
Definition claimFits (e : ClaimFlagOutputEntry) : Prop :=
  0 ≤ X e < 2 ^ 16 ∧ 0 ≤ Y e < 2 ^ 16.

(** An owner record whose id is a [uint64] value, whose claims fit and
    whose two counts are [uint32] values. *)
Definition ownerFits (k : FlagOwnerOutputHeader) : Prop :=
  0 ≤ TribeOrPlayerID k < 2 ^ 64
  ∧ Z.of_nat (length (LandClaims k)) < 2 ^ 32
  ∧ Z.of_nat (length (WaterClaims k)) < 2 ^ 32
  ∧ Forall claimFits (LandClaims k)
  ∧ Forall claimFits (WaterClaims k).

(** A query result of fewer than [2^32] entities whose owners are
    [uint64] values, as those of the markers of [fetchClaimMarkers] are. *)
Definition queryFits (queried : list VirtualBounds) : Prop :=
  Z.of_nat (length queried) < 2 ^ 32
  ∧ Forall (λ vb, 0 ≤ ownerOf vb < 2 ^ 64) queried.

(** Two entities of different owners. *)
Definition entity_of (owner type : Z) (x y : Float64.t) : VirtualBounds :=
  {| vbX := x; vbY := y; vbRadius := SampleTiles.waterRadius;
     vbMarker := SampleTiles.marker_of owner type |}.
Definition entity_a : VirtualBounds := entity_of 7 0 4500%float 100%float.
Definition entity_b : VirtualBounds := entity_of 1000060001 1 5000%float 2000%float.

(** ** The files a round writes *)

Definition writtenFile (e : Event) : option Filename :=
  match e with
  | TileWritten file _ | WorldWritten file _ => Some file
  | _ => None
  end.

Definition filesWritten (events : list Event) : list Filename :=
  omap writtenFile events.

(** ** The heap order of container/heap *)

Section HeapOrder.

(** [(c - 1) / 2], the parent of node [c]. *)
Local Abbreviation parent c := ((c - 1) / 2)%nat.

(** The first [n] elements of [h] are in heap order at every node whose
    parent is at index [k] or beyond: no element is less than its parent.
    With [k = 0] this is the invariant of container/heap. *)
Definition heapFrom (h : list TribeCount) (n k : nat) : Prop :=
  ∀ c a b, (0 < c < n)%nat → (k ≤ parent c)%nat →
    h !! parent c = Some a → h !! c = Some b → Heap.Less b a = false.

Definition isHeap (h : list TribeCount) : Prop := heapFrom h (length h) 0.

(** What [down] works on: heap order but for node [i], which may be out
    of order with its children, while those are in order with the parent
    of [i]. *)
Definition downState (h : list TribeCount) (n k i : nat) : Prop :=
  (∀ c a b, (0 < c < n)%nat → (k ≤ parent c)%nat → parent c ≠ i →
     h !! parent c = Some a → h !! c = Some b → Heap.Less b a = false)
  ∧ (∀ c a b, (0 < c < n)%nat → parent c = i → (0 < i)%nat → (k ≤ parent i)%nat →
     h !! parent i = Some a → h !! c = Some b → Heap.Less b a = false).

(** What [up] works on: heap order but for node [j], which may be out of
    order with its parent, while its children are in order with it. *)
Definition upState (h : list TribeCount) (n j : nat) : Prop :=
  (∀ c a b, (0 < c < n)%nat → c ≠ j →
     h !! parent c = Some a → h !! c = Some b → Heap.Less b a = false)
  ∧ (∀ c a b, (0 < c < n)%nat → parent c = j → (0 < j)%nat →
     h !! parent j = Some a → h !! c = Some b → Heap.Less b a = false).

End HeapOrder.

(** ** The loop of the bounded heap *)

(** What the loop of [TopNTribes] in territoryServer.go keeps, [seen]
    being the values ranged over so far: up to [n] values the slice is
    what was seen; from then on it is a heap of [n] values, and nothing
    that was dropped ranks above anything in it. *)
Definition loopState (n : Z) (seen pq : list TribeCount) (i : Z) : Prop :=
  i = Z.of_nat (length seen) ∧
  ((i ≤ n ∧ pq = seen) ∨
   (n < i ∧ isHeap pq ∧ length pq = Z.to_nat n ∧
    ∃ dropped, seen ≡ₚ pq ++ dropped ∧
               Forall (λ d, Forall (λ s, Heap.Less s d = false) pq) dropped)).

(** ** The keys of the store *)



(** An empty store whose cell (0, 1) cannot be read. *)
Definition store_one_down : Fetch.Client :=
  λ key, if decide (key = 1) then inl "EOF" else inr [].
Section GoIntFacts.
Import GoInt.

Lemma wrapS64_small v : - 2 ^ 63 ≤ v < 2 ^ 63 → wrapS64 v = v.
Proof.
  intros Hv. unfold wrapS64.
  rewrite Z.mod_small; lia.
Qed.

Lemma wrapU_small w v : 0 ≤ v < 2 ^ w → wrapU w v = v.
Proof. intros Hv. unfold wrapU. by rewrite Z.mod_small. Qed.

Lemma wrapU_range w v : 0 ≤ w → 0 ≤ wrapU w v < 2 ^ w.
Proof. intros Hw. unfold wrapU. apply Z.mod_pos_bound. by apply Z.pow_pos_nonneg. Qed.

Lemma Min_spec x y : Min x y = Z.min x y.
Proof. unfold Min. case_decide; lia. Qed.

End GoIntFacts.

Section SortFacts.
Context {A : Type} (less : A → A → bool).
Local Abbreviation sink := (sink less).
Local Abbreviation insertionSort := (insertionSort less).
Local Abbreviation notless := (notless less).
Local Abbreviation sorted_by := (sorted_by less).

Lemma sink_perm x rp : sink x rp ≡ₚ x :: rp.
Proof.
  induction rp as [|y r IH]; simpl; [done|].
  destruct (less x y); [|done].
  rewrite IH. apply perm_swap.
Qed.

Lemma fold_sink_perm l rp : fold_left (λ rp x, sink x rp) l rp ≡ₚ l ++ rp.
Proof.
  revert rp. induction l as [|x l IH]; intros rp; simpl; [done|].
  rewrite IH, sink_perm. by rewrite Permutation_middle.
Qed.

Lemma insertionSort_perm l : insertionSort l ≡ₚ l.
Proof.
  unfold insertionSort. rewrite <- (Permutation_rev _).
  rewrite fold_sink_perm. by rewrite app_nil_r.
Qed.

Lemma insertionSort_length l : length (insertionSort l) = length l.
Proof. apply Permutation_length, insertionSort_perm. Qed.

(** What the comparison has to satisfy: a strict weak order. *)
Hypothesis less_asym : ∀ a b, less a b = true → less b a = false.
Hypothesis notless_trans : ∀ a b c, notless a b → notless b c → notless a c.

Lemma sink_sorted x rp :
  StronglySorted notless rp → StronglySorted notless (sink x rp).
Proof.
  induction rp as [|y r IH]; simpl; intros Hs.
  - repeat constructor.
  - apply StronglySorted_inv in Hs as [Hr Hy].
    destruct (less x y) eqn:Hxy.
    + constructor; [by apply IH|].
      rewrite sink_perm. constructor; [|done].
      by apply less_asym.
    + constructor; [by constructor|].
      constructor; [done|].
      eapply Forall_impl; [exact Hy|].
      intros z Hz. by eapply notless_trans.
Qed.

Lemma fold_sink_sorted l rp :
  StronglySorted notless rp →
  StronglySorted notless (fold_left (λ rp x, sink x rp) l rp).
Proof.
  revert rp. induction l as [|x l IH]; intros rp Hs; simpl; [done|].
  by apply IH, sink_sorted.
Qed.

Lemma StronglySorted_rev_flip (R : relation A) l :
  StronglySorted R l → StronglySorted (flip R) (rev l).
Proof.
  induction 1 as [|x l Hl IH Hx]; simpl; [constructor|].
  apply StronglySorted_app_2; [|done|repeat constructor].
  intros a b Ha Hb. apply list_elem_of_singleton in Hb as ->.
  rewrite Forall_forall in Hx. apply Hx.
  apply list_elem_of_In. apply list_elem_of_In in Ha. by apply in_rev.
Qed.

Lemma insertionSort_sorted l : sorted_by (insertionSort l).
Proof.
  unfold insertionSort, sorted_by.
  apply (StronglySorted_rev_flip notless).
  apply fold_sink_sorted. constructor.
Qed.

(** When elements that are not ordered by [less] are equal, a slice has
    exactly one sorted arrangement. *)
Hypothesis less_total : ∀ a b, less a b = false → less b a = false → a = b.

Lemma sorted_by_unique l1 l2 :
  l1 ≡ₚ l2 → sorted_by l1 → sorted_by l2 → l1 = l2.
Proof.
  unfold sorted_by. intros Hp H1 H2.
  eapply StronglySorted_unique_strong; [|done..].
  intros a b _ _ Hab Hba. by apply less_total.
Qed.

Lemma insertionSort_unique l1 l2 :
  l1 ≡ₚ l2 → insertionSort l1 = insertionSort l2.
Proof.
  intros Hp. apply sorted_by_unique; [|apply insertionSort_sorted..].
  by rewrite !insertionSort_perm.
Qed.

Lemma insertionSort_sorted_id l : sorted_by l → insertionSort l = l.
Proof.
  intros Hs. apply sorted_by_unique; [apply insertionSort_perm| |done].
  apply insertionSort_sorted.
Qed.
End SortFacts.

(** ** container/heap: every operation permutes the slice and terminates *)

Section HeapFacts.
Import Heap.

Lemma Swap_length h i j : length (Swap h i j) = length h.
Proof.
  unfold Swap. destruct (h !! i), (h !! j); try done.
  by rewrite !length_insert.
Qed.

Lemma Swap_perm h i j : Swap h i j ≡ₚ h.
Proof.
  unfold Swap.
  destruct (h !! i) as [a|] eqn:Hi; [|done].
  destruct (h !! j) as [b|] eqn:Hj; [|done].
  pose proof (lookup_lt_Some _ _ _ Hi) as Hli.
  pose proof (lookup_lt_Some _ _ _ Hj) as Hlj.
  apply Permutation_inj. split; [by rewrite !length_insert|].
  exists (λ k, if decide (k = i) then j else if decide (k = j) then i else k).
  split.
  - intros x y. repeat case_decide; intros; subst; congruence.
  - intros k. case_decide as Hki; [subst k|].
    + rewrite list_lookup_insert_eq; [done|by rewrite length_insert].
    + rewrite list_lookup_insert_ne by done.
      case_decide as Hkj; [subst k|].
      * by rewrite list_lookup_insert_eq.
      * by rewrite list_lookup_insert_ne.
Qed.

Lemma down_perm fuel h i n h' : down fuel h i n = Some h' → h' ≡ₚ h.
Proof.
  revert h i. induction fuel as [|fuel IH]; intros h i; simpl; [done|].
  case_decide; [by intros [= <-]|].
  destruct (negb _); [by intros [= <-]|].
  intros Hd. apply IH in Hd. by rewrite Hd, Swap_perm.
Qed.

(** The loop of [down] leaves through one of its two [break]s: the index
    grows in every round and stays below [n]. *)
Lemma down_total fuel h i n : (n - i < fuel)%nat → is_Some (down fuel h i n).
Proof.
  revert h i. induction fuel as [|fuel IH]; intros h i Hf; simpl; [lia|].
  case_decide; [by eexists|].
  destruct (negb _); [by eexists|].
  apply IH. repeat case_decide; try destruct (lessAt _ _ _); lia.
Qed.

Lemma up_perm fuel h j h' : up fuel h j = Some h' → h' ≡ₚ h.
Proof.
  revert h j. induction fuel as [|fuel IH]; intros h j; simpl; [done|].
  case_decide; [by intros [= <-]|].
  destruct (negb _); [by intros [= <-]|].
  intros Hd. apply IH in Hd. by rewrite Hd, Swap_perm.
Qed.

Lemma up_total fuel h j : (j < fuel)%nat → is_Some (up fuel h j).
Proof.
  revert h j. induction fuel as [|fuel IH]; intros h j Hf; cbn [up]; [lia|].
  case_decide as Hij; [by eexists|].
  destruct (negb _); [by eexists|].
  apply IH.
  assert ((j - 1) / 2 ≤ j - 1)%nat by (apply Nat.Div0.div_le_upper_bound; lia).
  lia.
Qed.

Lemma initLoop_total k h n : ∃ h', initLoop k h n = Some h' ∧ h' ≡ₚ h.
Proof.
  revert h. induction k as [|k IH]; intros h; cbn [initLoop]; [by eexists|].
  destruct (down_total (S n) h k n) as [h1 Hh1]; [lia|].
  rewrite Hh1. simpl.
  destruct (IH h1) as (h2 & -> & Hp).
  exists h2. split; [done|].
  rewrite Hp. by eapply down_perm.
Qed.

Lemma Init_total h : ∃ h', Init h = Some h' ∧ h' ≡ₚ h.
Proof. apply initLoop_total. Qed.

Lemma Push_total h x : ∃ h', Push h x = Some h' ∧ h' ≡ₚ x :: h.
Proof.
  unfold Push.
  destruct (up_total (S (length (h ++ [x]))) (h ++ [x]) (length (h ++ [x]) - 1))
    as [h' Hh']; [lia|].
  exists h'. split; [done|].
  apply up_perm in Hh'. rewrite Hh'.
  by rewrite Permutation_app_comm.
Qed.

End HeapFacts.

(** ** The comparison of [sort.SliceStable] in tribeCount.go is a strict
       total order on the records *)

Section SliceLessFacts.
Import TribeCountSort.

Lemma sliceLess_asym a b : sliceLess a b = true → sliceLess b a = false.
Proof.
  unfold sliceLess. repeat case_decide; repeat case_bool_decide; try done; lia.
Qed.

Lemma sliceLess_notless_trans a b c :
  notless sliceLess a b → notless sliceLess b c → notless sliceLess a c.
Proof.
  unfold notless, sliceLess.
  repeat case_decide; repeat case_bool_decide; try done; lia.
Qed.

Lemma sliceLess_total a b : sliceLess a b = false → sliceLess b a = false → a = b.
Proof.
  destruct a as [ia ca], b as [ib cb]. unfold sliceLess. simpl.
  repeat case_decide; repeat case_bool_decide; try done;
    intros _ _; f_equal; lia.
Qed.

(** Not less under [sliceLess] is the order (count descending, id descending). *)
Lemma sliceLess_false a b :
  sliceLess b a = false ↔
  count b < count a ∨ (count a = count b ∧ tribeID b ≤ tribeID a).
Proof.
  unfold sliceLess. repeat case_decide; repeat case_bool_decide; split; try done; lia.
Qed.

End SliceLessFacts.

(** ** [TopNTribes] of tribeCount.go *)

Section TopNFacts.
Import TribeCountSort.

Lemma StronglySorted_weaken {A} (R1 R2 : relation A) l :
  (∀ a b, R1 a b → R2 a b) → StronglySorted R1 l → StronglySorted R2 l.
Proof.
  intros HR. induction 1 as [|x l Hl IH Hx]; constructor; [done|].
  eapply Forall_impl; [exact Hx|]. intros b. apply HR.
Qed.

Lemma sliceSorted_sorted l : sorted_by sliceLess (insertionSort sliceLess l).
Proof.
  apply insertionSort_sorted;
    [apply sliceLess_asym | apply sliceLess_notless_trans].
Qed.

Lemma sliceSort_unique l1 l2 :
  l1 ≡ₚ l2 → insertionSort sliceLess l1 = insertionSort sliceLess l2.
Proof.
  apply insertionSort_unique;
    [apply sliceLess_asym | apply sliceLess_notless_trans | apply sliceLess_total].
Qed.

(** What [TopNTribes] returns, whatever [heap.Init] made of the slice. *)
Lemma TopNTribes_eq n order :
  TopNTribes n order =
  Some (tribeID <$> take (Z.to_nat (Z.min n (Z.of_nat (length order))))
                         (insertionSort sliceLess order)).
Proof.
  unfold TopNTribes.
  destruct (Init_total order) as (h & -> & Hp). simpl.
  rewrite Min_spec, insertionSort_length.
  rewrite (Permutation_length Hp). do 3 f_equal.
  by apply sliceSort_unique.
Qed.

(** C10.  [TopNTribes] of tribeCount.go is a function of [n] and of the
    contents of [counts]: any two orders in which [range counts] may yield
    the values give the same result. *)
Theorem TopNTribes_iteration_order_irrelevant
    (n : Z) (counts : gmap Z TribeCount) (order1 order2 : list TribeCount) :
  iteration_of counts order1 → iteration_of counts order2 →
  TopNTribes n order1 = TopNTribes n order2.
Proof.
  unfold iteration_of. intros H1 H2.
  assert (order1 ≡ₚ order2) as Hp by (by rewrite H1, H2).
  rewrite !TopNTribes_eq, (Permutation_length Hp).
  do 3 f_equal. by apply sliceSort_unique.
Qed.

(** C1, as the code has it.  For every [n] and every map, whatever the
    iteration order, [TopNTribes] of tribeCount.go returns the owner ids of
    the first [min(n, number of entries)] records (none when [n] is
    negative) of the full ranking of the map's values by count descending
    and then owner id DESCENDING. *)
Theorem TopNTribes_ranks_count_desc_id_desc
    (n : Z) (counts : gmap Z TribeCount) (order : list TribeCount) :
  iteration_of counts order →
  ∃ ranked : list TribeCount,
    ranked ≡ₚ (map_to_list counts).*2 ∧
    StronglySorted count_desc_id_desc ranked ∧
    TopNTribes n order =
      Some (tribeID <$> take (Z.to_nat (Z.min n (Z.of_nat (size counts)))) ranked) ∧
    ∀ result, TopNTribes n order = Some result →
      length result = Z.to_nat (Z.min n (Z.of_nat (size counts))).
Proof.
  unfold iteration_of. intros Hit.
  assert (length order = size counts) as Hlen.
  { rewrite (Permutation_length Hit), length_fmap. apply length_map_to_list. }
  exists (insertionSort sliceLess order). split_and!.
  - by rewrite insertionSort_perm.
  - eapply StronglySorted_weaken; [|apply sliceSorted_sorted].
    intros a b Hab. by apply sliceLess_false.
  - by rewrite TopNTribes_eq, Hlen.
  - intros result. rewrite TopNTribes_eq. intros [= <-].
    rewrite length_fmap, length_take, insertionSort_length, Hlen. lia.
Qed.

Lemma example_order_iteration : iteration_of example_counts example_order.
Proof.
  unfold iteration_of, example_order.
  vm_compute (map_to_list example_counts).*2.
  symmetry. apply (Permutation_cons_append [mkTribeCount 10 5; mkTribeCount 20 5]).
Defined.

Lemma example_reverse_iteration : iteration_of example_counts (rev example_order).
Proof.
  unfold iteration_of. rewrite <- Permutation_rev. apply example_order_iteration.
Defined.

Lemma TopNTribes_iteration_order_irrelevant_witness :
  TopNTribes 2 example_order = TopNTribes 2 (rev example_order).
Proof.
  apply (TopNTribes_iteration_order_irrelevant 2 example_counts).
  - apply example_order_iteration.
  - apply example_reverse_iteration.
Defined.

Lemma TopNTribes_ranks_count_desc_id_desc_witness :
  ∃ ranked : list TribeCount,
    ranked ≡ₚ (map_to_list example_counts).*2 ∧
    StronglySorted count_desc_id_desc ranked ∧
    TopNTribes 2 example_order =
      Some (tribeID <$> take (Z.to_nat (Z.min 2 (Z.of_nat (size example_counts)))) ranked) ∧
    ∀ result, TopNTribes 2 example_order = Some result →
      length result = Z.to_nat (Z.min 2 (Z.of_nat (size example_counts))).
Proof.
  apply (TopNTribes_ranks_count_desc_id_desc 2 example_counts example_order).
  apply example_order_iteration.
Defined.

(** C1 as stated fails on the example of the specification itself: the two
    owners with five markers come out as [20; 10], the higher id first, in
    the full sort of tribeCount.go and in the bounded heap alike, and that
    is not the ranking by (count descending, id ascending). *)
Lemma TopNTribes_example_is_20_10 :
  TopNTribes 2 example_order = Some [20; 10] ∧
  TribeCountHeap.TopNTribes 2 example_order = Some [20; 10] ∧
  TopNTribes 2 example_order ≠ Some [10; 20] ∧
  ¬ StronglySorted count_desc_id_asc [mkTribeCount 20 5; mkTribeCount 10 5].
Proof.
  split_and!; [by vm_compute..| |].
  - vm_compute. intros [= ?].
  - intros Hs. apply StronglySorted_inv in Hs as [_ Hf].
    apply Forall_inv in Hf. unfold count_desc_id_asc in Hf. simpl in Hf. lia.
Qed.

(** The bounded heap hands back the heap array backwards, which is a full
    ranking only for the root: with three owners of one, three and two
    markers met in that order and [n = 3], the result is [2; 3; 1]. *)
Lemma TopNTribes_heap_array_order :
  TribeCountHeap.TopNTribes 3
    [ mkTribeCount 1 1; mkTribeCount 3 3; mkTribeCount 2 2 ] = Some [2; 3; 1] ∧
  TribeCountHeap.TopNTribes 3
    [ mkTribeCount 1 1; mkTribeCount 2 2; mkTribeCount 3 3 ] = Some [3; 2; 1].
Proof. by vm_compute. Qed.

End TopNFacts.

(** ** Owner colours *)

Section ColorFacts.
Import Color.

Lemma isTribeID_spec tribeID : isTribeID tribeID = true ↔ threshold < tribeID.
Proof. unfold isTribeID, threshold. rewrite bool_decide_eq_true. lia. Qed.

Lemma palette_lookup (idx : Z) :
  0 ≤ idx < 4 →
  index colorValues (nth (Z.to_nat idx) colors "") = nth (Z.to_nat idx) palette black.
Proof.
  intros Hidx.
  assert (idx = 0 ∨ idx = 1 ∨ idx = 2 ∨ idx = 3) as Hc by lia.
  destruct Hc as [-> | [-> | [-> | ->]]]; by vm_compute.
Qed.

(** C4, as the code has it.  Owner 0 gets the reserved black; an owner up
    to AND INCLUDING 1_000_050_000 is a player and gets gray; an owner
    above it is a group and gets [palette[ownerID mod paletteSize]]. *)
Theorem getTribeColor_classification (ownerID : Z) :
  getTribeColor ownerID =
    if decide (ownerID = 0) then black
    else if decide (ownerID ≤ threshold) then gray
    else nth (Z.to_nat (ownerID mod paletteSize)) palette black.
Proof.
  unfold getTribeColor.
  case_decide as H0; [by vm_compute|].
  destruct (isTribeID ownerID) eqn:Ht; simpl.
  - apply isTribeID_spec in Ht.
    case_decide; [lia|].
    change (Z.of_nat (length colors)) with 4.
    change paletteSize with 4.
    apply palette_lookup. by apply Z.mod_pos_bound.
  - case_decide as Hle; [by vm_compute|].
    assert (isTribeID ownerID = true) as Ht' by (apply isTribeID_spec; lia).
    congruence.
Qed.

(** C4 as stated fails at the threshold itself: 1_000_050_000 is not below
    the threshold, so the claim gives it [palette[0]], yellow; the code
    classifies it as a player and returns gray. *)
Lemma getTribeColor_at_threshold :
  isTribeID 1000050000 = false ∧
  getTribeColor 1000050000 = gray ∧
  spec_color 1000050000 = yellow ∧
  getTribeColor 1000050000 ≠ spec_color 1000050000.
Proof. split_and!; [by vm_compute..|]. vm_compute. intros [= ?]. Qed.

End ColorFacts.

(** ** Little-endian encoding: reading back what was written *)

Section LittleEndianFacts.
Import LittleEndian.

Lemma Z_of_byte_of_Z v : Z_of_byte (byte_of_Z v) = v mod 256.
Proof.
  unfold Z_of_byte, byte_of_Z.
  assert (0 ≤ v mod 256 < 256) as Hr by (apply Z.mod_pos_bound; lia).
  destruct (Byte.of_N (Z.to_N (v mod 256))) as [b|] eqn:Hb; simpl.
  - apply Byte.to_of_N in Hb. rewrite Hb. lia.
  - apply Byte.of_N_None_iff in Hb. lia.
Qed.

Lemma Z_of_byte_range b : 0 ≤ Z_of_byte b < 256.
Proof.
  unfold Z_of_byte. pose proof (Byte.to_N_bounded b). lia.
Qed.

Lemma put_length k v : length (put k v) = k.
Proof. revert v. induction k as [|k IH]; intros v; simpl; [done|]. by rewrite IH. Qed.

Lemma get_put k v : get (put k v) = v mod 2 ^ (8 * Z.of_nat k).
Proof.
  revert v. induction k as [|k IH]; intros v.
  - simpl. by rewrite Z.mod_1_r.
  - cbn [put get]. rewrite IH, Z_of_byte_of_Z.
    replace (8 * Z.of_nat (S k)) with (8 + 8 * Z.of_nat k) by lia.
    change 256 with (2 ^ 8).
    apply Z.bits_inj'. intros i Hi.
    rewrite Z.lor_spec, !Z.testbit_mod_pow2 by lia.
    destruct (decide (i < 8)) as [Hlt|Hge].
    + rewrite Z.shiftl_spec_low by lia.
      rewrite orb_false_r.
      destruct (Z.ltb_spec i 8); [|lia].
      destruct (Z.ltb_spec i (8 + 8 * Z.of_nat k)); [|lia]. done.
    + rewrite Z.shiftl_spec by lia.
      rewrite Z.testbit_mod_pow2 by lia.
      rewrite Z.shiftr_spec by lia.
      replace (i - 8 + 8) with i by lia.
      destruct (Z.ltb_spec i 8); [lia|].
      destruct (Z.ltb_spec (i - 8) (8 * Z.of_nat k));
        destruct (Z.ltb_spec i (8 + 8 * Z.of_nat k)); try lia; done.
Qed.

Lemma PutUint32_inj a b :
  0 ≤ a < 2 ^ 32 → 0 ≤ b < 2 ^ 32 → PutUint32 a = PutUint32 b → a = b.
Proof.
  intros Ha Hb Heq. apply (f_equal get) in Heq.
  unfold PutUint32 in Heq. rewrite !get_put in Heq.
  change (8 * Z.of_nat 4) with 32 in Heq.
  by rewrite !Z.mod_small in Heq.
Qed.

Lemma PutUint32_join_inj (l1 l2 : list Z) :
  Forall (λ v, 0 ≤ v < 2 ^ 32) l1 → Forall (λ v, 0 ≤ v < 2 ^ 32) l2 →
  mjoin (PutUint32 <$> l1) = mjoin (PutUint32 <$> l2) → l1 = l2.
Proof.
  intros H1. revert l2. induction H1 as [|a l1 Ha H1 IH]; intros l2 H2 Heq.
  - destruct H2 as [|b l2 Hb H2]; [done|]. discriminate Heq.
  - destruct H2 as [|b l2 Hb H2]; [discriminate Heq|].
    change (PutUint32 a ++ mjoin (PutUint32 <$> l1) =
            PutUint32 b ++ mjoin (PutUint32 <$> l2)) in Heq.
    apply app_inj_1 in Heq as [Hab Hl]; [|unfold PutUint32; by rewrite !put_length].
    f_equal; [by apply PutUint32_inj | by apply IH].
Qed.

End LittleEndianFacts.

(** ** CRC-32: a running checksum is the checksum of the concatenation *)

Section CRC32Facts.
Import CRC32.

Lemma complement_involutive crc : complement (complement crc) = crc.
Proof.
  unfold complement. by rewrite Z.lxor_assoc, Z.lxor_nilpotent, Z.lxor_0_r.
Qed.

Lemma update_nil crc : update crc [] = crc.
Proof. apply complement_involutive. Qed.

Lemma update_app crc a b : update (update crc a) b = update crc (a ++ b).
Proof.
  unfold update. by rewrite complement_involutive, fold_left_app.
Qed.

Lemma lxor_range n a b :
  0 < n → 0 ≤ a < 2 ^ n → 0 ≤ b < 2 ^ n → 0 ≤ Z.lxor a b < 2 ^ n.
Proof.
  intros Hn Ha Hb.
  assert (0 ≤ Z.lxor a b) as Hnn by (apply Z.lxor_nonneg; lia).
  split; [done|].
  destruct (decide (Z.lxor a b = 0)) as [->|Hne]; [lia|].
  apply Z.log2_lt_pow2; [lia|].
  pose proof (Z.log2_lxor a b ltac:(lia) ltac:(lia)) as Hl.
  assert (Z.log2 a < n) as Hla.
  { destruct (decide (a = 0)) as [->|]; [simpl; lia|]. apply Z.log2_lt_pow2; lia. }
  assert (Z.log2 b < n) as Hlb.
  { destruct (decide (b = 0)) as [->|]; [simpl; lia|]. apply Z.log2_lt_pow2; lia. }
  lia.
Qed.

Lemma shiftr_range n k a : 0 ≤ k → 0 ≤ a < 2 ^ n → 0 ≤ a ≫ k < 2 ^ n.
Proof.
  intros Hk Ha. rewrite Z.shiftr_div_pow2 by done.
  assert (0 < 2 ^ k) by (by apply Z.pow_pos_nonneg).
  split; [apply Z.div_pos; lia|].
  apply Z.le_lt_trans with a; [|lia].
  apply Z.div_le_upper_bound; nia.
Qed.

Lemma IEEETable_range : Forall (λ e, 0 ≤ e < 2 ^ 32) IEEETable.
Proof. apply (bool_decide_unpack _). by vm_compute. Qed.

Lemma byteStep_range crc v : 0 ≤ crc < 2 ^ 32 → 0 ≤ byteStep crc v < 2 ^ 32.
Proof.
  intros Hc. unfold byteStep. apply lxor_range; [lia| |by apply shiftr_range].
  destruct (nth_in_or_default
              (Z.to_nat (Z.lxor (Z.land crc 255) (LittleEndian.Z_of_byte v)))
              IEEETable 0) as [Hin| ->]; [|lia].
  pose proof IEEETable_range as Ht. rewrite Forall_forall in Ht.
  by apply Ht, list_elem_of_In.
Qed.

Lemma complement_range crc : 0 ≤ crc < 2 ^ 32 → 0 ≤ complement crc < 2 ^ 32.
Proof. intros Hc. unfold complement. apply lxor_range; lia. Qed.

Lemma update_range crc p : 0 ≤ crc < 2 ^ 32 → 0 ≤ update crc p < 2 ^ 32.
Proof.
  intros Hc. unfold update. apply complement_range.
  apply complement_range in Hc. revert Hc. generalize (complement crc).
  induction p as [|v p IH]; intros c Hc; simpl; [done|].
  by apply IH, byteStep_range.
Qed.

Lemma ChecksumIEEE_range data : 0 ≤ ChecksumIEEE data < 2 ^ 32.
Proof. apply update_range. lia. Qed.

End CRC32Facts.

(** ** [fetchClaimMarkers]: the fingerprint *)

Section FetchFacts.
Import Fetch.

Lemma crcLess_asym a b : crcLess a b = true → crcLess b a = false.
Proof. unfold crcLess. repeat case_bool_decide; try done; lia. Qed.

Lemma crcLess_notless_trans a b c :
  notless crcLess a b → notless crcLess b c → notless crcLess a c.
Proof. unfold notless, crcLess. repeat case_bool_decide; try done; lia. Qed.

Lemma crcLess_total a b : crcLess a b = false → crcLess b a = false → a = b.
Proof. unfold crcLess. repeat case_bool_decide; try done; lia. Qed.

Lemma crcSort_unique l1 l2 :
  l1 ≡ₚ l2 → insertionSort crcLess l1 = insertionSort crcLess l2.
Proof.
  apply insertionSort_unique;
    [apply crcLess_asym | apply crcLess_notless_trans | apply crcLess_total].
Qed.

Lemma crcSort_ascending l : StronglySorted Z.le (insertionSort crcLess l).
Proof.
  eapply StronglySorted_weaken;
    [|apply insertionSort_sorted; [apply crcLess_asym | apply crcLess_notless_trans]].
  intros a b. unfold crcLess. case_bool_decide; [done|lia].
Qed.

Lemma fold_left_cons_eq {A B} (f : A → B → A) x l a :
  fold_left f (x :: l) a = fold_left f l (f a x).
Proof. done. Qed.

Lemma join_cons_eq {A} (x : list A) (ls : list (list A)) :
  mjoin (x :: ls) = x ++ mjoin ls.
Proof. done. Qed.

(** The digest after all the writes is the checksum of everything written. *)
Lemma hashAll_eq crcs :
  hashAll crcs = CRC32.ChecksumIEEE (mjoin (LittleEndian.PutUint32 <$> crcs)).
Proof.
  unfold hashAll, CRC32.ChecksumIEEE.
  generalize 0 at 1 2.
  induction crcs as [|c crcs IH]; intros h.
  - symmetry. apply update_nil.
  - rewrite fold_left_cons_eq, IH, fmap_cons, join_cons_eq. apply update_app.
Qed.

Lemma addRecord_crcs x y acc r :
  fst <$> addRecord x y acc r =
  if decide (wellFormed r) then (λ c, c ++ [CRC32.ChecksumIEEE r]) <$> (fst <$> acc)
  else None.
Proof.
  unfold addRecord, parseRecord, wellFormed.
  destruct acc as [[crcs ms]|]; simpl; [|by case_decide].
  repeat case_decide; try lia; done.
Qed.

Lemma fold_addRecord_crcs x y rs acc :
  fst <$> fold_left (addRecord x y) rs acc =
  if decide (Forall wellFormed rs)
  then (λ c, c ++ (CRC32.ChecksumIEEE <$> rs)) <$> (fst <$> acc)
  else None.
Proof.
  revert acc. induction rs as [|r rs IH]; intros acc; cbn [fold_left].
  - rewrite decide_True by constructor.
    destruct acc as [[crcs ms]|]; simpl; [|done]. by rewrite app_nil_r.
  - rewrite IH, addRecord_crcs.
    destruct (decide (wellFormed r)) as [Hr|Hr].
    + destruct (decide (Forall wellFormed rs)) as [Hrs|Hrs].
      * rewrite decide_True by (by constructor).
        destruct acc as [[crcs ms]|]; simpl; [|done].
        by rewrite <- app_assoc.
      * rewrite decide_False; [done|]. intros Hf. by inv Hf.
    + rewrite (decide_False (P := Forall wellFormed (r :: rs))).
      * by case_decide.
      * intros Hf. by inv Hf.
Qed.

Lemma fold_fetchCell_crcs client cs acc :
  fst <$> fold_left (fetchCell client) cs acc =
  if decide (Forall wellFormed (recordsOf client cs))
  then (λ c, c ++ (CRC32.ChecksumIEEE <$> recordsOf client cs)) <$> (fst <$> acc)
  else None.
Proof.
  revert acc. induction cs as [|[x y] cs IH]; intros acc.
  - cbn [fold_left]. change (recordsOf client []) with (@nil (list Byte.byte)).
    rewrite decide_True by constructor.
    destruct acc as [[crcs ms]|]; simpl; [|done]. by rewrite app_nil_r.
  - cbn [fold_left]. rewrite IH.
    change (recordsOf client ((x, y) :: cs))
      with (members client (Z.lor (x ≪ 16) y) ++ recordsOf client cs).
    unfold fetchCell, members.
    destruct (client (Z.lor (x ≪ 16) y)) as [err|results]; simpl; [done|].
    rewrite fold_addRecord_crcs.
    destruct (decide (Forall wellFormed results)) as [Hr|Hr].
    + destruct (decide (Forall wellFormed (recordsOf client cs))) as [Hrs|Hrs].
      * rewrite decide_True by (by apply Forall_app).
        destruct acc as [[crcs ms]|]; simpl; [|done].
        by rewrite fmap_app, <- app_assoc.
      * rewrite decide_False; [done|]. intros Hf. by apply Forall_app in Hf as [_ ?].
    + rewrite (decide_False (P := Forall wellFormed (results ++ recordsOf client cs))).
      * by case_decide.
      * intros Hf. by apply Forall_app in Hf as [? _].
Qed.

(** The fingerprint in closed form: the per-record checksums, sorted, are
    written little endian into one checksum; a short record is a panic. *)
Lemma fingerprint_eq config client :
  fingerprint config client =
  if decide (Forall wellFormed (records config client))
  then Some (CRC32.ChecksumIEEE
               (mjoin (LittleEndian.PutUint32 <$>
                         insertionSort crcLess
                           (CRC32.ChecksumIEEE <$> records config client))))
  else None.
Proof.
  unfold fingerprint, fetchClaimMarkers.
  pose proof (fold_fetchCell_crcs client (cells config) (Some ([], []))) as Hf.
  change (recordsOf client (cells config)) with (records config client) in Hf.
  destruct (fold_left (fetchCell client) (cells config) (Some ([], [])))
    as [[crcs ms]|]; simpl in *.
  - case_decide; [|done]. injection Hf as ->. by rewrite hashAll_eq.
  - by case_decide.
Qed.

Lemma fingerprint_perm config1 config2 client1 client2 :
  records config1 client1 ≡ₚ records config2 client2 →
  fingerprint config1 client1 = fingerprint config2 client2.
Proof.
  intros Hp. rewrite !fingerprint_eq.
  destruct (decide (Forall wellFormed (records config1 client1))) as [H1|H1].
  - rewrite decide_True by (by rewrite <- Hp).
    rewrite (crcSort_unique (CRC32.ChecksumIEEE <$> records config1 client1)
               (CRC32.ChecksumIEEE <$> records config2 client2)); [done|].
    by rewrite Hp.
  - rewrite decide_False; [done|]. by rewrite <- Hp.
Qed.

(** C3.  The fingerprint of [fetchClaimMarkers] depends only on the
    multiset of the raw records: two snapshots whose records are a
    permutation of one another have the same fingerprint (or both make the
    fetch panic on a short record), and when every record has its 13 bytes
    the fingerprint is the CRC-32 of the little-endian bytes of the
    per-record CRC-32 values sorted ascending. *)
Theorem fingerprint_order_independent
    (config1 config2 : Configuration) (client1 client2 : Client) :
  records config1 client1 ≡ₚ records config2 client2 →
  fingerprint config1 client1 = fingerprint config2 client2 ∧
  (Forall wellFormed (records config1 client1) →
   ∃ sorted : list Z,
     sorted ≡ₚ (CRC32.ChecksumIEEE <$> records config1 client1) ∧
     StronglySorted Z.le sorted ∧
     fingerprint config1 client1 =
       Some (CRC32.ChecksumIEEE (mjoin (LittleEndian.PutUint32 <$> sorted)))).
Proof.
  intros Hp. split; [by apply fingerprint_perm|].
  intros Hwf.
  exists (insertionSort crcLess (CRC32.ChecksumIEEE <$> records config1 client1)).
  split_and!.
  - apply insertionSort_perm.
  - apply crcSort_ascending.
  - by rewrite fingerprint_eq, decide_True.
Qed.

Lemma samples_permuted :
  records Samples.config_1x2 Samples.snapshot_1 ≡ₚ
  records Samples.config_1x2 Samples.snapshot_2.
Proof.
  change (records Samples.config_1x2 Samples.snapshot_1)
    with [Samples.record_a; Samples.record_c; Samples.record_d].
  change (records Samples.config_1x2 Samples.snapshot_2)
    with [Samples.record_d; Samples.record_c; Samples.record_a].
  apply (Permutation_rev [Samples.record_a; Samples.record_c; Samples.record_d]).
Defined.

Lemma fingerprint_order_independent_witness :
  fingerprint Samples.config_1x2 Samples.snapshot_1 =
  fingerprint Samples.config_1x2 Samples.snapshot_2 ∧
  (Forall wellFormed (records Samples.config_1x2 Samples.snapshot_1) →
   ∃ sorted : list Z,
     sorted ≡ₚ (CRC32.ChecksumIEEE <$> records Samples.config_1x2 Samples.snapshot_1) ∧
     StronglySorted Z.le sorted ∧
     fingerprint Samples.config_1x2 Samples.snapshot_1 =
       Some (CRC32.ChecksumIEEE (mjoin (LittleEndian.PutUint32 <$> sorted)))).
Proof.
  apply (fingerprint_order_independent Samples.config_1x2 Samples.config_1x2).
  apply samples_permuted.
Defined.

Lemma sorted_crcs_range (rs : list (list Byte.byte)) :
  Forall (λ v, 0 ≤ v < 2 ^ 32) (insertionSort crcLess (CRC32.ChecksumIEEE <$> rs)).
Proof.
  rewrite insertionSort_perm. apply Forall_fmap, Forall_true.
  intros r. apply ChecksumIEEE_range.
Qed.

(** C6, as the code has it.  For two snapshots whose records all have
    their 13 bytes, each fingerprint is the CRC-32 of the little-endian
    encoding of the snapshot's per-record CRC-32 values sorted ascending.
    The two fingerprints are equal exactly when the two multisets of
    per-record CRC-32 values are equal or the two encodings, which then
    differ, collide under CRC-32; fingerprints that differ show that the
    multisets of raw records differ.  A change of the snapshot is
    detected up to collisions of CRC-32, no further. *)
Theorem fingerprint_equal_only_by_collision
    (config1 config2 : Configuration) (client1 client2 : Client) :
  Forall wellFormed (records config1 client1) →
  Forall wellFormed (records config2 client2) →
  ∃ sorted1 sorted2 : list Z,
    sorted1 ≡ₚ (CRC32.ChecksumIEEE <$> records config1 client1) ∧
    StronglySorted Z.le sorted1 ∧
    sorted2 ≡ₚ (CRC32.ChecksumIEEE <$> records config2 client2) ∧
    StronglySorted Z.le sorted2 ∧
    fingerprint config1 client1 =
      Some (CRC32.ChecksumIEEE (mjoin (LittleEndian.PutUint32 <$> sorted1))) ∧
    fingerprint config2 client2 =
      Some (CRC32.ChecksumIEEE (mjoin (LittleEndian.PutUint32 <$> sorted2))) ∧
    (fingerprint config1 client1 = fingerprint config2 client2 ↔
       (CRC32.ChecksumIEEE <$> records config1 client1) ≡ₚ
         (CRC32.ChecksumIEEE <$> records config2 client2)
       ∨ (mjoin (LittleEndian.PutUint32 <$> sorted1)
            ≠ mjoin (LittleEndian.PutUint32 <$> sorted2)
          ∧ CRC32.ChecksumIEEE (mjoin (LittleEndian.PutUint32 <$> sorted1)) =
            CRC32.ChecksumIEEE (mjoin (LittleEndian.PutUint32 <$> sorted2)))) ∧
    (fingerprint config1 client1 ≠ fingerprint config2 client2 →
       ¬ records config1 client1 ≡ₚ records config2 client2).
Proof.
  intros Hwf1 Hwf2.
  set (s1 := insertionSort crcLess (CRC32.ChecksumIEEE <$> records config1 client1)).
  set (s2 := insertionSort crcLess (CRC32.ChecksumIEEE <$> records config2 client2)).
  assert (fingerprint config1 client1 =
          Some (CRC32.ChecksumIEEE (mjoin (LittleEndian.PutUint32 <$> s1)))) as Hf1
    by (by rewrite fingerprint_eq, decide_True).
  assert (fingerprint config2 client2 =
          Some (CRC32.ChecksumIEEE (mjoin (LittleEndian.PutUint32 <$> s2)))) as Hf2
    by (by rewrite fingerprint_eq, decide_True).
  exists s1, s2. split_and!.
  - apply insertionSort_perm.
  - apply crcSort_ascending.
  - apply insertionSort_perm.
  - apply crcSort_ascending.
  - done.
  - done.
  - rewrite Hf1, Hf2. split.
    + intros [= Heq].
      destruct (decide (s1 = s2)) as [Hs|Hs].
      * left. rewrite <- (insertionSort_perm crcLess (_ <$> records config1 client1)).
        rewrite <- (insertionSort_perm crcLess (_ <$> records config2 client2)).
        fold s1 s2. by rewrite Hs.
      * right. split; [|done]. intros Henc. apply Hs.
        apply PutUint32_join_inj; [apply sorted_crcs_range..|done].
    + intros [Hp | [_ Heq]].
      * unfold s1, s2. by rewrite (crcSort_unique _ _ Hp).
      * by rewrite Heq.
  - intros Hne Hp. apply Hne. by apply fingerprint_perm.
Qed.

Lemma samples_ab_wellFormed :
  Forall wellFormed (records Samples.config_1x1 Samples.snapshot_a) ∧
  Forall wellFormed (records Samples.config_1x1 Samples.snapshot_b).
Proof.
  split; apply (bool_decide_unpack _); by vm_compute.
Defined.

Lemma fingerprint_equal_only_by_collision_witness :
  ∃ sorted1 sorted2 : list Z,
    sorted1 ≡ₚ (CRC32.ChecksumIEEE <$> records Samples.config_1x1 Samples.snapshot_a) ∧
    StronglySorted Z.le sorted1 ∧
    sorted2 ≡ₚ (CRC32.ChecksumIEEE <$> records Samples.config_1x1 Samples.snapshot_b) ∧
    StronglySorted Z.le sorted2 ∧
    fingerprint Samples.config_1x1 Samples.snapshot_a =
      Some (CRC32.ChecksumIEEE (mjoin (LittleEndian.PutUint32 <$> sorted1))) ∧
    fingerprint Samples.config_1x1 Samples.snapshot_b =
      Some (CRC32.ChecksumIEEE (mjoin (LittleEndian.PutUint32 <$> sorted2))) ∧
    (fingerprint Samples.config_1x1 Samples.snapshot_a =
       fingerprint Samples.config_1x1 Samples.snapshot_b ↔
       (CRC32.ChecksumIEEE <$> records Samples.config_1x1 Samples.snapshot_a) ≡ₚ
         (CRC32.ChecksumIEEE <$> records Samples.config_1x1 Samples.snapshot_b)
       ∨ (mjoin (LittleEndian.PutUint32 <$> sorted1)
            ≠ mjoin (LittleEndian.PutUint32 <$> sorted2)
          ∧ CRC32.ChecksumIEEE (mjoin (LittleEndian.PutUint32 <$> sorted1)) =
            CRC32.ChecksumIEEE (mjoin (LittleEndian.PutUint32 <$> sorted2)))) ∧
    (fingerprint Samples.config_1x1 Samples.snapshot_a ≠
       fingerprint Samples.config_1x1 Samples.snapshot_b →
       ¬ records Samples.config_1x1 Samples.snapshot_a ≡ₚ
           records Samples.config_1x1 Samples.snapshot_b).
Proof.
  apply (fingerprint_equal_only_by_collision
           Samples.config_1x1 Samples.config_1x1 Samples.snapshot_a Samples.snapshot_b).
  - apply samples_ab_wellFormed.
  - apply samples_ab_wellFormed.
Defined.

(** C6 as stated fails: the two snapshots below hold one marker each, at
    the same place and of the same type, for owners 1000060001 and
    8068444704; the two records have the same CRC-32 and the snapshots the
    same fingerprint. *)
Lemma fingerprint_collision :
  records Samples.config_1x1 Samples.snapshot_a = [Samples.record_a] ∧
  records Samples.config_1x1 Samples.snapshot_b = [Samples.record_b] ∧
  tribeOrOwnerID <$> parseRecord 0 0 Samples.record_a = Some 1000060001 ∧
  tribeOrOwnerID <$> parseRecord 0 0 Samples.record_b = Some 8068444704 ∧
  ¬ [Samples.record_a] ≡ₚ [Samples.record_b] ∧
  fingerprint Samples.config_1x1 Samples.snapshot_a = Some 509955975 ∧
  fingerprint Samples.config_1x1 Samples.snapshot_b = Some 509955975.
Proof.
  split_and!; try by vm_compute.
  intros Hp. apply Permutation_singleton_inj in Hp. by vm_compute in Hp.
Qed.

End FetchFacts.

(** ** The background workers skip a cycle whose fingerprint is unchanged *)

Section WorkerFacts.
Context (config : Configuration).
Context (Query : list VirtualBounds → BoundingBox → list VirtualBounds).
Context (rangeIDMap : gmap Z FlagOwnerOutputHeader → list FlagOwnerOutputHeader).
Context (WWWDir : string).

Local Abbreviation tCycle := (tileCycle config Query WWWDir).
Local Abbreviation gCycle := (gameCycle config Query rangeIDMap WWWDir).

Lemma fingerprint_Some client crc :
  Fetch.fingerprint config client = Some crc ↔
  ∃ markers, Fetch.fetchClaimMarkers config client = Some (markers, crc).
Proof.
  unfold Fetch.fingerprint.
  destruct (Fetch.fetchClaimMarkers config client) as [[ms c]|]; simpl; split.
  - intros [= <-]. by exists ms.
  - by intros (ms' & [= _ <-]).
  - done.
  - by intros (ms' & ?).
Qed.

(** Log lines pass no filter that lets no log line through. *)
Lemma filter_logs (P : Event → bool) (ws : list string) (rest : list Event) :
  (∀ msg, P (Log msg) = false) →
  filter (λ e, P e = true) ((Log <$> ws) ++ rest) = filter (λ e, P e = true) rest.
Proof.
  intros HP. induction ws as [|w ws IH]; [done|].
  rewrite fmap_cons. cbn [app].
  by rewrite filter_cons, decide_False by (by rewrite HP).
Qed.

(** The warnings of the fetch write nothing. *)
Lemma writes_warnings (ws : list string) (rest : list Event) :
  writes ((Log <$> ws) ++ rest) = writes rest.
Proof. by apply filter_logs. Qed.

Lemma tileCycle_unchanged client crc :
  Fetch.fingerprint config client = Some crc →
  tCycle client crc =
    Some (crc, Log "Getting markers for tiles" :: (Log <$> Fetch.warnings config client)
               ++ [Log "tile CRCs matched so skipping generation";
                   Sleep (FetchRateInSeconds config)]).
Proof.
  intros (ms & Hf)%fingerprint_Some. unfold tileCycle. rewrite Hf. simpl.
  by rewrite decide_False by (by intros ?).
Qed.

Lemma gameCycle_unchanged client crc :
  Fetch.fingerprint config client = Some crc →
  gCycle client crc =
    Some (crc, Log "Getting markers for game image" :: (Log <$> Fetch.warnings config client)
               ++ [Log "game CRCs matched so skipping generation";
                   Sleep (FetchRateInSeconds config)]).
Proof.
  intros (ms & Hf)%fingerprint_Some. unfold gameCycle. rewrite Hf. simpl.
  by rewrite decide_False by (by intros ?).
Qed.

(** A round that skips writes nothing. *)
Lemma skipped_writes_nothing (first skip : string) (ws : list string) (seconds : Z) :
  writes (Log first :: (Log <$> ws) ++ [Log skip; Sleep seconds]) = [].
Proof.
  unfold writes. rewrite filter_cons, decide_False by done.
  fold (writes ((Log <$> ws) ++ [Log skip; Sleep seconds])).
  by rewrite writes_warnings.
Qed.

(** After a cycle, [previousCrc] is the fingerprint of the snapshot it fetched. *)
Lemma tileCycle_stores client prev prev1 evs :
  tCycle client prev = Some (prev1, evs) →
  Fetch.fingerprint config client = Some prev1.
Proof.
  unfold tileCycle, Fetch.fingerprint.
  destruct (Fetch.fetchClaimMarkers config client) as [[ms c]|]; simpl; [|done].
  case_decide as Hc.
  - destruct (mapM _ _); simpl; [|done]. by intros [= <- _].
  - intros [= <- _]. f_equal. destruct (decide (c = prev)); [done|]. by destruct Hc.
Qed.

Lemma gameCycle_stores client prev prev1 evs :
  gCycle client prev = Some (prev1, evs) →
  Fetch.fingerprint config client = Some prev1.
Proof.
  unfold gameCycle, Fetch.fingerprint.
  destruct (Fetch.fetchClaimMarkers config client) as [[ms c]|]; simpl; [|done].
  case_decide as Hc.
  - destruct (generateGame _ _ _ _ _); simpl; [|done]. by intros [= <- _].
  - intros [= <- _]. f_equal. destruct (decide (c = prev)); [done|]. by destruct Hc.
Qed.

(** C7.  In both worker loops, a cycle whose freshly fetched fingerprint
    equals the stored one generates no tile and encodes no snapshot: it
    only logs and sleeps.  A cycle that follows a completed cycle on the
    same snapshot is such a cycle, whatever was stored before the
    first. *)
Theorem workers_skip_unchanged (client : Fetch.Client) (crc : Z) :
  Fetch.fingerprint config client = Some crc →
  (∃ evs, tCycle client crc = Some (crc, evs) ∧ writes evs = []) ∧
  (∃ evs, gCycle client crc = Some (crc, evs) ∧ writes evs = []) ∧
  (∀ prev prev1 evs1, tCycle client prev = Some (prev1, evs1) →
     ∃ evs2, rounds tCycle [client; client] prev = Some [evs1; evs2] ∧
             writes evs2 = []) ∧
  (∀ prev prev1 evs1, gCycle client prev = Some (prev1, evs1) →
     ∃ evs2, rounds gCycle [client; client] prev = Some [evs1; evs2] ∧
             writes evs2 = []).
Proof.
  intros Hfp. split_and!.
  - eexists. split; [by apply tileCycle_unchanged|apply skipped_writes_nothing].
  - eexists. split; [by apply gameCycle_unchanged|apply skipped_writes_nothing].
  - intros prev prev1 evs1 H1. cbn [rounds]. rewrite H1. cbn [mbind option_bind].
    apply tileCycle_stores in H1.
    rewrite (tileCycle_unchanged _ _ H1). cbn [mbind option_bind].
    eexists. split; [done|apply skipped_writes_nothing].
  - intros prev prev1 evs1 H1. cbn [rounds]. rewrite H1. cbn [mbind option_bind].
    apply gameCycle_stores in H1.
    rewrite (gameCycle_unchanged _ _ H1). cbn [mbind option_bind].
    eexists. split; [done|apply skipped_writes_nothing].
Qed.

End WorkerFacts.

(** A one-cell grid whose only marker is [record_a], with a quad tree that
    answers every query with all its entities. *)
Lemma workers_skip_unchanged_witness :
  (∃ evs, tileCycle Samples.config_1x1 SampleQueries.query_all "www"
            Samples.snapshot_a 509955975 = Some (509955975, evs) ∧ writes evs = []) ∧
  (∃ evs, gameCycle Samples.config_1x1 SampleQueries.query_all SampleQueries.range_by_key "www"
            Samples.snapshot_a 509955975 = Some (509955975, evs) ∧ writes evs = []) ∧
  (∀ prev prev1 evs1,
     tileCycle Samples.config_1x1 SampleQueries.query_all "www"
       Samples.snapshot_a prev = Some (prev1, evs1) →
     ∃ evs2, rounds (tileCycle Samples.config_1x1 SampleQueries.query_all "www")
               [Samples.snapshot_a; Samples.snapshot_a] prev = Some [evs1; evs2] ∧
             writes evs2 = []) ∧
  (∀ prev prev1 evs1,
     gameCycle Samples.config_1x1 SampleQueries.query_all SampleQueries.range_by_key "www"
       Samples.snapshot_a prev = Some (prev1, evs1) →
     ∃ evs2, rounds (gameCycle Samples.config_1x1 SampleQueries.query_all
                       SampleQueries.range_by_key "www")
               [Samples.snapshot_a; Samples.snapshot_a] prev = Some [evs1; evs2] ∧
             writes evs2 = []).
Proof.
  apply (workers_skip_unchanged Samples.config_1x1 SampleQueries.query_all
           SampleQueries.range_by_key "www" Samples.snapshot_a 509955975).
  by vm_compute.
Defined.

(** ** [generateTiles]: the tiles of a zoom level partition the extent *)

Section TileFacts.
Context (config : Configuration).
Context (Query : list VirtualBounds → BoundingBox → list VirtualBounds).

Lemma bind_length_const {A B} (f : A → list B) (l : list A) (n : nat) :
  (∀ x, length (f x) = n) → length (l ≫= f) = (length l * n)%nat.
Proof.
  intros Hf. induction l as [|x l IH]; [done|].
  rewrite bind_cons, length_app, IH, Hf. simpl. lia.
Qed.

Lemma fmap_bind_list {A B C} (g : B → C) (f : A → list B) (l : list A) :
  g <$> (l ≫= f) = l ≫= (λ x, g <$> f x).
Proof.
  induction l as [|x l IH]; [done|].
  by rewrite !bind_cons, fmap_app, IH.
Qed.

Lemma Rect_ordered x0 y0 x1 y1 :
  x0 ≤ x1 → y0 ≤ y1 →
  Rect x0 y0 x1 y1 = {| MinX := x0; MinY := y0; MaxX := x1; MaxY := y1 |}.
Proof. intros Hx Hy. unfold Rect. by rewrite !decide_False by lia. Qed.

(** What the hypotheses of the theorem below give: no shift and no
    product leaves the range of [int]. *)
Section InRange.
Context (z : Z).
Hypothesis Hsize : 0 < TileSize config.
Hypothesis Hzoom : 0 ≤ z < MaxZoom config.
Hypothesis Hfits : virtualExtent config < 2 ^ 63.

Lemma maxZoom_small : MaxZoom config - 1 < 63.
Proof.
  unfold virtualExtent in Hfits.
  apply (Z.pow_lt_mono_r_iff 2); [lia..|].
  assert (0 < 2 ^ (MaxZoom config - 1)) by (apply Z.pow_pos_nonneg; lia).
  nia.
Qed.

Lemma tiles_pos : 0 < 2 ^ z.
Proof. apply Z.pow_pos_nonneg; lia. Qed.

Lemma extent_split :
  virtualExtent config = (TileSize config * 2 ^ (MaxZoom config - 1 - z)) * 2 ^ z.
Proof.
  unfold virtualExtent. rewrite <- Z.mul_assoc, <- Z.pow_add_r by lia.
  do 2 f_equal. lia.
Qed.

Lemma perTile_eq :
  virtualExtent config / 2 ^ z = TileSize config * 2 ^ (MaxZoom config - 1 - z).
Proof.
  rewrite extent_split. apply Z.div_mul. pose proof tiles_pos. lia.
Qed.

Lemma perTile_pos : 0 < virtualExtent config / 2 ^ z.
Proof.
  rewrite perTile_eq.
  assert (0 < 2 ^ (MaxZoom config - 1 - z)) by (apply Z.pow_pos_nonneg; lia).
  nia.
Qed.

Lemma perTile_exact : virtualExtent config / 2 ^ z * 2 ^ z = virtualExtent config.
Proof. rewrite perTile_eq. symmetry. apply extent_split. Qed.

Lemma tiles_lt : 2 ^ z < 2 ^ 63.
Proof. pose proof maxZoom_small. apply Z.pow_lt_mono_r; lia. Qed.

Lemma base_virtualPixels : virtualPixels (tileBaseOptions config) = virtualExtent config.
Proof.
  pose proof maxZoom_small as Hm.
  assert (0 < 2 ^ (MaxZoom config - 1)) as Hp by (apply Z.pow_pos_nonneg; lia).
  assert (2 ^ (MaxZoom config - 1) < 2 ^ 63) as Hp' by (apply Z.pow_lt_mono_r; lia).
  unfold tileBaseOptions, virtualExtent in *. cbn [virtualPixels].
  unfold GoInt.shl64, GoInt.uint64.
  rewrite (wrapU_small 64 (MaxZoom config - 1)) by lia.
  rewrite Z.mul_1_l, (wrapS64_small (2 ^ _)) by lia.
  apply wrapS64_small. nia.
Qed.

Lemma tileOptions_eq tilePath tileX tileY :
  0 ≤ tileX < 2 ^ z → 0 ≤ tileY < 2 ^ z →
  tileOptions config tilePath z (virtualExtent config / 2 ^ z) tileX tileY =
  spec_tile config tilePath z tileX tileY.
Proof.
  intros Hx Hy.
  pose proof perTile_pos as Hv. pose proof perTile_exact as He.
  set (v := virtualExtent config / 2 ^ z) in *.
  assert (tileX * v + v ≤ virtualExtent config) as Hbx by nia.
  assert (tileY * v + v ≤ virtualExtent config) as Hby by nia.
  unfold tileOptions, spec_tile. fold v.
  rewrite base_virtualPixels.
  rewrite (wrapS64_small (tileX * v)), (wrapS64_small (tileY * v)) by nia.
  rewrite (wrapS64_small (tileX * v + v)), (wrapS64_small (tileY * v + v)) by nia.
  rewrite (wrapS64_small (tileX * v + v - 1)), (wrapS64_small (tileY * v + v - 1)) by nia.
  rewrite Rect_ordered by lia. done.
Qed.

Lemma tileCalls_eq tilePath :
  tileCalls config tilePath z =
  Some (tileX ← seqZ 0 (2 ^ z); tileY ← seqZ 0 (2 ^ z);
        [spec_tile config tilePath z tileX tileY]).
Proof.
  pose proof tiles_pos as Ht. pose proof tiles_lt as Ht'.
  pose proof perTile_pos as Hv. pose proof perTile_exact as He.
  unfold tileCalls, GoInt.shl64, GoInt.div64.
  rewrite Z.mul_1_l, (wrapS64_small (2 ^ z)) by lia.
  rewrite decide_False by lia. rewrite base_virtualPixels.
  rewrite Z.quot_div_nonneg by (unfold virtualExtent in *; nia).
  rewrite wrapS64_small by nia.
  simpl. f_equal.
  apply Forall_bind_ext, Forall_forall. intros tileX HtileX%elem_of_seqZ.
  apply Forall_bind_ext, Forall_forall. intros tileY HtileY%elem_of_seqZ.
  f_equal. apply tileOptions_eq; lia.
Qed.

Lemma tiles_count {A} (f : Z → Z → A) :
  Z.of_nat (length (tileX ← seqZ 0 (2 ^ z); tileY ← seqZ 0 (2 ^ z); [f tileX tileY]))
  = 2 ^ z * 2 ^ z.
Proof.
  pose proof tiles_pos.
  rewrite (bind_length_const _ _ (Z.to_nat (2 ^ z))).
  - rewrite length_seqZ. lia.
  - intros x. rewrite (bind_length_const _ _ 1%nat) by done.
    rewrite length_seqZ. lia.
Qed.

(** Every point of the extent is in the clip rectangle of one tile, and
    of no other: the rectangles cover the extent and are disjoint. *)
Lemma tiles_partition tilePath px py :
  0 ≤ px < virtualExtent config → 0 ≤ py < virtualExtent config →
  ∃ tileX tileY,
    (0 ≤ tileX < 2 ^ z ∧ 0 ≤ tileY < 2 ^ z ∧
     insideClip (spec_tile config tilePath z tileX tileY) px py) ∧
    ∀ tx ty, insideClip (spec_tile config tilePath z tx ty) px py →
             tx = tileX ∧ ty = tileY.
Proof.
  intros Hpx Hpy.
  pose proof perTile_pos as Hv. pose proof perTile_exact as He.
  unfold insideClip, spec_tile. cbn.
  set (v := virtualExtent config / 2 ^ z) in *.
  exists (px / v), (py / v).
  pose proof (Z.div_mod px v ltac:(lia)) as Hdx.
  pose proof (Z.mod_pos_bound px v Hv) as Hmx.
  pose proof (Z.div_mod py v ltac:(lia)) as Hdy.
  pose proof (Z.mod_pos_bound py v Hv) as Hmy.
  split.
  - split_and!; nia.
  - intros tx ty [[Hx1 Hx2] [Hy1 Hy2]]. split.
    + apply (Z.div_unique px v tx (px - tx * v)); [left; lia|lia].
    + apply (Z.div_unique py v ty (py - ty * v)); [left; lia|lia].
Qed.

End InRange.

Lemma generateImage_Some opts qt perServer :
  virtualPixelsPerServer config opts = Some perServer →
  ∃ circles, generateImage config Query opts qt = Some (filename opts, circles).
Proof. intros Hp. unfold generateImage. rewrite Hp. simpl. by eexists. Qed.

Lemma mapM_generateImage qt calls :
  Forall (λ opts, is_Some (virtualPixelsPerServer config opts)) calls →
  ∃ images, mapM (λ opts, generateImage config Query opts qt) calls = Some images ∧
            images.*1 = filename <$> calls.
Proof.
  induction 1 as [|opts calls [p Hp] _ (images & Hm & Hn)]; [by exists []|].
  destruct (generateImage_Some opts qt p Hp) as (circles & Hg).
  exists ((filename opts, circles) :: images). split.
  - apply mapM_Some. constructor; [done|]. by apply mapM_Some.
  - by rewrite !fmap_cons, Hn.
Qed.

(** C8.  For a zoom level [z] in [[0, maxZoom)], a positive tile size and
    an extent [tileSize * 2^(maxZoom-1)] that fits an [int]:
    [generateTiles] renders [2^z × 2^z] tiles over the same extent,
    whatever [z]; tile [(tileX, tileY)] has the clip rectangle
    [[tileX*v, tileX*v+v-1] × [tileY*v, tileY*v+v-1]] with
    [v = extent / 2^z]; the rectangles are disjoint and cover the extent;
    every tile is rendered at [tileSize] actual pixels. *)
Theorem generateTiles_partition (tilePath : string) (z : Z) (markers : list Marker) :
  0 < TileSize config →
  0 ≤ z < MaxZoom config →
  virtualExtent config < 2 ^ 63 →
  servers config ≠ 0 →
  tileCalls config tilePath z =
    Some (tileX ← seqZ 0 (2 ^ z); tileY ← seqZ 0 (2 ^ z);
          [spec_tile config tilePath z tileX tileY]) ∧
  (∃ images, generateTiles config Query tilePath z markers = Some images ∧
     images.*1 = (tileX ← seqZ 0 (2 ^ z); tileY ← seqZ 0 (2 ^ z);
                  [TilePng tilePath z tileX tileY]) ∧
     Z.of_nat (length images) = 2 ^ z * 2 ^ z) ∧
  virtualExtent config / 2 ^ z * 2 ^ z = virtualExtent config ∧
  ∀ px py, 0 ≤ px < virtualExtent config → 0 ≤ py < virtualExtent config →
    ∃ tileX tileY,
      (0 ≤ tileX < 2 ^ z ∧ 0 ≤ tileY < 2 ^ z ∧
       insideClip (spec_tile config tilePath z tileX tileY) px py) ∧
      ∀ tx ty, insideClip (spec_tile config tilePath z tx ty) px py →
               tx = tileX ∧ ty = tileY.
Proof.
  intros Hsize Hzoom Hfits Hservers. split_and!.
  - by apply tileCalls_eq.
  - unfold generateTiles, createQuadTree.
    assert (∃ p, virtualPixelsPerServer config (tileBaseOptions config) = Some p)
      as [p Hp].
    { unfold virtualPixelsPerServer, GoInt.div64.
      rewrite decide_False by done. by eexists. }
    rewrite Hp. simpl. rewrite tileCalls_eq by done. simpl.
    assert (Forall (λ opts, is_Some (virtualPixelsPerServer config opts))
              (tileX ← seqZ 0 (2 ^ z); tileY ← seqZ 0 (2 ^ z);
               [spec_tile config tilePath z tileX tileY])) as Hall.
    { apply Forall_forall. intros opts Hin.
      apply list_elem_of_bind in Hin as (tileX & Hin & _).
      apply list_elem_of_bind in Hin as (tileY & Hin & _).
      apply list_elem_of_singleton in Hin as ->.
      unfold virtualPixelsPerServer in *. cbn [spec_tile virtualPixels].
      rewrite <- (base_virtualPixels z) by done. by rewrite Hp. }
    destruct (mapM_generateImage (placeMarker config p <$> markers) _ Hall)
      as (images & Hm & Hn).
    exists images. split; [exact Hm|]. split.
    + rewrite Hn, fmap_bind_list. apply Forall_bind_ext, Forall_true. intros tileX.
      rewrite fmap_bind_list. by apply Forall_bind_ext, Forall_true.
    + rewrite <- (length_fmap fst), Hn, length_fmap. by apply tiles_count.
  - by apply perTile_exact.
  - intros px py. by apply tiles_partition.
Qed.

End TileFacts.

Lemma generateTiles_partition_witness :
  tileCalls defaultConfig "tiles" 2 =
    Some (tileX ← seqZ 0 (2 ^ 2); tileY ← seqZ 0 (2 ^ 2);
          [spec_tile defaultConfig "tiles" 2 tileX tileY]) ∧
  (∃ images, generateTiles defaultConfig SampleQueries.query_all "tiles" 2 [] = Some images ∧
     images.*1 = (tileX ← seqZ 0 (2 ^ 2); tileY ← seqZ 0 (2 ^ 2);
                  [TilePng "tiles" 2 tileX tileY]) ∧
     Z.of_nat (length images) = 2 ^ 2 * 2 ^ 2) ∧
  virtualExtent defaultConfig / 2 ^ 2 * 2 ^ 2 = virtualExtent defaultConfig ∧
  ∀ px py, 0 ≤ px < virtualExtent defaultConfig → 0 ≤ py < virtualExtent defaultConfig →
    ∃ tileX tileY,
      (0 ≤ tileX < 2 ^ 2 ∧ 0 ≤ tileY < 2 ^ 2 ∧
       insideClip (spec_tile defaultConfig "tiles" 2 tileX tileY) px py) ∧
      ∀ tx ty, insideClip (spec_tile defaultConfig "tiles" 2 tx ty) px py →
               tx = tileX ∧ ty = tileY.
Proof.
  apply (generateTiles_partition defaultConfig SampleQueries.query_all "tiles" 2 []).
  - by vm_compute.
  - by vm_compute.
  - by vm_compute.
  - by vm_compute.
Defined.

(** ** [generateCompressedFile]: the claims collected *)

Section AggregateFacts.
Context (opts : MapOptions) (waterRadius : Float64.t).

Lemma addClaim_skip IDMap vb :
  outsideGutter opts waterRadius vb = true → addClaim opts waterRadius IDMap vb = IDMap.
Proof. intros Ho. unfold addClaim. by rewrite Ho. Qed.

(** What the loop body stores for an entity it does not skip. *)
Lemma addClaim_lookup IDMap vb :
  outsideGutter opts waterRadius vb = false →
  ∃ e, addClaim opts waterRadius IDMap vb = <[ownerOf vb := e]> IDMap ∧
       TribeOrPlayerID e =
         TribeOrPlayerID (default {| TribeOrPlayerID := ownerOf vb;
                                     LandClaims := []; WaterClaims := [] |}
                                  (IDMap !! ownerOf vb)).
Proof.
  intros Ho. unfold addClaim. rewrite Ho. fold (ownerOf vb).
  eexists. split; [done|]. by repeat case_decide.
Qed.

Lemma addClaim_keyed IDMap vb :
  keyed IDMap → keyed (addClaim opts waterRadius IDMap vb).
Proof.
  intros Hk. destruct (outsideGutter opts waterRadius vb) eqn:Ho.
  - by rewrite addClaim_skip.
  - destruct (addClaim_lookup IDMap vb Ho) as (e & -> & He).
    intros k e'. rewrite lookup_insert. case_decide as Hkey.
    + intros [= <-]. rewrite He, <- Hkey.
      destruct (IDMap !! ownerOf vb) as [e0|] eqn:H0; simpl; [|done].
      by apply Hk.
    + apply Hk.
Qed.

Lemma addClaim_dom IDMap vb k :
  k ∈ dom (addClaim opts waterRadius IDMap vb) ↔
  k ∈ dom IDMap ∨ (outsideGutter opts waterRadius vb = false ∧ ownerOf vb = k).
Proof.
  destruct (outsideGutter opts waterRadius vb) eqn:Ho.
  - rewrite addClaim_skip by done. naive_solver.
  - destruct (addClaim_lookup IDMap vb Ho) as (e & -> & _).
    rewrite dom_insert_L. set_solver.
Qed.

Lemma fold_addClaim_keyed queried IDMap :
  keyed IDMap → keyed (fold_left (addClaim opts waterRadius) queried IDMap).
Proof.
  revert IDMap. induction queried as [|vb queried IH]; intros IDMap Hk; [done|].
  cbn [fold_left]. by apply IH, addClaim_keyed.
Qed.

Lemma fold_addClaim_dom queried IDMap k :
  k ∈ dom (fold_left (addClaim opts waterRadius) queried IDMap) ↔
  k ∈ dom IDMap ∨ ∃ vb, vb ∈ processed opts waterRadius queried ∧ ownerOf vb = k.
Proof.
  revert IDMap. induction queried as [|vb queried IH]; intros IDMap.
  - cbn [fold_left]. unfold processed. rewrite filter_nil. set_solver.
  - cbn [fold_left]. rewrite IH, addClaim_dom. unfold processed.
    rewrite filter_cons. case_decide as Ho.
    + set_solver.
    + split; [|set_solver]. intros [[?|[? _]]|?]; [by left|done|by right].
Qed.

Lemma aggregate_keyed queried : keyed (aggregate opts waterRadius queried).
Proof. apply fold_addClaim_keyed. intros k e. by rewrite lookup_empty. Qed.

(** One owner per owner id met among the entities that are not skipped. *)
Lemma aggregate_dom queried k :
  k ∈ dom (aggregate opts waterRadius queried) ↔
  ∃ vb, vb ∈ processed opts waterRadius queried ∧ ownerOf vb = k.
Proof. unfold aggregate. rewrite fold_addClaim_dom. set_solver. Qed.

End AggregateFacts.

(** ** [generateCompressedFile]: the bytes written *)

Section WriteFacts.

Lemma fold_writeClaim claims f :
  fold_left writeClaim claims f = f ++ mjoin (SnapshotFormat.claim_bytes <$> claims).
Proof.
  revert f. induction claims as [|e claims IH]; intros f.
  - simpl. by rewrite app_nil_r.
  - cbn [fold_left]. rewrite IH. unfold writeClaim, SnapshotFormat.claim_bytes.
    rewrite fmap_cons. cbn [mjoin list_join]. by rewrite <- !app_assoc.
Qed.

Lemma writeOwner_eq f k : writeOwner f k = f ++ SnapshotFormat.owner_record k.
Proof.
  unfold writeOwner, SnapshotFormat.owner_record.
  rewrite !fold_writeClaim. by rewrite <- !app_assoc.
Qed.

Lemma fold_writeOwner owners f :
  fold_left writeOwner owners f = f ++ mjoin (SnapshotFormat.owner_record <$> owners).
Proof.
  revert f. induction owners as [|k owners IH]; intros f.
  - simpl. by rewrite app_nil_r.
  - cbn [fold_left]. rewrite IH, writeOwner_eq.
    rewrite fmap_cons. cbn [mjoin list_join]. by rewrite <- !app_assoc.
Qed.

Lemma writeFile_eq config opts ranged :
  writeFile config opts (length ranged) ranged =
  SnapshotFormat.snapshot (GoInt.uint16 (actualPixels opts))
    (GoInt.uint16 (GameSize config))
    (insertionSort ByTribeOrPlayerID ranged).
Proof.
  unfold writeFile, SnapshotFormat.snapshot.
  rewrite fold_writeOwner, insertionSort_length.
  unfold FileVerison, CompressionType. by rewrite <- !app_assoc.
Qed.

Lemma ByTribeOrPlayerID_asym a b :
  ByTribeOrPlayerID a b = true → ByTribeOrPlayerID b a = false.
Proof. unfold ByTribeOrPlayerID. repeat case_bool_decide; try done; lia. Qed.

Lemma ByTribeOrPlayerID_notless_trans a b c :
  notless ByTribeOrPlayerID a b → notless ByTribeOrPlayerID b c →
  notless ByTribeOrPlayerID a c.
Proof.
  unfold notless, ByTribeOrPlayerID. repeat case_bool_decide; try done; lia.
Qed.

(** Sorted by [Less] and no id twice: strictly ascending. *)
Lemma sorted_strict (owners : list FlagOwnerOutputHeader) :
  sorted_by ByTribeOrPlayerID owners →
  NoDup (TribeOrPlayerID <$> owners) →
  StronglySorted (λ a b, TribeOrPlayerID a < TribeOrPlayerID b) owners.
Proof.
  unfold sorted_by. induction 1 as [|k owners Hs IH Hk]; intros Hnd; [constructor|].
  rewrite fmap_cons in Hnd. apply NoDup_cons in Hnd as [Hnotin Hnd].
  constructor; [by apply IH|].
  apply Forall_forall. intros e He.
  rewrite Forall_forall in Hk. specialize (Hk e He).
  unfold ByTribeOrPlayerID in Hk. case_bool_decide; [done|].
  assert (TribeOrPlayerID e ≠ TribeOrPlayerID k); [|lia].
  intros Heq. apply Hnotin. rewrite <- Heq. by apply list_elem_of_fmap_2.
Qed.

Lemma keyed_values_ids (IDMap : gmap Z FlagOwnerOutputHeader) :
  keyed IDMap →
  TribeOrPlayerID <$> (map_to_list IDMap).*2 = (map_to_list IDMap).*1.
Proof.
  intros Hk. rewrite <- list_fmap_compose.
  apply list_fmap_ext. intros i [k e] Hi. simpl.
  apply Hk. apply elem_of_map_to_list. by eapply list_elem_of_lookup_2.
Qed.

End WriteFacts.

Section SnapshotFacts.
Context (config : Configuration).
Context (Query : list VirtualBounds → BoundingBox → list VirtualBounds).
Context (rangeIDMap : gmap Z FlagOwnerOutputHeader → list FlagOwnerOutputHeader).

(** C5.  Whatever the order in which the map of owners is ranged, the
    file of [generateCompressedFile] is, little endian throughout: u16
    version 2, u16 flag 1, u16 source resolution, u16 destination
    resolution, u32 owner count, then one record per distinct owner among
    the entities that are not skipped, in strictly ascending owner id, each
    u64 owner id, u32 land count, u32 water count, the land (u16 x, u16 y)
    pairs, the water pairs. *)
Theorem generateCompressedFile_format (opts : MapOptions) (quadTree : list VirtualBounds) :
  (∀ IDMap, rangeIDMap IDMap ≡ₚ (map_to_list IDMap).*2) →
  servers config ≠ 0 →
  ∃ (perServer : Float64.t) (owners : list FlagOwnerOutputHeader),
    virtualPixelsPerServer config opts = Some perServer ∧
    generateCompressedFile config Query rangeIDMap opts quadTree =
      Some (filename opts,
            SnapshotFormat.snapshot (GoInt.uint16 (actualPixels opts))
              (GoInt.uint16 (GameSize config)) owners) ∧
    StronglySorted (λ a b, TribeOrPlayerID a < TribeOrPlayerID b) owners ∧
    owners ≡ₚ (map_to_list
                 (aggregate opts (virtualWaterRadius config perServer)
                    (Query quadTree (qtBB opts)))).*2 ∧
    ∀ id, id ∈ TribeOrPlayerID <$> owners ↔
          ∃ vb, vb ∈ processed opts (virtualWaterRadius config perServer)
                       (Query quadTree (qtBB opts)) ∧
                ownerOf vb = id.
Proof.
  intros Hrange Hservers.
  assert (∃ p, virtualPixelsPerServer config opts = Some p) as [p Hp].
  { unfold virtualPixelsPerServer, GoInt.div64.
    rewrite decide_False by done. by eexists. }
  set (IDMap := aggregate opts (virtualWaterRadius config p) (Query quadTree (qtBB opts))).
  assert (keyed IDMap) as Hk by apply aggregate_keyed.
  exists p, (insertionSort ByTribeOrPlayerID (rangeIDMap IDMap)).
  assert (insertionSort ByTribeOrPlayerID (rangeIDMap IDMap) ≡ₚ (map_to_list IDMap).*2)
    as Hperm by (by rewrite insertionSort_perm).
  split_and!.
  - done.
  - unfold generateCompressedFile. rewrite Hp. simpl. fold IDMap.
    rewrite <- writeFile_eq. do 3 f_equal.
    rewrite (Permutation_length (Hrange IDMap)), length_fmap.
    symmetry. apply length_map_to_list.
  - apply sorted_strict.
    + apply insertionSort_sorted;
        [apply ByTribeOrPlayerID_asym | apply ByTribeOrPlayerID_notless_trans].
    + rewrite Hperm, keyed_values_ids by done. apply NoDup_fst_map_to_list.
  - done.
  - intros id. rewrite Hperm, keyed_values_ids by done.
    rewrite <- aggregate_dom. fold IDMap.
    rewrite elem_of_dom, list_elem_of_fmap. split.
    + intros ([k e] & -> & Hin). apply elem_of_map_to_list in Hin. by eexists.
    + intros [e He]. exists (id, e). split; [done|]. by apply elem_of_map_to_list.
Qed.

End SnapshotFacts.

Lemma range_by_key_perm (IDMap : gmap Z FlagOwnerOutputHeader) :
  SampleQueries.range_by_key IDMap ≡ₚ (map_to_list IDMap).*2.
Proof. done. Defined.

Lemma generateCompressedFile_format_witness :
  ∃ (perServer : Float64.t) (owners : list FlagOwnerOutputHeader),
    virtualPixelsPerServer defaultConfig SampleTiles.tile_2_1_0 = Some perServer ∧
    generateCompressedFile defaultConfig SampleQueries.query_all SampleQueries.range_by_key
        SampleTiles.tile_2_1_0 [SampleTiles.in_left_gutter; SampleTiles.far_right] =
      Some (filename SampleTiles.tile_2_1_0,
            SnapshotFormat.snapshot (GoInt.uint16 (actualPixels SampleTiles.tile_2_1_0))
              (GoInt.uint16 (GameSize defaultConfig)) owners) ∧
    StronglySorted (λ a b, TribeOrPlayerID a < TribeOrPlayerID b) owners ∧
    owners ≡ₚ (map_to_list
                 (aggregate SampleTiles.tile_2_1_0
                    (virtualWaterRadius defaultConfig perServer)
                    (SampleQueries.query_all
                       [SampleTiles.in_left_gutter; SampleTiles.far_right]
                       (qtBB SampleTiles.tile_2_1_0)))).*2 ∧
    ∀ id, id ∈ TribeOrPlayerID <$> owners ↔
          ∃ vb, vb ∈ processed SampleTiles.tile_2_1_0
                       (virtualWaterRadius defaultConfig perServer)
                       (SampleQueries.query_all
                          [SampleTiles.in_left_gutter; SampleTiles.far_right]
                          (qtBB SampleTiles.tile_2_1_0)) ∧
                ownerOf vb = id.
Proof.
  apply (generateCompressedFile_format defaultConfig SampleQueries.query_all
           SampleQueries.range_by_key SampleTiles.tile_2_1_0
           [SampleTiles.in_left_gutter; SampleTiles.far_right]).
  - apply range_by_key_perm.
  - by vm_compute.
Defined.

(** ** Pixel coordinates are converted without a range check *)

Section ConversionFacts.




(** The same in the files written: the pair (65533, 6) of the entity in
    the left gutter, bytes [fd ff 06 00]; and, at a game size of 16384, an
    entity at pixel 79189 stored as 13653, bytes [55 35]. *)
Lemma wrapped_coordinates_in_file :
  snd <$> generateCompressedFile defaultConfig (λ _ _, [SampleTiles.in_left_gutter])
            SampleQueries.range_by_key SampleTiles.tile_2_1_0 [] =
    Some (SnapshotFormat.snapshot 256 2048
            [mkOwner 1000060001 [mkClaim 65533 6] []]) ∧
  Float64.truncate
    (imageX (gameOptions SampleTiles.large_game "game") SampleTiles.far_east) = Some 79189 ∧
  snd <$> generateCompressedFile SampleTiles.large_game (λ _ _, [SampleTiles.far_east])
            SampleQueries.range_by_key (gameOptions SampleTiles.large_game "game") [] =
    Some (SnapshotFormat.snapshot 16384 16384
            [mkOwner 5 [] [mkClaim 13653 333]]).
Proof. split_and!; by vm_compute. Qed.

End ConversionFacts.

(** ** The gutter filter *)

Section GutterFacts.
Import SampleTiles.


(** Where the clip window starts at the origin the two bounds agree: the
    same entity is skipped by tile (0, 0), and by the one window of the
    world snapshot the filter is the expanded window up to its far
    edge. *)
Lemma gutter_filter_at_origin :
  outsideGutter (spec_tile defaultConfig "tiles" 2 0 0) waterRadius far_right = true ∧
  insideExpandedClip (spec_tile defaultConfig "tiles" 2 0 0) waterRadius far_right = false.
Proof. split; by vm_compute. Qed.

(** The part of the claim about seams holds on the samples: the entity 56
    virtual pixels left of the seam at 4096 is processed by tile (0, 0)
    and by tile (1, 0). *)
Lemma gutter_marker_in_both_tiles :
  outsideGutter (spec_tile defaultConfig "tiles" 2 0 0) waterRadius in_left_gutter = false ∧
  outsideGutter tile_2_1_0 waterRadius in_left_gutter = false.
Proof. split; by vm_compute. Qed.

End GutterFacts.

(** ** [parseServerID] *)

Section ParseFacts.
Import LittleEndian.

Lemma take_put k j v : take k (put (k + j) v) = put k v.
Proof.
  revert v. induction k as [|k IH]; intros v; [done|].
  cbn [Nat.add put take]. by rewrite IH.
Qed.

Lemma drop_put k j v : drop k (put (k + j) v) = put j (v ≫ (8 * Z.of_nat k)).
Proof.
  revert v. induction k as [|k IH]; intros v.
  - cbn [Nat.add drop]. by rewrite Z.shiftr_0_r.
  - cbn [Nat.add put drop]. rewrite IH, Z.shiftr_shiftr by lia.
    do 2 f_equal. lia.
Qed.

Lemma Uint16_put2 v : Uint16 (put 2 v) = v mod 2 ^ 16.
Proof.
  unfold Uint16. rewrite (take_put 2 0). by rewrite get_put.
Qed.

Lemma parseLoop_range maxVal cs n v :
  Strconv.parseLoop maxVal cs n = Some v → 0 ≤ n ≤ maxVal → 0 ≤ v ≤ maxVal.
Proof.
  revert n. induction cs as [|c cs IH]; intros n; cbn [Strconv.parseLoop].
  - intros [= <-]. done.
  - unfold Strconv.digit.
    case_decide as Hd; simpl; [|done].
    case_decide as Hmax; [done|].
    intros Hv Hn. eapply IH; [exact Hv|lia].
Qed.

Lemma ParseUint32_range s id :
  Strconv.ParseUint32 s = Some id → 0 ≤ id < 2 ^ 32.
Proof.
  unfold Strconv.ParseUint32.
  destruct (String.list_ascii_of_string s) as [|c cs]; [done|].
  intros Hp. apply parseLoop_range in Hp; lia.
Qed.

(** The two halves of a 32-bit value put together again. *)
Lemma lor_halves id :
  0 ≤ id < 2 ^ 32 → Z.lor ((id ≫ 16) ≪ 16) (id mod 2 ^ 16) = id.
Proof.
  intros Hid. apply Z.bits_inj'. intros i Hi.
  rewrite Z.lor_spec, Z.testbit_mod_pow2 by lia.
  destruct (decide (i < 16)) as [Hlt|Hge].
  - rewrite Z.shiftl_spec_low by lia.
    destruct (Z.ltb_spec i 16); [done|lia].
  - rewrite Z.shiftl_spec, Z.shiftr_spec by lia.
    replace (i - 16 + 16) with i by lia.
    destruct (Z.ltb_spec i 16); [lia|]. by rewrite orb_false_r.
Qed.

Lemma high_bits_zero y i : 0 ≤ y < 2 ^ 16 → 16 ≤ i → Z.testbit y i = false.
Proof.
  intros Hy Hi. rewrite <- (Z.mod_small y (2 ^ 16)) by lia.
  apply Z.mod_pow2_bits_high. lia.
Qed.

Lemma halves_of_lor x y :
  0 ≤ x < 2 ^ 16 → 0 ≤ y < 2 ^ 16 →
  Z.lor (x ≪ 16) y ≫ 16 = x ∧ Z.lor (x ≪ 16) y mod 2 ^ 16 = y.
Proof.
  intros Hx Hy. split.
  - apply Z.bits_inj'. intros i Hi.
    rewrite Z.shiftr_spec, Z.lor_spec, Z.shiftl_spec by lia.
    replace (i + 16 - 16) with i by lia.
    rewrite (high_bits_zero y) by lia. by rewrite orb_false_r.
  - apply Z.bits_inj'. intros i Hi.
    rewrite Z.testbit_mod_pow2, Z.lor_spec by lia.
    destruct (Z.ltb_spec i 16).
    + by rewrite Z.shiftl_spec_low.
    + by rewrite (high_bits_zero y).
Qed.

Lemma unpack_eq id :
  0 ≤ id < 2 ^ 32 →
  (Uint16 (drop 2 (PutUint32 (GoInt.uint32 id))),
   Uint16 (take 2 (PutUint32 (GoInt.uint32 id)))) = (id ≫ 16, id mod 2 ^ 16).
Proof.
  intros Hid. unfold GoInt.uint32, PutUint32. rewrite wrapU_small by done.
  change (put 4 id) with (put (2 + 2) id).
  rewrite (take_put 2 2), (drop_put 2 2), !Uint16_put2.
  f_equal. change (8 * Z.of_nat 2) with 16.
  apply Z.mod_small. split; [apply Z.shiftr_nonneg; lia|].
  rewrite Z.shiftr_div_pow2 by lia. apply Z.div_lt_upper_bound; lia.
Qed.

Lemma parseServerID_eq packed :
  parseServerID packed =
  (λ id, (id ≫ 16, id mod 2 ^ 16)) <$> Strconv.ParseUint32 packed.
Proof.
  unfold parseServerID.
  destruct (Strconv.ParseUint32 packed) as [id|] eqn:Hp; [|done].
  exact (f_equal Some (unpack_eq id (ParseUint32_range _ _ Hp))).
Qed.

(** X1.  [parseServerID] undoes the packing [x<<16|y] of the key of
    [fetchClaimMarkers]: it answers [(x, y)] exactly when both are 16-bit
    values and the string is the decimal numeral of [x<<16|y]; every
    other string is an error. *)
Theorem parseServerID_unpacks (packed : string) (x y : Z) :
  parseServerID packed = Some (x, y) ↔
  0 ≤ x < 2 ^ 16 ∧ 0 ≤ y < 2 ^ 16 ∧
  Strconv.ParseUint32 packed = Some (Z.lor (x ≪ 16) y).
Proof.
  rewrite parseServerID_eq. split.
  - destruct (Strconv.ParseUint32 packed) as [id|] eqn:Hp; simpl; [|done].
    intros [= <- <-]. pose proof (ParseUint32_range _ _ Hp) as Hid.
    split_and!.
    + apply Z.shiftr_nonneg; lia.
    + rewrite Z.shiftr_div_pow2 by lia. apply Z.div_lt_upper_bound; lia.
    + apply Z.mod_pos_bound. lia.
    + apply Z.mod_pos_bound. lia.
    + by rewrite lor_halves.
  - intros (Hx & Hy & ->). simpl.
    destruct (halves_of_lor x y Hx Hy) as (-> & ->). done.
Qed.

(** What [strconv.ParseUint] takes: the empty string, a sign, a letter and
    a value of 2^32 or more are errors; leading zeros are read. *)
Lemma parseServerID_examples :
  parseServerID "196610" = Some (3, 2) ∧
  parseServerID "007" = Some (0, 7) ∧
  parseServerID "4294967295" = Some (65535, 65535) ∧
  parseServerID "4294967296" = None ∧
  parseServerID "" = None ∧
  parseServerID "+1" = None ∧
  parseServerID "12a" = None.
Proof. split_and!; by vm_compute. Qed.

End ParseFacts.

(** ** [getDatabaseByName] and the key prefix *)

Section ConfigFacts.

(** X2.  [getDatabaseByName] answers the first connection of the name
    asked for; when no connection has it, it answers the fallback named
    "not found" on localhost:6379 with an empty password, not an error. *)
Theorem getDatabaseByName_first_or_fallback
    (connections : list RedisConfiguration) (name : string) :
  (∃ before v after,
     connections = before ++ v :: after ∧
     Forall (λ w, Name w ≠ name) before ∧
     Name v = name ∧
     getDatabaseByName connections name = v) ∨
  (Forall (λ w, Name w ≠ name) connections ∧
   getDatabaseByName connections name = notFound).
Proof.
  induction connections as [|v rest IH]; [by right|].
  cbn [getDatabaseByName]. case_decide as Hv.
  - left. exists [], v, rest. by split_and!.
  - destruct IH as [(before & w & after & -> & Hb & Hw & Hg)|[Hall Hg]].
    + left. exists (v :: before), w, after. split_and!; [done| |done..].
      by constructor.
    + right. split; [by constructor|done].
Qed.

Lemma list_ascii_of_string_app (a b : string) :
  String.list_ascii_of_string (a +:+ b) =
  String.list_ascii_of_string a ++ String.list_ascii_of_string b.
Proof. induction a as [|c a IH]; simpl; [done|]. by rewrite IH. Qed.

Lemma HasSuffix_app (a b : string) : HasSuffix (a +:+ b) b = true.
Proof.
  unfold HasSuffix. apply bool_decide_eq_true.
  rewrite list_ascii_of_string_app. by apply suffix_app_r.
Qed.

(** X3.  After [loadConfig] the key prefix is empty or ends with a slash,
    a prefix that already does is left as it is, and the prefix given is
    never shortened. *)
Theorem fixKeyPrefix_slash (prefix : string) :
  (fixKeyPrefix prefix = "" ∨ HasSuffix (fixKeyPrefix prefix) "/" = true) ∧
  fixKeyPrefix (fixKeyPrefix prefix) = fixKeyPrefix prefix ∧
  (fixKeyPrefix prefix = prefix ∨ fixKeyPrefix prefix = prefix +:+ "/").
Proof.
  assert (∀ p, fixKeyPrefix p = "" ∨ HasSuffix (fixKeyPrefix p) "/" = true) as Hinv.
  { intros p. unfold fixKeyPrefix. case_decide as Hlen.
    - destruct (HasSuffix p "/") eqn:Hs; simpl; [by right|].
      right. apply HasSuffix_app.
    - left. destruct p; [done|]. simpl in Hlen. lia. }
  split_and!; [apply Hinv| |].
  - destruct (Hinv prefix) as [He|Hs].
    + by rewrite He.
    + unfold fixKeyPrefix at 1. rewrite Hs. simpl. by case_decide.
  - unfold fixKeyPrefix. case_decide; [|by left].
    destruct (HasSuffix prefix "/"); simpl; [by left|by right].
Qed.

End ConfigFacts.

(** ** [fetchClaimMarkers]: the markers *)

Section MarkerFacts.
Import Fetch.

Lemma mapM_app_Some {A B} (f : A → option B) l1 l2 :
  mapM f (l1 ++ l2) = k1 ← mapM f l1; k2 ← mapM f l2; Some (k1 ++ k2).
Proof.
  induction l1 as [|x l1 IH]; simpl.
  - by destruct (mapM f l2).
  - destruct (f x) as [y|]; simpl; [|done].
    rewrite IH. destruct (mapM f l1); simpl; [|done].
    by destruct (mapM f l2).
Qed.

Lemma mapM_fmap_pre {A B C} (f : B → option C) (g : A → B) l :
  mapM f (g <$> l) = mapM (f ∘ g) l.
Proof.
  apply option_eq. intros k. rewrite !mapM_Some. apply Forall2_fmap_l.
Qed.

(** The two slices after the records of one cell. *)
Lemma fold_addRecord_eq x y rs acc :
  fold_left (addRecord x y) rs acc =
  '(crcs, ms) ← acc;
  ps ← mapM (parseRecord x y) rs;
  Some (crcs ++ (CRC32.ChecksumIEEE <$> rs), ms ++ ps).
Proof.
  revert acc. induction rs as [|r rs IH]; intros acc; cbn [fold_left].
  - destruct acc as [[crcs ms]|]; simpl; [|done]. by rewrite !app_nil_r.
  - rewrite IH. unfold addRecord.
    destruct acc as [[crcs ms]|]; simpl; [|done].
    destruct (parseRecord x y r) as [m|]; simpl; [|done].
    destruct (mapM (parseRecord x y) rs) as [ps|]; simpl; [|done].
    by rewrite <- !app_assoc.
Qed.

Lemma fold_fetchCell_eq client cs acc :
  fold_left (fetchCell client) cs acc =
  '(crcs, ms) ← acc;
  ps ← mapM parseTagged (taggedRecordsOf client cs);
  Some (crcs ++ (CRC32.ChecksumIEEE <$> recordsOf client cs), ms ++ ps).
Proof.
  revert acc. induction cs as [|[x y] cs IH]; intros acc.
  - destruct acc as [[crcs ms]|]; simpl; [|done]. by rewrite !app_nil_r.
  - cbn [fold_left]. rewrite IH.
    change (recordsOf client ((x, y) :: cs))
      with (members client (Z.lor (x ≪ 16) y) ++ recordsOf client cs).
    change (taggedRecordsOf client ((x, y) :: cs))
      with (((λ r, (x, y, r)) <$> members client (Z.lor (x ≪ 16) y))
            ++ taggedRecordsOf client cs).
    rewrite mapM_app_Some, mapM_fmap_pre.
    change (parseTagged ∘ (λ r, (x, y, r))) with (parseRecord x y).
    unfold fetchCell, members.
    destruct (client (Z.lor (x ≪ 16) y)) as [err|results]; simpl.
    + destruct acc as [[crcs ms]|]; simpl; [|done].
      by destruct (mapM parseTagged (taggedRecordsOf client cs)).
    + rewrite fold_addRecord_eq.
      destruct acc as [[crcs ms]|]; simpl; [|done].
      destruct (mapM (parseRecord x y) results) as [ps|]; simpl; [|done].
      destruct (mapM parseTagged (taggedRecordsOf client cs)) as [qs|]; simpl; [|done].
      by rewrite fmap_app, <- !app_assoc.
Qed.

(** [fetchClaimMarkers] in closed form. *)
Lemma fetchClaimMarkers_eq config client :
  fetchClaimMarkers config client =
  ms ← mapM parseTagged (taggedRecords config client);
  Some (ms, hashAll (insertionSort crcLess
                       (CRC32.ChecksumIEEE <$> records config client))).
Proof.
  unfold fetchClaimMarkers. rewrite fold_fetchCell_eq. simpl.
  fold (taggedRecords config client). fold (records config client).
  by destruct (mapM parseTagged (taggedRecords config client)).
Qed.

Lemma taggedRecordsOf_records client cs :
  (λ t : TaggedRecord, t.2) <$> taggedRecordsOf client cs = recordsOf client cs.
Proof.
  induction cs as [|cell cs IH]; [done|].
  unfold taggedRecordsOf, recordsOf in *.
  rewrite !bind_cons, fmap_app, IH. f_equal.
  rewrite <- list_fmap_compose. apply list_fmap_id.
Qed.

Lemma emptyOnError_tagged client cs :
  taggedRecordsOf (emptyOnError client) cs = taggedRecordsOf client cs.
Proof. done. Qed.

Lemma emptyOnError_records client cs :
  recordsOf (emptyOnError client) cs = recordsOf client cs.
Proof. done. Qed.

(** X4.  A cell whose [SMembers] fails is skipped and the fetch goes on:
    markers and fingerprint are those of the snapshot in which the failed
    cells hold no marker at all. *)
Theorem fetchClaimMarkers_error_is_empty (config : Configuration) (client : Client) :
  fetchClaimMarkers config client = fetchClaimMarkers config (emptyOnError client).
Proof.
  rewrite !fetchClaimMarkers_eq. unfold taggedRecords, records.
  by rewrite emptyOnError_tagged, emptyOnError_records.
Qed.

Lemma lor_range n a b :
  0 < n → 0 ≤ a < 2 ^ n → 0 ≤ b < 2 ^ n → 0 ≤ Z.lor a b < 2 ^ n.
Proof.
  intros Hn Ha Hb.
  assert (0 ≤ Z.lor a b) as Hnn by (apply Z.lor_nonneg; lia).
  split; [done|].
  destruct (decide (Z.lor a b = 0)) as [->|Hne]; [lia|].
  apply Z.log2_lt_pow2; [lia|].
  rewrite Z.log2_lor by lia.
  assert (Z.log2 a < n) as Hla.
  { destruct (decide (a = 0)) as [->|]; [simpl; lia|]. apply Z.log2_lt_pow2; lia. }
  assert (Z.log2 b < n) as Hlb.
  { destruct (decide (b = 0)) as [->|]; [simpl; lia|]. apply Z.log2_lt_pow2; lia. }
  lia.
Qed.

Lemma get_range bs : 0 ≤ LittleEndian.get bs < 2 ^ (8 * Z.of_nat (length bs)).
Proof.
  induction bs as [|b bs IH]; [simpl; lia|].
  cbn [LittleEndian.get length].
  replace (8 * Z.of_nat (S (length bs))) with (8 * Z.of_nat (length bs) + 8) by lia.
  pose proof (Z_of_byte_range b) as Hb.
  assert (0 < 2 ^ (8 * Z.of_nat (length bs))) as Hp by (apply Z.pow_pos_nonneg; lia).
  assert (2 ^ (8 * Z.of_nat (length bs) + 8) = 2 ^ (8 * Z.of_nat (length bs)) * 2 ^ 8)
    as Hpow by (apply Z.pow_add_r; lia).
  apply lor_range; [lia|lia|].
  rewrite Z.shiftl_mul_pow2 by lia. nia.
Qed.

Lemma Uint16_range bs : 0 ≤ LittleEndian.Uint16 bs < 2 ^ 16.
Proof.
  unfold LittleEndian.Uint16. pose proof (get_range (take 2 bs)) as Hg.
  assert (length (take 2 bs) ≤ 2)%nat as Hl by (rewrite length_take; lia).
  assert (2 ^ (8 * Z.of_nat (length (take 2 bs))) ≤ 2 ^ 16)
    by (apply Z.pow_le_mono_r; lia).
  lia.
Qed.

Lemma Uint64_range bs : 0 ≤ LittleEndian.Uint64 bs < 2 ^ 64.
Proof.
  unfold LittleEndian.Uint64. pose proof (get_range (take 8 bs)) as Hg.
  assert (length (take 8 bs) ≤ 8)%nat as Hl by (rewrite length_take; lia).
  assert (2 ^ (8 * Z.of_nat (length (take 8 bs))) ≤ 2 ^ 64)
    by (apply Z.pow_le_mono_r; lia).
  lia.
Qed.

(** Every raw coordinate divided by [math.MaxUint16] is in [0, 1]: all
    65536 quotients are computed. *)
Lemma checkUnit_sound fuel from t :
  checkUnit fuel from = true → from ≤ t < from + Z.of_nat fuel →
  unitInterval (PrimFloat.div (Float64.of_int t) (Float64.of_int 65535)) = true.
Proof.
  revert from. induction fuel as [|fuel IH]; intros from; [lia|].
  cbn [checkUnit]. intros [Hhere Hrest]%andb_true_iff Ht.
  destruct (decide (t = from)) as [->|Hne]; [done|].
  apply (IH (from + 1)); [done|lia].
Qed.

Lemma relative_unit t :
  0 ≤ t < 65536 →
  unitInterval (PrimFloat.div (Float64.of_int t) (Float64.of_int 65535)) = true.
Proof.
  intros Ht. apply (checkUnit_sound (Z.to_nat 65536) 0); [by vm_compute|lia].
Qed.

Lemma parseRecord_Some x y r :
  wellFormed r → is_Some (parseRecord x y r).
Proof. unfold parseRecord, wellFormed. intros Hr. case_decide; [lia|by eexists]. Qed.

Lemma parseRecord_None x y r :
  ¬ wellFormed r → parseRecord x y r = None.
Proof. unfold parseRecord, wellFormed. intros Hr. case_decide; [done|lia]. Qed.

Lemma parseRecord_inGrid config x y r m :
  0 ≤ x < ServersX config → 0 ≤ y < ServersY config →
  parseRecord x y r = Some m → markerInGrid config m.
Proof.
  intros Hx Hy. unfold parseRecord. case_decide; [done|].
  intros [= <-]. unfold markerInGrid. cbn.
  split_and!; try lia.
  - apply Uint64_range.
  - apply Uint64_range.
  - apply Z_of_byte_range.
  - apply Z_of_byte_range.
  - apply relative_unit. pose proof (Uint16_range (take 2 (drop 8 r))). lia.
  - apply relative_unit. pose proof (Uint16_range (take 2 (drop 10 r))). lia.
Qed.

Lemma taggedRecords_cell config client t :
  t ∈ taggedRecords config client →
  0 ≤ t.1.1 < ServersX config ∧ 0 ≤ t.1.2 < ServersY config.
Proof.
  unfold taggedRecords, taggedRecordsOf, cells.
  intros ([x y] & Ht & Hc)%list_elem_of_bind.
  apply list_elem_of_fmap in Ht as (r & -> & _).
  apply list_elem_of_bind in Hc as (x' & Hc & Hx%elem_of_seqZ).
  apply list_elem_of_bind in Hc as (y' & Hc & Hy%elem_of_seqZ).
  apply list_elem_of_singleton in Hc as [= -> ->]. simpl. lia.
Qed.

(** X5.  When [fetchClaimMarkers] returns, there is one marker per raw
    record read, and every marker lies in the grid: its cell is a cell of
    the configuration, its owner a 64-bit value, its type a byte, and its
    relative position, [raw / 65535], in [0, 1] on both axes. *)
Theorem fetchClaimMarkers_markers_in_grid
    (config : Configuration) (client : Client) (markers : list Marker) (crc : Z) :
  fetchClaimMarkers config client = Some (markers, crc) →
  length markers = length (records config client) ∧
  Forall (markerInGrid config) markers.
Proof.
  rewrite fetchClaimMarkers_eq.
  destruct (mapM parseTagged (taggedRecords config client)) as [ms|] eqn:Hm;
    simpl; [|done].
  intros [= <- _]. apply mapM_Some in Hm. split.
  - rewrite <- (Forall2_length _ _ _ Hm).
    unfold records. rewrite <- taggedRecordsOf_records. by rewrite length_fmap.
  - apply Forall_forall. intros m Hin.
    apply list_elem_of_lookup in Hin as [i Hi].
    destruct (Forall2_lookup_r _ _ _ _ _ Hm Hi) as (t & Ht & Hp).
    apply list_elem_of_lookup_2 in Ht.
    destruct (taggedRecords_cell _ _ _ Ht) as [Hx Hy].
    by eapply parseRecord_inGrid.
Qed.

Lemma fetchClaimMarkers_markers_in_grid_witness :
  length (default [] (fst <$> fetchClaimMarkers Samples.config_1x2 Samples.snapshot_1)) =
    length (records Samples.config_1x2 Samples.snapshot_1) ∧
  Forall (markerInGrid Samples.config_1x2)
    (default [] (fst <$> fetchClaimMarkers Samples.config_1x2 Samples.snapshot_1)).
Proof.
  apply (fetchClaimMarkers_markers_in_grid Samples.config_1x2 Samples.snapshot_1
           _ 3617925356).
  by vm_compute.
Defined.

(** X6.  [fetchClaimMarkers] panics exactly when one of the records read
    is shorter than 13 bytes ([bytes[12]] is out of range); an empty
    store, a failed cell and records with more than 13 bytes are fine. *)
Theorem fetchClaimMarkers_panics_on_short_record
    (config : Configuration) (client : Client) :
  is_Some (fetchClaimMarkers config client) ↔
  Forall wellFormed (records config client).
Proof.
  rewrite fetchClaimMarkers_eq.
  unfold records. rewrite <- taggedRecordsOf_records. fold (taggedRecords config client).
  rewrite Forall_fmap.
  split.
  - intros [res Hres].
    destruct (mapM parseTagged (taggedRecords config client)) as [ms|] eqn:Hm;
      simpl in Hres; [|done].
    assert (is_Some (mapM parseTagged (taggedRecords config client))) as Hs
      by (by rewrite Hm).
    apply mapM_is_Some in Hs.
    eapply Forall_impl; [exact Hs|].
    intros [[x y] r] Hp. simpl in *.
    destruct (decide (wellFormed r)) as [|Hn]; [done|].
    unfold parseTagged in Hp. simpl in Hp.
    rewrite (parseRecord_None x y r Hn) in Hp. by destruct Hp.
  - intros Hall.
    assert (is_Some (mapM parseTagged (taggedRecords config client))) as [ms Hm].
    { apply mapM_is_Some. eapply Forall_impl; [exact Hall|].
      intros [[x y] r] Hr. by apply parseRecord_Some. }
    rewrite Hm. by eexists.
Qed.

(** X7.  [parseRecord] reads the first 13 bytes of a record and nothing
    else: two records that agree on them give the same marker, whatever
    their reserved bytes and their lengths. *)
Theorem parseRecord_reads_13_bytes (x y : Z) (r1 r2 : list Byte.byte) :
  wellFormed r1 → wellFormed r2 → take 13 r1 = take 13 r2 →
  parseRecord x y r1 = parseRecord x y r2.
Proof.
  assert (∀ r, wellFormed r → parseRecord x y r = parseRecord x y (take 13 r)) as Hcut.
  { intros r Hr. unfold parseRecord, wellFormed in *.
    rewrite length_take.
    rewrite !decide_False by lia.
    rewrite take_take. change (8 `min` 13)%nat with 8%nat.
    rewrite !(take_drop_commute (take 13 r)), !take_take.
    change ((8 + 2) `min` 13)%nat with (8 + 2)%nat.
    change ((10 + 2) `min` 13)%nat with (10 + 2)%nat.
    rewrite <- !take_drop_commute.
    rewrite !nth_lookup, lookup_take_lt by lia. done. }
  intros H1 H2 Heq. by rewrite (Hcut r1), (Hcut r2), Heq.
Qed.

(** The reserved bytes still count for the fingerprint: [record_a] and
    [record_a_reserved] give the same marker and different checksums. *)
Lemma parseRecord_reads_13_bytes_witness :
  parseRecord 0 0 Samples.record_a = parseRecord 0 0 record_a_reserved.
Proof.
  apply parseRecord_reads_13_bytes.
  - unfold wellFormed. vm_compute. lia.
  - unfold wellFormed. vm_compute. lia.
  - by vm_compute.
Defined.

Lemma reserved_bytes_change_checksum :
  CRC32.ChecksumIEEE Samples.record_a ≠ CRC32.ChecksumIEEE record_a_reserved.
Proof. by vm_compute. Qed.

End MarkerFacts.

(** ** The workers over several rounds *)

Section RoundFacts.
Context (config : Configuration).
Context (Query : list VirtualBounds → BoundingBox → list VirtualBounds).
Context (rangeIDMap : gmap Z FlagOwnerOutputHeader → list FlagOwnerOutputHeader).
Context (WWWDir : string).

Local Abbreviation gCycle := (gameCycle config Query rangeIDMap WWWDir).
Local Abbreviation tCycle := (tileCycle config Query WWWDir).

(** One round of the game worker, by cases. *)
Lemma gameCycle_round client prev prev1 evs :
  gCycle client prev = Some (prev1, evs) →
  Fetch.fingerprint config client = Some prev1 ∧
  wrote evs = bool_decide (prev1 ≠ prev) ∧
  publishesInOrder evs.
Proof.
  unfold gameCycle, Fetch.fingerprint.
  destruct (Fetch.fetchClaimMarkers config client) as [[ms c]|]; simpl; [|done].
  case_decide as Hc.
  - destruct (generateGame _ _ _ _ _) as [[file bytes]|]; simpl; [|done].
    intros [= <- <-]. unfold wrote, writes, publishesInOrder.
    rewrite !filter_cons, !decide_False by done. rewrite !filter_logs by done.
    simpl. split_and!; [done| |].
    + by rewrite bool_decide_eq_true_2.
    + right. by exists file, bytes.
  - intros [= <- <-].
    assert (c = prev) as -> by (destruct (decide (c = prev)); [done|by destruct Hc]).
    unfold wrote, writes, publishesInOrder.
    rewrite !filter_cons, !decide_False by done. rewrite !filter_logs by done.
    simpl. split_and!; [done| |by left].
    by rewrite bool_decide_eq_false_2 by (by intros ?).
Qed.

(** X8.  Over any sequence of snapshots the game worker writes
    [world.map] in exactly the rounds whose fingerprint differs from the
    one met in the round before (from the stored value for the first),
    and a round that writes does so once and then updates the urls and
    notifies, in that order; the other rounds publish nothing. *)
Theorem game_worker_writes_on_change
    (snapshots : list Fetch.Client) (previousCrc : Z) (rs : list (list Event)) :
  rounds gCycle snapshots previousCrc = Some rs →
  ∃ fingerprints,
    mapM (Fetch.fingerprint config) snapshots = Some fingerprints ∧
    wrote <$> rs = changes previousCrc fingerprints ∧
    Forall publishesInOrder rs.
Proof.
  revert previousCrc rs.
  induction snapshots as [|client snapshots IH]; intros prev rs; cbn [rounds].
  - intros [= <-]. by exists [].
  - destruct (gCycle client prev) as [[prev1 evs]|] eqn:Hc; simpl; [|done].
    destruct (rounds gCycle snapshots prev1) as [rest|] eqn:Hr; simpl; [|done].
    intros [= <-].
    destruct (gameCycle_round _ _ _ _ Hc) as (Hfp & Hw & Hp).
    destruct (IH _ _ Hr) as (fps & Hfps & Hch & Hall).
    exists (prev1 :: fps). split_and!.
    + rewrite Hfp. simpl. by rewrite Hfps.
    + rewrite fmap_cons. cbn [changes]. by rewrite Hw, Hch.
    + by constructor.
Qed.

End RoundFacts.

Lemma game_worker_writes_on_change_witness :
  ∃ fingerprints,
    mapM (Fetch.fingerprint Samples.config_1x1)
      [Samples.snapshot_a; Samples.snapshot_a; Samples.snapshot_1; Samples.snapshot_a]
      = Some fingerprints ∧
    wrote <$> default []
      (rounds (gameCycle Samples.config_1x1 SampleQueries.query_all
                 SampleQueries.range_by_key "www")
         [Samples.snapshot_a; Samples.snapshot_a; Samples.snapshot_1; Samples.snapshot_a] 1)
      = changes 1 fingerprints ∧
    Forall publishesInOrder
      (default []
         (rounds (gameCycle Samples.config_1x1 SampleQueries.query_all
                    SampleQueries.range_by_key "www")
            [Samples.snapshot_a; Samples.snapshot_a; Samples.snapshot_1; Samples.snapshot_a]
            1)).
Proof.
  apply (game_worker_writes_on_change Samples.config_1x1 SampleQueries.query_all
           SampleQueries.range_by_key "www"
           [Samples.snapshot_a; Samples.snapshot_a; Samples.snapshot_1; Samples.snapshot_a] 1).
  by vm_compute.
Defined.

(** ** Configurations that make generation panic *)


Section PanicFacts.
Context (config : Configuration).
Context (Query : list VirtualBounds → BoundingBox → list VirtualBounds).
Context (rangeIDMap : gmap Z FlagOwnerOutputHeader → list FlagOwnerOutputHeader).







Lemma shl64_overflow z : 64 ≤ z → GoInt.shl64 1 z = 0.
Proof.
  intros Hz. unfold GoInt.shl64, GoInt.wrapS64. rewrite Z.mul_1_l.
  replace z with (64 + (z - 64)) by lia.
  rewrite Z.pow_add_r by lia.
  rewrite Z.add_comm, Z.mul_comm, Z.mod_add by lia. done.
Qed.

(** X10.  [generateTiles] cannot render a zoom level of 64 or more:
    [1 << zoomLevel] is 0 and the division by it panics; at zoom level
    63 the shift gives [-2^63] and no tile is rendered at all. *)
Theorem generateTiles_zoom_overflow
    (tilePath : string) (z : Z) (markers : list Marker) :
  (64 ≤ z → tileCalls config tilePath z = None ∧
            generateTiles config Query tilePath z markers = None) ∧
  tileCalls config tilePath 63 = Some [].
Proof.
  split.
  - intros Hz.
    assert (tileCalls config tilePath z = None) as Hc.
    { unfold tileCalls, GoInt.div64. rewrite shl64_overflow by done.
      by rewrite decide_True. }
    split; [done|]. unfold generateTiles. rewrite Hc.
    by destruct (createQuadTree _ _ _).
  - unfold tileCalls, GoInt.div64.
    change (GoInt.shl64 1 63) with (- 2 ^ 63).
    rewrite decide_False by done. done.
Qed.

End PanicFacts.


(** ** [generateCompressedFile]: what an owner's record holds *)

Section OwnerFacts.
Context (opts : MapOptions) (waterRadius : Float64.t).

Lemma claimsOf_nil owner type : claimsOf opts owner type [] = [].
Proof. done. Qed.

Lemma claimsOf_cons_other owner type vb entities :
  ownerOf vb ≠ owner →
  claimsOf opts owner type (vb :: entities) = claimsOf opts owner type entities.
Proof.
  intros Hne. unfold claimsOf. rewrite filter_cons.
  by rewrite decide_False by (by intros [? _]).
Qed.

Lemma claimsOf_cons_type type vb entities :
  claimsOf opts (ownerOf vb) type (vb :: entities) =
  if decide (markerType (vbMarker vb) = type)
  then claimOf opts vb :: claimsOf opts (ownerOf vb) type entities
  else claimsOf opts (ownerOf vb) type entities.
Proof.
  unfold claimsOf. rewrite filter_cons.
  destruct (decide (markerType (vbMarker vb) = type)) as [Ht|Ht].
  - by rewrite decide_True by (by split).
  - by rewrite decide_False by (by intros [_ ?]).
Qed.

Lemma processed_cons vb queried :
  processed opts waterRadius (vb :: queried) =
  if outsideGutter opts waterRadius vb then processed opts waterRadius queried
  else vb :: processed opts waterRadius queried.
Proof.
  unfold processed. rewrite filter_cons.
  destruct (outsideGutter opts waterRadius vb); by case_decide.
Qed.

(** The record that [addClaim] stores for an entity it does not skip. *)
Lemma addClaim_entry IDMap vb :
  outsideGutter opts waterRadius vb = false →
  addClaim opts waterRadius IDMap vb =
  <[ownerOf vb :=
      let before := default (mkOwner (ownerOf vb) [] []) (IDMap !! ownerOf vb) in
      mkOwner (TribeOrPlayerID before)
        (LandClaims before ++ claimsOf opts (ownerOf vb) 0 [vb])
        (WaterClaims before ++ claimsOf opts (ownerOf vb) 1 [vb])]> IDMap.
Proof.
  intros Ho. unfold addClaim. rewrite Ho. fold (ownerOf vb). f_equal.
  rewrite !claimsOf_cons_type, !claimsOf_nil. fold (claimOf opts vb).
  destruct (default _ _) as [i l w]. simpl.
  repeat case_decide; try lia; by rewrite ?app_nil_r.
Qed.

Lemma fold_addClaim_lookup queried IDMap owner :
  fold_left (addClaim opts waterRadius) queried IDMap !! owner =
  match IDMap !! owner with
  | Some e =>
      Some (mkOwner (TribeOrPlayerID e)
              (LandClaims e ++ claimsOf opts owner 0 (processed opts waterRadius queried))
              (WaterClaims e ++ claimsOf opts owner 1 (processed opts waterRadius queried)))
  | None =>
      if decide (owner ∈ ownerOf <$> processed opts waterRadius queried)
      then Some (mkOwner owner
                   (claimsOf opts owner 0 (processed opts waterRadius queried))
                   (claimsOf opts owner 1 (processed opts waterRadius queried)))
      else None
  end.
Proof.
  revert IDMap. induction queried as [|vb queried IH]; intros IDMap.
  - cbn [fold_left]. unfold processed, claimsOf. rewrite !filter_nil. simpl.
    destruct (IDMap !! owner) as [[i l w]|]; simpl.
    + by rewrite !app_nil_r.
    + done.
  - cbn [fold_left]. rewrite IH, processed_cons.
    destruct (outsideGutter opts waterRadius vb) eqn:Ho.
    { by rewrite addClaim_skip. }
    rewrite addClaim_entry by done.
    destruct (decide (ownerOf vb = owner)) as [<-|Hne].
    + rewrite lookup_insert_eq. cbn zeta.
      rewrite !claimsOf_cons_type, !claimsOf_nil.
      destruct (IDMap !! ownerOf vb) as [[i l w]|]; simpl.
      * repeat case_decide; by rewrite <- ?app_assoc, ?app_nil_r.
      * destruct (decide (ownerOf vb ∈ _ :: _)) as [_|[]];
          [|apply elem_of_cons; by left].
        repeat case_decide; done.
    + rewrite lookup_insert_ne by done.
      rewrite !claimsOf_cons_other by done.
      destruct (IDMap !! owner) as [e|]; [done|].
      rewrite fmap_cons.
      destruct (decide (owner ∈ ownerOf <$> processed opts waterRadius queried))
        as [Hin|Hnin].
      * by rewrite decide_True by (by right).
      * rewrite decide_False; [done|].
        intros [?|?]%elem_of_cons; [by apply Hne|by apply Hnin].
Qed.

(** X11.  After the loop of [generateCompressedFile] the map holds a
    record for an owner exactly when one of the entities that were not
    skipped is his; the record carries his id, his land claims are the
    converted positions of his entities of type 0 in the order of the
    query result, one each, and his water claims those of type 1.  An
    entity of any other type still gives its owner a record and adds no
    claim to it. *)
Theorem aggregate_per_owner (queried : list VirtualBounds) (owner : Z) :
  aggregate opts waterRadius queried !! owner =
  if decide (owner ∈ ownerOf <$> processed opts waterRadius queried)
  then Some (mkOwner owner
               (claimsOf opts owner 0 (processed opts waterRadius queried))
               (claimsOf opts owner 1 (processed opts waterRadius queried)))
  else None.
Proof.
  unfold aggregate. rewrite fold_addClaim_lookup. by rewrite lookup_empty.
Qed.

End OwnerFacts.

(** ** [generateCompressedFile]: the file loses nothing *)

Section FieldFacts.
Import LittleEndian.

Lemma put_app_inj k v1 v2 r1 r2 :
  put k v1 ++ r1 = put k v2 ++ r2 →
  v1 mod 2 ^ (8 * Z.of_nat k) = v2 mod 2 ^ (8 * Z.of_nat k) ∧ r1 = r2.
Proof.
  intros Heq. apply app_inj_1 in Heq as [Hv Hr]; [|by rewrite !put_length].
  split; [|done]. by rewrite <- !get_put, Hv.
Qed.

Lemma PutUint16_app_inj v1 v2 r1 r2 :
  0 ≤ v1 < 2 ^ 16 → 0 ≤ v2 < 2 ^ 16 →
  PutUint16 v1 ++ r1 = PutUint16 v2 ++ r2 → v1 = v2 ∧ r1 = r2.
Proof.
  intros H1 H2 [Hv Hr]%put_app_inj. split; [|done].
  change (8 * Z.of_nat 2) with 16 in Hv. by rewrite !Z.mod_small in Hv.
Qed.

Lemma PutUint32_app_inj v1 v2 r1 r2 :
  0 ≤ v1 < 2 ^ 32 → 0 ≤ v2 < 2 ^ 32 →
  PutUint32 v1 ++ r1 = PutUint32 v2 ++ r2 → v1 = v2 ∧ r1 = r2.
Proof.
  intros H1 H2 [Hv Hr]%put_app_inj. split; [|done].
  change (8 * Z.of_nat 4) with 32 in Hv. by rewrite !Z.mod_small in Hv.
Qed.

Lemma PutUint64_app_inj v1 v2 r1 r2 :
  0 ≤ v1 < 2 ^ 64 → 0 ≤ v2 < 2 ^ 64 →
  PutUint64 v1 ++ r1 = PutUint64 v2 ++ r2 → v1 = v2 ∧ r1 = r2.
Proof.
  intros H1 H2 [Hv Hr]%put_app_inj. split; [|done].
  change (8 * Z.of_nat 8) with 64 in Hv. by rewrite !Z.mod_small in Hv.
Qed.

(** A count that fits is written as it is. *)
Lemma count_app_inj (n1 n2 : nat) r1 r2 :
  Z.of_nat n1 < 2 ^ 32 → Z.of_nat n2 < 2 ^ 32 →
  PutUint32 (GoInt.uint32 (Z.of_nat n1)) ++ r1 =
  PutUint32 (GoInt.uint32 (Z.of_nat n2)) ++ r2 →
  n1 = n2 ∧ r1 = r2.
Proof.
  intros H1 H2. unfold GoInt.uint32. rewrite !wrapU_small by lia.
  intros [Hn Hr]%PutUint32_app_inj; [|lia..]. split; [lia|done].
Qed.

Lemma claims_app_inj (l1 l2 : list ClaimFlagOutputEntry) r1 r2 :
  length l1 = length l2 → Forall claimFits l1 → Forall claimFits l2 →
  mjoin (SnapshotFormat.claim_bytes <$> l1) ++ r1 =
  mjoin (SnapshotFormat.claim_bytes <$> l2) ++ r2 →
  l1 = l2 ∧ r1 = r2.
Proof.
  revert l2. induction l1 as [|[x1 y1] l1 IH]; intros [|[x2 y2] l2] Hlen F1 F2 Heq;
    try done.
  apply Forall_cons in F1 as [[Hx1 Hy1] F1]. apply Forall_cons in F2 as [[Hx2 Hy2] F2].
  simpl in Hx1, Hy1, Hx2, Hy2.
  rewrite !fmap_cons in Heq. cbn [mjoin list_join] in Heq.
  unfold SnapshotFormat.claim_bytes at 1 3 in Heq. cbn [X Y] in Heq.
  rewrite <- !app_assoc in Heq.
  apply PutUint16_app_inj in Heq as [-> Heq]; [|done..].
  apply PutUint16_app_inj in Heq as [-> Heq]; [|done..].
  apply IH in Heq as [-> ->]; [done| |done..]. by injection Hlen.
Qed.

Lemma owner_app_inj (k1 k2 : FlagOwnerOutputHeader) r1 r2 :
  ownerFits k1 → ownerFits k2 →
  SnapshotFormat.owner_record k1 ++ r1 = SnapshotFormat.owner_record k2 ++ r2 →
  k1 = k2 ∧ r1 = r2.
Proof.
  destruct k1 as [i1 l1 w1], k2 as [i2 l2 w2].
  intros (Hi1 & Hl1 & Hw1 & Fl1 & Fw1) (Hi2 & Hl2 & Hw2 & Fl2 & Fw2) Heq.
  simpl in *. unfold SnapshotFormat.owner_record in Heq. simpl in Heq.
  rewrite <- !app_assoc in Heq.
  apply PutUint64_app_inj in Heq as [-> Heq]; [|done..].
  apply count_app_inj in Heq as [Hl Heq]; [|done..].
  apply count_app_inj in Heq as [Hw Heq]; [|done..].
  apply claims_app_inj in Heq as [-> Heq]; [|done..].
  apply claims_app_inj in Heq as [-> ->]; [|done..].
  done.
Qed.

Lemma owners_app_inj (o1 o2 : list FlagOwnerOutputHeader) r1 r2 :
  length o1 = length o2 → Forall ownerFits o1 → Forall ownerFits o2 →
  mjoin (SnapshotFormat.owner_record <$> o1) ++ r1 =
  mjoin (SnapshotFormat.owner_record <$> o2) ++ r2 →
  o1 = o2 ∧ r1 = r2.
Proof.
  revert o2. induction o1 as [|k1 o1 IH]; intros [|k2 o2] Hlen F1 F2 Heq; try done.
  apply Forall_cons in F1 as [Hk1 F1]. apply Forall_cons in F2 as [Hk2 F2].
  rewrite !fmap_cons in Heq. cbn [mjoin list_join] in Heq.
  rewrite <- !app_assoc in Heq.
  apply owner_app_inj in Heq as [-> Heq]; [|done..].
  apply IH in Heq as [-> ->]; [done| |done..]. by injection Hlen.
Qed.

(** Two files of owners that fit are equal only when the owners are. *)
Lemma snapshot_inj src dst (o1 o2 : list FlagOwnerOutputHeader) :
  Z.of_nat (length o1) < 2 ^ 32 → Z.of_nat (length o2) < 2 ^ 32 →
  Forall ownerFits o1 → Forall ownerFits o2 →
  SnapshotFormat.snapshot src dst o1 = SnapshotFormat.snapshot src dst o2 →
  o1 = o2.
Proof.
  intros H1 H2 F1 F2 Heq. unfold SnapshotFormat.snapshot in Heq.
  do 4 apply app_inv_head in Heq.
  apply count_app_inj in Heq as [Hlen Heq]; [|done..].
  rewrite <- (app_nil_r (mjoin (_ <$> o1))), <- (app_nil_r (mjoin (_ <$> o2))) in Heq.
  by apply owners_app_inj in Heq as [-> _].
Qed.

End FieldFacts.

Section LosslessFacts.
Context (config : Configuration).
Context (Query : list VirtualBounds → BoundingBox → list VirtualBounds).
Context (rangeIDMap : gmap Z FlagOwnerOutputHeader → list FlagOwnerOutputHeader).

Lemma claimOf_fits opts vb : claimFits (claimOf opts vb).
Proof.
  split; simpl; unfold Float64.to_uint16, GoInt.uint16; by apply wrapU_range.
Qed.

Lemma claimsOf_fits opts owner type entities :
  Forall claimFits (claimsOf opts owner type entities).
Proof.
  unfold claimsOf. apply Forall_fmap, Forall_true. intros vb. apply claimOf_fits.
Qed.

Lemma claimsOf_length opts wr owner type queried :
  (length (claimsOf opts owner type (processed opts wr queried)) ≤ length queried)%nat.
Proof.
  unfold claimsOf, processed. rewrite length_fmap.
  etrans; apply length_filter.
Qed.

Lemma aggregate_fits opts wr queried k e :
  queryFits queried → aggregate opts wr queried !! k = Some e → ownerFits e.
Proof.
  intros [Hlen Hown]. unfold aggregate.
  rewrite fold_addClaim_lookup, lookup_empty.
  case_decide as Hin; [|done]. intros [= <-].
  pose proof (claimsOf_length opts wr k 0 queried).
  pose proof (claimsOf_length opts wr k 1 queried).
  assert (0 ≤ k < 2 ^ 64) as Hk.
  { apply list_elem_of_fmap in Hin as (vb & -> & Hvb).
    apply list_elem_of_filter in Hvb as [_ Hvb].
    by apply (proj1 (Forall_forall _ _) Hown). }
  repeat split; cbn [TribeOrPlayerID LandClaims WaterClaims];
    try lia; apply claimsOf_fits.
Qed.

Lemma fold_addClaim_size opts wr queried IDMap :
  (size (fold_left (addClaim opts wr) queried IDMap) ≤ size IDMap + length queried)%nat.
Proof.
  revert IDMap. induction queried as [|vb queried IH]; intros IDMap.
  - simpl. lia.
  - cbn [fold_left length]. etrans; [apply IH|].
    destruct (outsideGutter opts wr vb) eqn:Ho.
    + rewrite addClaim_skip by done. lia.
    + rewrite addClaim_entry by done. rewrite map_size_insert.
      destruct (IDMap !! ownerOf vb); unfold id; lia.
Qed.

Lemma aggregate_size opts wr queried :
  (size (aggregate opts wr queried) ≤ length queried)%nat.
Proof.
  unfold aggregate. etrans; [apply fold_addClaim_size|]. by rewrite map_size_empty.
Qed.

(** A map whose records carry their keys is known by its records. *)
Lemma keyed_values_eq (m1 m2 : gmap Z FlagOwnerOutputHeader) :
  keyed m1 → keyed m2 → (map_to_list m1).*2 ≡ₚ (map_to_list m2).*2 → m1 = m2.
Proof.
  assert (∀ m : gmap Z FlagOwnerOutputHeader, keyed m →
            ∀ k e, m !! k = Some e ↔ e ∈ (map_to_list m).*2 ∧ TribeOrPlayerID e = k)
    as Hlookup.
  { intros m Hk k e. split.
    - intros He. split; [|by apply Hk].
      apply list_elem_of_fmap. exists (k, e). split; [done|].
      by apply elem_of_map_to_list.
    - intros [([k' e'] & -> & Hin)%list_elem_of_fmap <-].
      apply elem_of_map_to_list in Hin. simpl.
      by rewrite (Hk _ _ Hin). }
  intros Hk1 Hk2 Hperm. apply map_eq. intros k. apply option_eq. intros e.
  rewrite !Hlookup by done. by rewrite Hperm.
Qed.

(** X12.  The file of [generateCompressedFile] loses nothing of the map
    it is written from: for query results of fewer than [2^32] entities
    with 64-bit owner ids, two results that give the same file have given
    the same owners with the same land and water claims; no count wraps
    and no record runs into the next. *)
Theorem generateCompressedFile_determines_claims
    (opts : MapOptions) (quadTree1 quadTree2 : list VirtualBounds) :
  (∀ IDMap, rangeIDMap IDMap ≡ₚ (map_to_list IDMap).*2) →
  servers config ≠ 0 →
  queryFits (Query quadTree1 (qtBB opts)) →
  queryFits (Query quadTree2 (qtBB opts)) →
  generateCompressedFile config Query rangeIDMap opts quadTree1 =
  generateCompressedFile config Query rangeIDMap opts quadTree2 →
  ∃ perServer,
    virtualPixelsPerServer config opts = Some perServer ∧
    aggregate opts (virtualWaterRadius config perServer) (Query quadTree1 (qtBB opts)) =
    aggregate opts (virtualWaterRadius config perServer) (Query quadTree2 (qtBB opts)).
Proof.
  intros Hrange Hservers Hq1 Hq2 Heq.
  assert (∃ p, virtualPixelsPerServer config opts = Some p) as [p Hp].
  { unfold virtualPixelsPerServer, GoInt.div64.
    rewrite decide_False by done. by eexists. }
  exists p. split; [done|].
  unfold generateCompressedFile in Heq. rewrite Hp in Heq. simpl in Heq.
  set (wr := virtualWaterRadius config p) in *.
  assert (∀ queried, length (rangeIDMap (aggregate opts wr queried)) =
                     size (aggregate opts wr queried)) as Hsize.
  { intros queried. rewrite (Permutation_length (Hrange _)), length_fmap.
    apply length_map_to_list. }
  assert (∀ queried, queryFits queried →
            Forall ownerFits (insertionSort ByTribeOrPlayerID
                                (rangeIDMap (aggregate opts wr queried)))) as Hfits.
  { intros queried Hq. rewrite insertionSort_perm, Hrange.
    apply Forall_forall. intros e ([k e'] & -> & Hin)%list_elem_of_fmap.
    apply elem_of_map_to_list in Hin. by eapply aggregate_fits. }
  assert (∀ queried, queryFits queried →
            Z.of_nat (length (insertionSort ByTribeOrPlayerID
                                (rangeIDMap (aggregate opts wr queried)))) < 2 ^ 32)
    as Hcount.
  { intros queried [Hlen _]. rewrite insertionSort_length, Hsize.
    pose proof (aggregate_size opts wr queried). lia. }
  injection Heq as Heq.
  rewrite <- !Hsize, !writeFile_eq in Heq.
  apply snapshot_inj in Heq; [|by (apply Hcount || apply Hfits)..].
  apply keyed_values_eq; [apply aggregate_keyed..|].
  rewrite <- !Hrange.
  rewrite <- (insertionSort_perm ByTribeOrPlayerID (rangeIDMap (aggregate _ _ (Query quadTree1 _)))).
  rewrite <- (insertionSort_perm ByTribeOrPlayerID (rangeIDMap (aggregate _ _ (Query quadTree2 _)))).
  by rewrite Heq.
Qed.

End LosslessFacts.

Lemma generateCompressedFile_determines_claims_witness :
  ∃ perServer,
    virtualPixelsPerServer defaultConfig SampleTiles.tile_2_1_0 = Some perServer ∧
    aggregate SampleTiles.tile_2_1_0 (virtualWaterRadius defaultConfig perServer)
      (SampleQueries.query_all [entity_a; entity_b] (qtBB SampleTiles.tile_2_1_0)) =
    aggregate SampleTiles.tile_2_1_0 (virtualWaterRadius defaultConfig perServer)
      (SampleQueries.query_all [entity_b; entity_a] (qtBB SampleTiles.tile_2_1_0)).
Proof.
  apply (generateCompressedFile_determines_claims defaultConfig SampleQueries.query_all
           SampleQueries.range_by_key SampleTiles.tile_2_1_0
           [entity_a; entity_b] [entity_b; entity_a]).
  - apply range_by_key_perm.
  - by vm_compute.
  - split; [by vm_compute|]. repeat constructor; by vm_compute.
  - split; [by vm_compute|]. repeat constructor; by vm_compute.
  - by vm_compute.
Defined.

(** ** [generateImage]: the circles drawn *)

Section CircleFacts.
Context (config : Configuration).
Context (Query : list VirtualBounds → BoundingBox → list VirtualBounds).

(** The clamp [if iRadius < 1 { iRadius = 1.0 }]. *)
Lemma imageRadius_clamped opts perServer vb :
  (imageRadius config opts perServer vb <? 1)%float = false.
Proof.
  unfold imageRadius.
  set (iRadius := if decide (markerType (vbMarker vb) = 0) then _ else _).
  by destruct (iRadius <? 1)%float eqn:Hlt.
Qed.

(** Every colour handed out is opaque, and black is kept for owner 0. *)
Lemma getTribeColor_opaque tribeID :
  Color.A (Color.getTribeColor tribeID) = 255 ∧
  (Color.getTribeColor tribeID = Color.black ↔ tribeID = 0).
Proof.
  unfold Color.getTribeColor.
  case_decide as H0; [by subst|].
  destruct (Color.isTribeID tribeID); cbn [negb].
  - change (Z.of_nat (length Color.colors)) with 4.
    pose proof (Z.mod_pos_bound tribeID 4 ltac:(lia)) as Hidx.
    rewrite palette_lookup by done.
    assert (tribeID mod 4 = 0 ∨ tribeID mod 4 = 1 ∨ tribeID mod 4 = 2 ∨ tribeID mod 4 = 3)
      as Hc by lia.
    destruct Hc as [-> | [-> | [-> | ->]]]; by split.
  - by split.
Qed.

Lemma drawn_circles opts perServer (queried : list VirtualBounds) :
  Forall2
    (λ vb c,
       cX c = imageX opts vb ∧ cY c = imageY opts vb
       ∧ (cRadius c <? 1)%float = false
       ∧ Color.A (cColor c) = 255
       ∧ (cColor c = Color.black ↔ ownerOf vb = 0))
    (processed opts (virtualWaterRadius config perServer) queried)
    (omap (λ vb,
             if outsideGutter opts (virtualWaterRadius config perServer) vb then None
             else Some {| cX := imageX opts vb; cY := imageY opts vb;
                          cRadius := imageRadius config opts perServer vb;
                          cColor := Color.getTribeColor (tribeOrOwnerID (vbMarker vb)) |})
          queried).
Proof.
  induction queried as [|vb queried IH]; [constructor|].
  rewrite processed_cons. cbn [omap list_omap].
  destruct (outsideGutter opts _ vb); [done|].
  constructor; [|done]. cbn [cX cY cRadius cColor].
  split_and!; [done|done|apply imageRadius_clamped|apply getTribeColor_opaque..].
Qed.

(** X13.  [generateImage] draws one circle for every entity of the query
    result that the gutter filter lets through, in the order of the
    result and at the entity's position in image coordinates; no circle
    has a radius below one pixel, every colour is opaque, and black
    stands for owner 0 alone. *)
Theorem generateImage_circles
    (opts : MapOptions) (quadTree : list VirtualBounds)
    (file : Filename) (circles : list Circle) :
  generateImage config Query opts quadTree = Some (file, circles) →
  ∃ perServer,
    virtualPixelsPerServer config opts = Some perServer ∧
    file = filename opts ∧
    Forall2
      (λ vb c,
         cX c = imageX opts vb ∧ cY c = imageY opts vb
         ∧ (cRadius c <? 1)%float = false
         ∧ Color.A (cColor c) = 255
         ∧ (cColor c = Color.black ↔ ownerOf vb = 0))
      (processed opts (virtualWaterRadius config perServer) (Query quadTree (qtBB opts)))
      circles.
Proof.
  unfold generateImage.
  destruct (virtualPixelsPerServer config opts) as [p|]; simpl; [|done].
  intros [= <- <-]. exists p. split_and!; [done..|]. apply drawn_circles.
Qed.

End CircleFacts.

Lemma generateImage_circles_witness :
  ∃ perServer,
    virtualPixelsPerServer defaultConfig SampleTiles.tile_2_1_0 = Some perServer ∧
    filename SampleTiles.tile_2_1_0 = filename SampleTiles.tile_2_1_0 ∧
    Forall2
      (λ vb c,
         cX c = imageX SampleTiles.tile_2_1_0 vb ∧ cY c = imageY SampleTiles.tile_2_1_0 vb
         ∧ (cRadius c <? 1)%float = false
         ∧ Color.A (cColor c) = 255
         ∧ (cColor c = Color.black ↔ ownerOf vb = 0))
      (processed SampleTiles.tile_2_1_0 (virtualWaterRadius defaultConfig perServer)
         (SampleQueries.query_all [entity_a; entity_b] (qtBB SampleTiles.tile_2_1_0)))
      (default []
         (snd <$> generateImage defaultConfig SampleQueries.query_all
                    SampleTiles.tile_2_1_0 [entity_a; entity_b])).
Proof.
  apply (generateImage_circles defaultConfig SampleQueries.query_all
           SampleTiles.tile_2_1_0 [entity_a; entity_b]).
  by vm_compute.
Defined.

(** ** [generateGame]: the window of the world map *)

Section GameFacts.
Context (config : Configuration).
Context (Query : list VirtualBounds → BoundingBox → list VirtualBounds).
Context (rangeIDMap : gmap Z FlagOwnerOutputHeader → list FlagOwnerOutputHeader).

(** The square root of 32, cut to an integer. *)
Lemma ChannelBlocksPerDimension_eq : ChannelBlocksPerDimension = 5.
Proof. by vm_compute. Qed.

(** X14.  For a grid of at least one server and a game size whose
    product with five times the number of servers fits an [int],
    [generateGame] writes [world.map] from one window over the whole
    world: the side of the image is five times the game size, every
    server takes that many virtual pixels, and the window runs from the
    origin to the last virtual pixel. *)
Theorem generateGame_world_window (gamePath : string) (markers : list Marker) :
  0 < servers config →
  0 < GameSize config →
  5 * GameSize config * servers config < 2 ^ 63 →
  let side := 5 * GameSize config in
  let world :=
    {| filename := WorldMap gamePath;
       actualPixels := side;
       virtualPixels := side * servers config;
       virtualClip := {| MinX := 0; MinY := 0;
                         MaxX := side * servers config - 1;
                         MaxY := side * servers config - 1 |} |} in
  gameOptions config gamePath = world ∧
  createQuadTree config world markers =
    Some (placeMarker config (Float64.of_int side) <$> markers) ∧
  generateGame config Query rangeIDMap gamePath markers =
    generateCompressedFile config Query rangeIDMap world
      (placeMarker config (Float64.of_int side) <$> markers).
Proof.
  intros Hs Hg Hfits side world.
  assert (gameOptions config gamePath = world) as Hopts.
  { unfold gameOptions, world, side. rewrite ChannelBlocksPerDimension_eq.
    rewrite (Z.mul_comm (GameSize config) 5).
    rewrite (wrapS64_small (5 * GameSize config)) by nia.
    rewrite (wrapS64_small (5 * GameSize config * servers config)) by nia.
    rewrite wrapS64_small by nia.
    by rewrite Rect_ordered by nia. }
  assert (createQuadTree config world markers =
          Some (placeMarker config (Float64.of_int side) <$> markers)) as Hqt.
  { unfold createQuadTree, virtualPixelsPerServer, GoInt.div64.
    rewrite decide_False by lia. cbn [virtualPixels world].
    rewrite Z.quot_mul by lia.
    rewrite wrapS64_small by (unfold side; nia). done. }
  split_and!; [done..|].
  unfold generateGame. rewrite Hopts, Hqt. done.
Qed.

End GameFacts.

Lemma generateGame_world_window_witness :
  let side := 5 * GameSize SampleTiles.large_game in
  let world :=
    {| filename := WorldMap "www/gameTiles";
       actualPixels := side;
       virtualPixels := side * servers SampleTiles.large_game;
       virtualClip := {| MinX := 0; MinY := 0;
                         MaxX := side * servers SampleTiles.large_game - 1;
                         MaxY := side * servers SampleTiles.large_game - 1 |} |} in
  gameOptions SampleTiles.large_game "www/gameTiles" = world ∧
  createQuadTree SampleTiles.large_game world [SampleTiles.marker_of 5 1] =
    Some (placeMarker SampleTiles.large_game (Float64.of_int side)
            <$> [SampleTiles.marker_of 5 1]) ∧
  generateGame SampleTiles.large_game SampleQueries.query_all SampleQueries.range_by_key
      "www/gameTiles" [SampleTiles.marker_of 5 1] =
    generateCompressedFile SampleTiles.large_game SampleQueries.query_all
      SampleQueries.range_by_key world
      (placeMarker SampleTiles.large_game (Float64.of_int side)
         <$> [SampleTiles.marker_of 5 1]).
Proof.
  apply (generateGame_world_window SampleTiles.large_game SampleQueries.query_all
           SampleQueries.range_by_key "www/gameTiles" [SampleTiles.marker_of 5 1]).
  - by vm_compute.
  - by vm_compute.
  - by vm_compute.
Defined.

(** ** The tile worker: a round that regenerates *)

Section RegenerationFacts.
Context (config : Configuration).
Context (Query : list VirtualBounds → BoundingBox → list VirtualBounds).
Context (WWWDir : string).

Local Abbreviation tilesOf tilePath z :=
  (tileX ← seqZ 0 (2 ^ z); tileY ← seqZ 0 (2 ^ z); [TilePng tilePath z tileX tileY]).

(** The files of one zoom level. *)
Lemma generateTiles_files tilePath z markers :
  0 < TileSize config → 0 ≤ z < MaxZoom config →
  virtualExtent config < 2 ^ 63 → servers config ≠ 0 →
  ∃ images, generateTiles config Query tilePath z markers = Some images ∧
            images.*1 = tilesOf tilePath z.
Proof.
  intros Hsize Hzoom Hfits Hservers.
  unfold generateTiles, createQuadTree.
  assert (∃ p, virtualPixelsPerServer config (tileBaseOptions config) = Some p)
    as [p Hp].
  { unfold virtualPixelsPerServer, GoInt.div64.
    rewrite decide_False by done. by eexists. }
  rewrite Hp. simpl. rewrite tileCalls_eq by done. simpl.
  assert (Forall (λ opts, is_Some (virtualPixelsPerServer config opts))
            (tileX ← seqZ 0 (2 ^ z); tileY ← seqZ 0 (2 ^ z);
             [spec_tile config tilePath z tileX tileY])) as Hall.
  { apply Forall_forall. intros opts Hin.
    apply list_elem_of_bind in Hin as (tileX & Hin & _).
    apply list_elem_of_bind in Hin as (tileY & Hin & _).
    apply list_elem_of_singleton in Hin as ->.
    unfold virtualPixelsPerServer in *. cbn [spec_tile virtualPixels].
    rewrite <- (base_virtualPixels config z) by done. by rewrite Hp. }
  destruct (mapM_generateImage config Query (placeMarker config p <$> markers) _ Hall)
    as (images & Hm & Hn).
  exists images. split; [exact Hm|].
  rewrite Hn, fmap_bind_list. apply Forall_bind_ext, Forall_true. intros tileX.
  rewrite fmap_bind_list. by apply Forall_bind_ext, Forall_true.
Qed.

(** The goroutines joined: the files of all of them, by zoom level. *)
Lemma mapM_files {A B C} (f : A → option (list (B * C))) (g : A → list B) (l : list A) :
  Forall (λ z, ∃ images, f z = Some images ∧ images.*1 = g z) l →
  ∃ tiles, mapM f l = Some tiles ∧ (mjoin tiles).*1 = l ≫= g.
Proof.
  induction 1 as [|z l (images & Hf & Hg) _ (tiles & Hm & Hj)]; [by exists []|].
  exists (images :: tiles). split.
  - apply mapM_Some. constructor; [done|]. by apply mapM_Some.
  - change (mjoin (images :: tiles)) with (images ++ mjoin tiles).
    by rewrite fmap_app, Hg, Hj, bind_cons.
Qed.

Lemma filesWritten_tiles (tiles : list (Filename * list Circle)) :
  filesWritten (uncurry TileWritten <$> tiles) = tiles.*1.
Proof.
  unfold filesWritten. induction tiles as [|[file circles] tiles IH]; [done|].
  rewrite !fmap_cons. cbn [omap list_omap uncurry writtenFile]. by rewrite IH.
Qed.

Lemma tilesOf_elem tilePath z file :
  file ∈ tilesOf tilePath z → ∃ tileX tileY, file = TilePng tilePath z tileX tileY.
Proof.
  intros (tileX & Hin & _)%list_elem_of_bind.
  apply list_elem_of_bind in Hin as (tileY & Hin & _).
  apply list_elem_of_singleton in Hin. by exists tileX, tileY.
Qed.

Lemma tilesOf_NoDup tilePath z : NoDup (tilesOf tilePath z).
Proof.
  apply NoDup_bind; [| |apply NoDup_seqZ].
  - intros x1 x2 file _ _ (y1 & ->%list_elem_of_singleton & _)%list_elem_of_bind
      (y2 & Heq%list_elem_of_singleton & _)%list_elem_of_bind.
    by injection Heq.
  - intros tileX _. apply NoDup_bind; [| |apply NoDup_seqZ].
    + intros y1 y2 file _ _ ->%list_elem_of_singleton Heq%list_elem_of_singleton.
      by injection Heq.
    + intros tileY _. apply NoDup_singleton.
Qed.

Lemma levels_NoDup tilePath maxZoom :
  NoDup (z ← seqZ 0 maxZoom; tilesOf tilePath z).
Proof.
  apply NoDup_bind; [| |apply NoDup_seqZ].
  - intros z1 z2 file _ _ (x1 & y1 & ->)%tilesOf_elem (x2 & y2 & Heq)%tilesOf_elem.
    by injection Heq.
  - intros z _. apply tilesOf_NoDup.
Qed.

Lemma tilesOf_length tilePath z :
  0 ≤ z → Z.of_nat (length (tilesOf tilePath z)) = 4 ^ z.
Proof.
  intros Hz. assert (0 < 2 ^ z) by (by apply Z.pow_pos_nonneg).
  rewrite (bind_length_const _ _ (Z.to_nat (2 ^ z))).
  - rewrite length_seqZ. change 4 with (2 * 2). rewrite Z.pow_mul_l. lia.
  - intros x. rewrite (bind_length_const _ _ 1%nat) by done.
    rewrite length_seqZ. lia.
Qed.

Lemma levels_length tilePath (maxZoom : nat) :
  3 * Z.of_nat (length (z ← seqZ 0 (Z.of_nat maxZoom); tilesOf tilePath z)) + 1
  = 4 ^ Z.of_nat maxZoom.
Proof.
  induction maxZoom as [|m IH]; [done|].
  rewrite seqZ_S, bind_app, length_app, Nat2Z.inj_add.
  rewrite bind_cons. change ([] ≫= _) with (@nil Filename). rewrite app_nil_r.
  rewrite tilesOf_length by lia.
  rewrite Nat2Z.inj_succ, Z.pow_succ_r by lia.
  replace (0 + Z.of_nat m) with (Z.of_nat m) by lia. lia.
Qed.

(** X15.  For a positive tile size and an extent that fits an [int], on a
    grid of at least one server: a round of the tile worker that meets a
    new fingerprint stores it and writes the tiles of every zoom level
    below [MaxZoom], level by level: [2^z × 2^z] files for level [z],
    each file once, [(4^MaxZoom - 1) / 3] files in all. *)
Theorem tile_worker_regenerates_all_levels
    (client : Fetch.Client) (previousCrc : Z) (markers : list Marker) (crc : Z) :
  0 < TileSize config → 0 ≤ MaxZoom config →
  virtualExtent config < 2 ^ 63 → servers config ≠ 0 →
  Fetch.fetchClaimMarkers config client = Some (markers, crc) →
  crc ≠ previousCrc →
  ∃ events,
    tileCycle config Query WWWDir client previousCrc = Some (crc, events) ∧
    filesWritten events =
      (z ← seqZ 0 (MaxZoom config); tilesOf (tilePath WWWDir) z) ∧
    NoDup (filesWritten events) ∧
    3 * Z.of_nat (length (filesWritten events)) + 1 = 4 ^ MaxZoom config.
Proof.
  intros Hsize Hmax Hfits Hservers Hfetch Hnew.
  destruct (mapM_files
              (λ zoom, generateTiles config Query (tilePath WWWDir) zoom markers)
              (λ z, tilesOf (tilePath WWWDir) z) (seqZ 0 (MaxZoom config)))
    as (tiles & Hm & Hfiles).
  { apply Forall_forall. intros z Hz%elem_of_seqZ.
    apply generateTiles_files; [done|lia|done..]. }
  exists (Log "Getting markers for tiles" :: (Log <$> Fetch.warnings config client)
          ++ [Log "Starting tile generation"]
          ++ (uncurry TileWritten <$> mjoin tiles)
          ++ [Log "Finished tile generation"; Sleep (FetchRateInSeconds config)]).
  split.
  { unfold tileCycle. rewrite Hfetch. cbn [mbind option_bind].
    rewrite decide_True by done. by rewrite Hm. }
  assert (filesWritten
            (Log "Getting markers for tiles" :: (Log <$> Fetch.warnings config client)
             ++ [Log "Starting tile generation"]
             ++ (uncurry TileWritten <$> mjoin tiles)
             ++ [Log "Finished tile generation"; Sleep (FetchRateInSeconds config)])
          = (z ← seqZ 0 (MaxZoom config); tilesOf (tilePath WWWDir) z)) as ->.
  { rewrite <- Hfiles, <- filesWritten_tiles. unfold filesWritten.
    cbn [omap list_omap writtenFile]. rewrite !omap_app.
    assert (omap writtenFile (Log <$> Fetch.warnings config client) = []) as ->.
    { induction (Fetch.warnings config client) as [|w ws IH]; [done|].
      by rewrite fmap_cons. }
    simpl. by rewrite app_nil_r. }
  split_and!; [done|apply levels_NoDup|].
  rewrite <- (Z2Nat.id (MaxZoom config)) by done. apply levels_length.
Qed.

End RegenerationFacts.

Lemma tile_worker_regenerates_all_levels_witness :
  ∃ events,
    tileCycle Samples.config_1x1 SampleQueries.query_all "./www" Samples.snapshot_a 1
      = Some (default 0 (Fetch.fingerprint Samples.config_1x1 Samples.snapshot_a), events) ∧
    filesWritten events =
      (z ← seqZ 0 (MaxZoom Samples.config_1x1);
       tileX ← seqZ 0 (2 ^ z); tileY ← seqZ 0 (2 ^ z); [TilePng (tilePath "./www") z tileX tileY]) ∧
    NoDup (filesWritten events) ∧
    3 * Z.of_nat (length (filesWritten events)) + 1 = 4 ^ MaxZoom Samples.config_1x1.
Proof.
  apply (tile_worker_regenerates_all_levels Samples.config_1x1 SampleQueries.query_all "./www"
           Samples.snapshot_a 1
           (default [] (fst <$> Fetch.fetchClaimMarkers Samples.config_1x1 Samples.snapshot_a))).
  - by vm_compute.
  - by vm_compute.
  - by vm_compute.
  - by vm_compute.
  - by vm_compute.
  - by vm_compute.
Defined.

(** ** container/heap keeps the heap order *)

Section HeapOrderFacts.
Import Heap.

Local Abbreviation parent c := ((c - 1) / 2)%nat.

Local Ltac div_lia := Zify.zify; Z.to_euclidean_division_equations; lia.

Lemma Less_irrefl a : Less a a = false.
Proof. unfold Less. repeat case_decide; repeat case_bool_decide; try done; lia. Qed.

Lemma Less_asym a b : Less a b = true → Less b a = false.
Proof. unfold Less. repeat case_decide; repeat case_bool_decide; try done; lia. Qed.

Lemma Less_le_trans a b c : Less b a = false → Less c b = false → Less c a = false.
Proof. unfold Less. repeat case_decide; repeat case_bool_decide; try done; lia. Qed.

Lemma Less_total a b : Less a b = false → Less b a = false → a = b.
Proof.
  destruct a as [ia ca], b as [ib cb]. unfold Less. simpl.
  repeat case_decide; repeat case_bool_decide; try done;
    intros _ _; f_equal; lia.
Qed.

(** The comparison of tribeCount.go is that of the heap, turned round. *)
Lemma sliceLess_Less a b : TribeCountSort.sliceLess a b = Less b a.
Proof.
  unfold TribeCountSort.sliceLess, Less.
  repeat case_decide; repeat case_bool_decide; try done; lia.
Qed.

Lemma Swap_lookup_l h i j :
  (i < length h)%nat → (j < length h)%nat → Swap h i j !! i = h !! j.
Proof.
  intros Hi Hj. unfold Swap.
  destruct (lookup_lt_is_Some_2 h i Hi) as [a Ha].
  destruct (lookup_lt_is_Some_2 h j Hj) as [b Hb].
  rewrite Ha, Hb. by rewrite list_lookup_insert_eq by (by rewrite length_insert).
Qed.

Lemma Swap_lookup_r h i j :
  (i < length h)%nat → (j < length h)%nat → Swap h i j !! j = h !! i.
Proof.
  intros Hi Hj. unfold Swap.
  destruct (lookup_lt_is_Some_2 h i Hi) as [a Ha].
  destruct (lookup_lt_is_Some_2 h j Hj) as [b Hb].
  rewrite Ha, Hb. destruct (decide (i = j)) as [->|Hne].
  - rewrite list_lookup_insert_eq by (by rewrite length_insert). congruence.
  - rewrite list_lookup_insert_ne by done. by rewrite list_lookup_insert_eq.
Qed.

Lemma Swap_lookup_other h i j k : k ≠ i → k ≠ j → Swap h i j !! k = h !! k.
Proof.
  intros Hi Hj. unfold Swap. destruct (h !! i), (h !! j); try done.
  by rewrite !list_lookup_insert_ne by done.
Qed.

Lemma lessAt_true h x y :
  lessAt h x y = true → ∃ a b, h !! x = Some a ∧ h !! y = Some b ∧ Less a b = true.
Proof.
  unfold lessAt. destruct (h !! x) as [a|], (h !! y) as [b|]; try done.
  intros Hl. by exists a, b.
Qed.

Lemma lessAt_false h x y a b :
  lessAt h x y = false → h !! x = Some a → h !! y = Some b → Less a b = false.
Proof. unfold lessAt. intros Hl Ha Hb. by rewrite Ha, Hb in Hl. Qed.

Lemma down_length fuel h i n h' : down fuel h i n = Some h' → length h' = length h.
Proof. intros Hd. apply Permutation_length. by eapply down_perm. Qed.

Lemma up_length fuel h j h' : up fuel h j = Some h' → length h' = length h.
Proof. intros Hd. apply Permutation_length. by eapply up_perm. Qed.

(** [down] stays below [n]. *)
Lemma down_lookup_ge fuel h i n h' k :
  down fuel h i n = Some h' → (n ≤ k)%nat → h' !! k = h !! k.
Proof.
  revert h i. induction fuel as [|fuel IH]; intros h i; simpl; [done|].
  case_decide as Hj1; [by intros [= <-]|].
  destruct (negb _); [by intros [= <-]|].
  intros Hd Hk. rewrite (IH _ _ Hd Hk).
  apply Swap_lookup_other; repeat case_decide; try destruct (lessAt _ _ _); lia.
Qed.

(** The child [down] picks is no greater than either child. *)
Lemma down_child h i n :
  (n ≤ length h)%nat → (2 * i + 1 < n)%nat →
  let j1 := (2 * i + 1)%nat in
  let j2 := (j1 + 1)%nat in
  let j := if decide (j2 < n)%nat then (if lessAt h j2 j1 then j2 else j1) else j1 in
  (i < j < n)%nat ∧ parent j = i ∧
  ∀ c a b, (0 < c < n)%nat → parent c = i →
           h !! j = Some a → h !! c = Some b → Less b a = false.
Proof.
  intros Hn Hj1 j1 j2 j. subst j.
  case_decide as Hj2.
  - destruct (lessAt h j2 j1) eqn:Hl.
    + split; [subst j1 j2; lia|]. split; [subst j1 j2; div_lia|].
      intros c a b Hc Hp Ha Hb.
      assert (c = j1 ∨ c = j2) as [-> | ->] by (subst j1 j2; div_lia).
      * apply lessAt_true in Hl as (a' & b' & Ha' & Hb' & Hl).
        assert (a' = a) as -> by congruence. assert (b' = b) as -> by congruence.
        by apply Less_asym.
      * assert (a = b) as -> by congruence. apply Less_irrefl.
    + split; [subst j1 j2; lia|]. split; [subst j1 j2; div_lia|].
      intros c a b Hc Hp Ha Hb.
      assert (c = j1 ∨ c = j2) as [-> | ->] by (subst j1 j2; div_lia).
      * assert (a = b) as -> by congruence. apply Less_irrefl.
      * by eapply lessAt_false.
  - split; [subst j1 j2; lia|]. split; [subst j1 j2; div_lia|].
    intros c a b Hc Hp Ha Hb.
    assert (c = j1) as -> by (subst j1 j2; div_lia).
    assert (a = b) as -> by congruence. apply Less_irrefl.
Qed.

Lemma down_heap fuel h i n k h' :
  (n ≤ length h)%nat →
  down fuel h i n = Some h' → downState h n k i → heapFrom h' n k.
Proof.
  revert h i. induction fuel as [|fuel IH]; intros h i Hn; cbn [down]; [done|].
  case_decide as Hj1.
  { intros [= <-] [H1 _] c a b Hc Hk Ha Hb.
    apply (H1 c a b); try done. div_lia. }
  destruct (down_child h i n Hn ltac:(lia)) as (Hj & Hpj & Hmin).
  cbv zeta in Hj, Hpj, Hmin |- *.
  set (j := if decide (2 * i + 1 + 1 < n)%nat then _ else _) in *. clearbody j.
  assert (i < length h)%nat as Hil by lia.
  assert (j < length h)%nat as Hjl by lia.
  destruct (lookup_lt_is_Some_2 h j Hjl) as [bj Hbj].
  destruct (lessAt h j i) eqn:Hji; cbn [negb].
  - intros Hd [H1 H2].
    apply lessAt_true in Hji as (bj' & bi & Hbj' & Hbi & Hlt).
    assert (bj' = bj) as -> by congruence.
    eapply IH in Hd; [exact Hd|by rewrite Swap_length|]. split.
    + intros c a b Hc Hk Hp Ha Hb.
      destruct (decide (parent c = i)) as [Hpi|Hpi].
      * rewrite Hpi, Swap_lookup_l in Ha by done.
        destruct (decide (c = j)) as [->|Hcj].
        -- rewrite Swap_lookup_r in Hb by done.
           assert (a = bj) as -> by congruence. assert (b = bi) as -> by congruence.
           by apply Less_asym.
        -- rewrite Swap_lookup_other in Hb by (done || div_lia).
           by apply (Hmin c a b).
      * rewrite Swap_lookup_other in Ha by done.
        destruct (decide (c = i)) as [->|Hci].
        -- rewrite Swap_lookup_l in Hb by done.
           apply (H2 j a b); try done; lia.
        -- rewrite Swap_lookup_other in Hb by (done || congruence).
           by apply (H1 c a b).
    + intros c a b Hc Hp Hj0 Hk Ha Hb.
      rewrite Hpj, Swap_lookup_l in Ha by done.
      rewrite Swap_lookup_other in Hb by div_lia.
      apply (H1 c a b); try done; [lia|lia|by rewrite Hp].
  - intros [= <-] [H1 H2] c a b Hc Hk Ha Hb.
    destruct (decide (parent c = i)) as [Hpi|Hpi].
    + rewrite Hpi in Ha.
      pose proof (lessAt_false _ _ _ _ _ Hji Hbj Ha) as Hle.
      pose proof (Hmin c bj b Hc Hpi Hbj Hb) as Hle'.
      by eapply Less_le_trans.
    + by apply (H1 c a b).
Qed.

Lemma up_heap fuel h j h' :
  (j < length h)%nat →
  up fuel h j = Some h' → upState h (length h) j → heapFrom h' (length h) 0.
Proof.
  revert h j. induction fuel as [|fuel IH]; intros h j Hj; cbn [up]; [done|].
  case_decide as Hij.
  { intros [= <-] [H1 _] c a b Hc _ Ha Hb. apply (H1 c a b); try done. div_lia. }
  assert (parent j < j)%nat as Hpj by div_lia.
  destruct (lookup_lt_is_Some_2 h j Hj) as [bj Hbj].
  destruct (lookup_lt_is_Some_2 h (parent j) ltac:(lia)) as [bi Hbi].
  destruct (lessAt h j (parent j)) eqn:Hji; cbn [negb].
  - intros Hd [H1 H2].
    apply lessAt_true in Hji as (bj' & bi' & Hbj' & Hbi' & Hlt).
    assert (bj' = bj) as -> by congruence. assert (bi' = bi) as -> by congruence.
    eapply IH in Hd; [|rewrite Swap_length; lia|].
    { by rewrite Swap_length in Hd. }
    rewrite Swap_length. split.
    + intros c a b Hc Hci Ha Hb.
      destruct (decide (c = j)) as [->|Hcj].
      * rewrite Swap_lookup_l in Ha by lia. rewrite Swap_lookup_r in Hb by lia.
        assert (a = bj) as -> by congruence. assert (b = bi) as -> by congruence.
        by apply Less_asym.
      * rewrite Swap_lookup_other in Hb by done.
        destruct (decide (parent c = j)) as [Hpc|Hpc].
        -- rewrite Hpc, Swap_lookup_r in Ha by lia.
           apply (H2 c a b); try done; lia.
        -- destruct (decide (parent c = parent j)) as [Hpp|Hpp].
           ++ rewrite Hpp, Swap_lookup_l in Ha by lia.
              assert (a = bj) as -> by congruence.
              assert (Less b bi = false) as Hle.
              { apply (H1 c bi b); try done. by rewrite Hpp. }
              apply Less_asym in Hlt. by eapply Less_le_trans.
           ++ rewrite Swap_lookup_other in Ha by done.
              by apply (H1 c a b).
    + intros c a b Hc Hpc Hi0 Ha Hb.
      rewrite Swap_lookup_other in Ha by div_lia.
      assert (Less bi a = false) as Hle.
      { apply (H1 (parent j) a bi); try done; lia. }
      destruct (decide (c = j)) as [->|Hcj].
      * rewrite Swap_lookup_r in Hb by lia. congruence.
      * rewrite Swap_lookup_other in Hb by (done || div_lia).
        assert (Less b bi = false) as Hle'.
        { apply (H1 c bi b); try done. by rewrite Hpc. }
        by eapply Less_le_trans.
  - intros [= <-] [H1 H2] c a b Hc _ Ha Hb.
    destruct (decide (c = j)) as [->|Hcj].
    + by eapply lessAt_false.
    + by apply (H1 c a b).
Qed.

Lemma initLoop_heap k h n h' :
  n = length h → initLoop k h n = Some h' → heapFrom h n k → heapFrom h' n 0.
Proof.
  revert h. induction k as [|k IH]; intros h Hn; cbn [initLoop].
  { by intros [= <-]. }
  destruct (down (S n) h k n) as [h1|] eqn:Hd; [|done]. cbn [mbind option_bind].
  intros Hl Hh. apply (IH h1); [by rewrite (down_length _ _ _ _ _ Hd)|done|].
  apply (down_heap (S n) h k n k h1); [lia|done|]. split.
  - intros c a b Hc Hk Hp. apply Hh; [done|lia].
  - intros c a b Hc Hp Hk0 Hk. div_lia.
Qed.

(** [heap.Init] establishes the heap order. *)
Lemma Init_heap h : ∃ h', Init h = Some h' ∧ h' ≡ₚ h ∧ isHeap h'.
Proof.
  destruct (Init_total h) as (h' & Hi & Hp). exists h'. split_and!; [done..|].
  unfold isHeap. rewrite (Permutation_length Hp).
  apply (initLoop_heap _ _ _ _ eq_refl Hi).
  intros c a b Hc Hk. div_lia.
Qed.

(** [heap.Push] keeps it. *)
Lemma Push_heap h x : isHeap h → ∃ h', Push h x = Some h' ∧ h' ≡ₚ x :: h ∧ isHeap h'.
Proof.
  intros Hh. destruct (Push_total h x) as (h' & Hpush & Hp).
  exists h'. split_and!; [done..|].
  unfold Push in Hpush. unfold isHeap.
  rewrite (up_length _ _ _ _ Hpush).
  apply (up_heap (S (length (h ++ [x]))) (h ++ [x]) (length (h ++ [x]) - 1) h');
    [rewrite length_app; simpl; lia|exact Hpush|].
  rewrite length_app. cbn [length].
  replace (length h + 1 - 1)%nat with (length h) by lia. split.
  - intros c a b Hc Hcj Ha Hb.
    rewrite lookup_app_l in Ha by div_lia. rewrite lookup_app_l in Hb by lia.
    apply (Hh c a b); try done; lia.
  - intros c a b Hc Hpc. div_lia.
Qed.

(** The root of a heap is a least element. *)
Lemma heap_root_min h n c a b :
  (n ≤ length h)%nat → heapFrom h n 0 → (c < n)%nat →
  h !! 0%nat = Some a → h !! c = Some b → Less b a = false.
Proof.
  intros Hn Hh. revert b. induction (lt_wf c) as [c _ IH]. intros b Hc Ha Hb.
  destruct (decide (c = 0)%nat) as [->|Hc0].
  { assert (a = b) as -> by congruence. apply Less_irrefl. }
  assert (parent c < c)%nat as Hpc by div_lia.
  destruct (lookup_lt_is_Some_2 h (parent c) ltac:(lia)) as [p Hp].
  apply (Less_le_trans a p b).
  - apply (IH (parent c)); try done; lia.
  - apply (Hh c p b); try done; lia.
Qed.

(** [heap.Pop] takes a least element out and keeps the heap order. *)
Lemma Pop_heap h :
  isHeap h → h ≠ [] →
  ∃ h' x, Pop h = Some (h', x) ∧ h ≡ₚ x :: h' ∧ isHeap h'
          ∧ Forall (λ b, Less b x = false) h'.
Proof.
  intros Hh Hne. unfold Pop.
  destruct (length h) as [|m] eqn:Hlen; [by destruct h|].
  destruct (down_total (S m) (Swap h 0 m) 0 m ltac:(lia)) as [h1 Hd].
  rewrite Hd. cbn [mbind option_bind].
  pose proof (down_length _ _ _ _ _ Hd) as Hl1. rewrite Swap_length, Hlen in Hl1.
  destruct (lookup_lt_is_Some_2 h 0 ltac:(lia)) as [x Hx].
  assert (h1 !! m = Some x) as Hlast.
  { rewrite (down_lookup_ge _ _ _ _ _ m Hd) by lia.
    rewrite Swap_lookup_r by lia. done. }
  assert (last h1 = Some x) as ->.
  { rewrite last_lookup, Hl1. simpl. done. }
  cbn [mbind option_bind].
  assert (h1 = take m h1 ++ [x]) as Hsplit.
  { rewrite <- (take_drop m h1) at 1. f_equal.
    apply list_eq. intros [|i].
    - rewrite lookup_drop, Nat.add_0_r. done.
    - rewrite lookup_drop. simpl. apply lookup_ge_None_2. lia. }
  assert (h ≡ₚ x :: take m h1) as Hperm.
  { rewrite Permutation_cons_append, <- Hsplit.
    apply down_perm in Hd. by rewrite Hd, Swap_perm. }
  exists (take m h1), x. split_and!; [done|done| |].
  - unfold isHeap. rewrite length_take, Hl1.
    replace (m `min` S m)%nat with m by lia.
    assert (heapFrom h1 m 0) as Hh1.
    { apply (down_heap (S m) (Swap h 0 m) 0 m 0 h1); [rewrite Swap_length; lia|done|].
      split.
      - intros c a b Hc _ Hp.
        rewrite !Swap_lookup_other by div_lia.
        apply (Hh c a b); lia.
      - intros c a b Hc Hp Hi0. lia. }
    intros c a b Hc Hk. rewrite !lookup_take_lt by div_lia. by apply Hh1.
  - apply Forall_forall. intros b Hb.
    assert (b ∈ h) as Hin by (rewrite Hperm; by right).
    apply list_elem_of_lookup in Hin as [c Hc].
    apply (heap_root_min h (length h) c x b); try done.
    by eapply lookup_lt_Some.
Qed.

End HeapOrderFacts.

(** ** [TopNTribes] as a bounded heap: the same tribes as the full sort *)

Section BoundedHeapFacts.
Import Heap TribeCountHeap.

Lemma isHeap_nil : isHeap [].
Proof. intros c a b Hc. simpl in Hc. lia. Qed.

(** A round that finds the heap full: push, then pop the least. *)
Lemma push_pop_spec n seen pq dropped v :
  isHeap pq → length pq = Z.to_nat n →
  seen ≡ₚ pq ++ dropped →
  Forall (λ d, Forall (λ s, Less s d = false) pq) dropped →
  ∃ pq2,
    (pq1 ← Push pq v;
     if decide (Z.of_nat (length pq1) > n) then fst <$> Pop pq1 else Some pq1) = Some pq2
    ∧ isHeap pq2 ∧ length pq2 = Z.to_nat n
    ∧ ∃ dropped', seen ++ [v] ≡ₚ pq2 ++ dropped'
                  ∧ Forall (λ d, Forall (λ s, Less s d = false) pq2) dropped'.
Proof.
  intros Hh Hlen Hseen Hdrop.
  destruct (Push_heap pq v Hh) as (pq1 & -> & Hp1 & Hh1). cbn [mbind option_bind].
  assert (length pq1 = S (Z.to_nat n)) as Hl1.
  { rewrite (Permutation_length Hp1). simpl. by rewrite Hlen. }
  rewrite decide_True by lia.
  destruct (Pop_heap pq1 Hh1) as (pq2 & x & -> & Hp2 & Hh2 & Hmin).
  { intros ->. done. }
  exists pq2. cbn [fmap option_fmap option_map fst].
  assert (length pq2 = Z.to_nat n) as Hl2.
  { apply Permutation_length in Hp2. simpl in Hp2. lia. }
  split_and!; [done..|].
  exists (x :: dropped). split.
  - assert ((x :: pq2) ++ dropped ≡ₚ (v :: pq) ++ dropped) as Hx
      by (by rewrite <- Hp2, Hp1).
    etrans; [|apply Permutation_middle]. etrans; [|symmetry; exact Hx].
    by rewrite Hseen, (Permutation_app_comm _ [v]).
  - assert (x ∈ v :: pq) as Hx by (rewrite <- Hp1, Hp2; by left).
    constructor; [done|].
    apply elem_of_cons in Hx as [->|Hx].
    + assert (pq ≡ₚ pq2) as Hpq.
      { apply (Permutation_cons_inv (a := v)). by rewrite <- Hp1, Hp2. }
      eapply Forall_impl; [exact Hdrop|]. intros d Hd. by rewrite <- Hpq.
    + eapply Forall_impl; [exact Hdrop|]. intros d Hd.
      apply Forall_forall. intros s Hs.
      apply (Less_le_trans d x s).
      * by apply (proj1 (Forall_forall _ _) Hd).
      * by apply (proj1 (Forall_forall _ _) Hmin).
Qed.

Lemma step_spec n seen pq i v :
  loopState n seen pq i →
  ∃ pq', step n (pq, i) v = Some (pq', i + 1) ∧ loopState n (seen ++ [v]) pq' (i + 1).
Proof.
  intros [Hi Hst]. unfold step.
  assert (i + 1 = Z.of_nat (length (seen ++ [v]))) as Hi'.
  { rewrite length_app. simpl. lia. }
  case_decide as Hlt.
  { destruct Hst as [[_ ->] | [? _]]; [|lia].
    exists (seen ++ [v]). split; [done|]. split; [done|]. left. split; [lia|done]. }
  assert (∃ pq0, (if decide (i = n) then Init pq else Some pq) = Some pq0
                 ∧ isHeap pq0 ∧ length pq0 = Z.to_nat n
                 ∧ ∃ dropped, seen ≡ₚ pq0 ++ dropped
                     ∧ Forall (λ d, Forall (λ s, Less s d = false) pq0) dropped)
    as (pq0 & -> & Hh0 & Hl0 & dropped & Hseen & Hdrop).
  { destruct Hst as [[Hle ->] | (Hgt & Hh & Hl & Hd)].
    - rewrite decide_True by lia.
      destruct (Init_heap seen) as (pq0 & -> & Hp & Hh).
      exists pq0. split_and!; [done..| |].
      + rewrite (Permutation_length Hp). lia.
      + exists []. by rewrite app_nil_r.
    - rewrite decide_False by lia. by exists pq. }
  cbn [mbind option_bind].
  destruct (push_pop_spec n seen pq0 dropped v Hh0 Hl0 Hseen Hdrop)
    as (pq2 & Hpp & Hh2 & Hl2 & Hd2).
  destruct (Push pq0 v) as [pq1|]; [|done]. cbn [mbind option_bind] in Hpp |- *.
  rewrite Hpp. cbn [mbind option_bind].
  exists pq2. split; [done|]. split; [done|]. right. split_and!; [lia|done..].
Qed.

Lemma loop_spec n order seen pq i :
  loopState n seen pq i →
  ∃ pq' i', loop n (pq, i) order = Some (pq', i') ∧ loopState n (seen ++ order) pq' i'.
Proof.
  revert seen pq i. induction order as [|v order IH]; intros seen pq i Hst.
  - exists pq, i. by rewrite app_nil_r.
  - cbn [loop]. destruct (step_spec n seen pq i v Hst) as (pq1 & -> & Hst1).
    cbn [mbind option_bind].
    destruct (IH _ _ _ Hst1) as (pq' & i' & Hl & Hst').
    exists pq', i'. split; [done|]. by rewrite <- app_assoc in Hst'.
Qed.

(** The first records of the full ranking are the records kept. *)
Lemma top_take (kept dropped order : list TribeCount) :
  order ≡ₚ kept ++ dropped →
  Forall (λ d, Forall (λ s, Less s d = false) kept) dropped →
  take (length kept) (insertionSort TribeCountSort.sliceLess order) ≡ₚ kept.
Proof.
  intros Hp Hd.
  assert (insertionSort TribeCountSort.sliceLess order =
          insertionSort TribeCountSort.sliceLess kept
          ++ insertionSort TribeCountSort.sliceLess dropped) as ->.
  { apply (sorted_by_unique TribeCountSort.sliceLess sliceLess_total).
    - by rewrite !insertionSort_perm.
    - apply sliceSorted_sorted.
    - apply StronglySorted_app_2; [|apply sliceSorted_sorted..].
      intros s d Hs Hin. rewrite sliceLess_Less.
      rewrite insertionSort_perm in Hs. rewrite insertionSort_perm in Hin.
      apply (proj1 (Forall_forall _ _) Hd) in Hin.
      by apply (proj1 (Forall_forall _ _) Hin). }
  rewrite <- (insertionSort_length TribeCountSort.sliceLess kept).
  by rewrite take_app_length, insertionSort_perm.
Qed.

(** X16.  The bounded heap of territoryServer.go never fails, whatever
    [n] and the map: no [Pop] meets an empty heap.  It returns the tribes
    that the full sort of tribeCount.go returns for the same [n] and the
    same order of iteration, as many and the same ones, in the order of
    the heap array read backwards instead of the ranking. *)
Theorem TopNTribes_heap_same_tribes (n : Z) (order : list TribeCount) :
  ∃ result ranked,
    TribeCountHeap.TopNTribes n order = Some result ∧
    TribeCountSort.TopNTribes n order = Some ranked ∧
    result ≡ₚ ranked ∧
    length result = Z.to_nat (Z.min n (Z.of_nat (length order))).
Proof.
  assert (loopState n [] [] 0) as Hst0.
  { split; [done|]. destruct (decide (0 ≤ n)); [by left|right].
    split_and!; [lia|apply isHeap_nil|simpl; lia|].
    exists []. by split. }
  destruct (loop_spec n order [] [] 0 Hst0) as (pq & i & Hloop & Hi & Hst).
  cbn [app] in Hi, Hst.
  assert (∃ kept, TribeCountHeap.TopNTribes n order = Some (tribeID <$> rev kept)
                  ∧ kept ≡ₚ take (Z.to_nat (Z.min n (Z.of_nat (length order))))
                              (insertionSort TribeCountSort.sliceLess order))
    as (kept & Hheap & Hkept).
  { unfold TribeCountHeap.TopNTribes. rewrite Hloop. cbn [mbind option_bind].
    destruct Hst as [[Hle ->] | (Hgt & Hh & Hl & dropped & Hp & Hd)].
    - rewrite decide_True by done.
      destruct (Init_heap order) as (pq' & -> & Hp & _). cbn [mbind option_bind].
      exists pq'. rewrite Min_spec, (Permutation_length Hp).
      rewrite !take_ge by (rewrite ?insertionSort_length, ?(Permutation_length Hp); lia).
      split; [done|]. by rewrite insertionSort_perm.
    - rewrite decide_False by lia. cbn [mbind option_bind].
      exists pq. rewrite Min_spec.
      rewrite (take_ge pq) by lia. split; [done|].
      replace (Z.to_nat (Z.min n (Z.of_nat (length order)))) with (length pq) by lia.
      symmetry. by eapply top_take. }
  exists (tribeID <$> rev kept),
         (tribeID <$> take (Z.to_nat (Z.min n (Z.of_nat (length order))))
                        (insertionSort TribeCountSort.sliceLess order)).
  split_and!; [done|apply TopNTribes_eq| |].
  - by rewrite <- Hkept, <- Permutation_rev.
  - rewrite length_fmap, length_rev, (Permutation_length Hkept).
    rewrite length_take, insertionSort_length. lia.
Qed.

End BoundedHeapFacts.

(** ** [fetchClaimMarkers]: the sets read *)

Section KeyFacts.






End KeyFacts.

(** ** The game worker on an empty store *)

Section EmptyStoreFacts.
Context (config : Configuration).
Context (Query : list VirtualBounds → BoundingBox → list VirtualBounds).
Context (rangeIDMap : gmap Z FlagOwnerOutputHeader → list FlagOwnerOutputHeader).
Context (WWWDir : string).

Lemma fetch_empty client :
  Fetch.records config client = [] →
  Fetch.fetchClaimMarkers config client = Some ([], 0).
Proof.
  intros Hr. rewrite fetchClaimMarkers_eq, Hr.
  assert (taggedRecords config client = []) as ->; [|done].
  apply (fmap_nil_inv (λ t : TaggedRecord, t.2)).
  unfold taggedRecords. by rewrite taggedRecordsOf_records.
Qed.

(** X18.  On a grid of at least one server whose cells hold no record,
    or fail, the fingerprint is 0, not the 1 the workers start from: the
    first round of the game worker logs one warning for every cell that
    failed and writes [world.map], and the file is the header alone,
    twelve bytes with an owner count of 0; it then publishes the urls as
    after any other write. *)
Theorem game_worker_empty_store (client : Fetch.Client) :
  servers config ≠ 0 →
  (∀ bb, Query [] bb = []) →
  (∀ IDMap, rangeIDMap IDMap ≡ₚ (map_to_list IDMap).*2) →
  Fetch.records config client = [] →
  let header :=
    LittleEndian.PutUint16 2 ++ LittleEndian.PutUint16 1
    ++ LittleEndian.PutUint16
         (GoInt.uint16 (actualPixels (gameOptions config (gamePath WWWDir))))
    ++ LittleEndian.PutUint16 (GoInt.uint16 (GameSize config))
    ++ LittleEndian.PutUint32 0 in
  length header = 12%nat ∧
  gameBackgroundWorker config Query rangeIDMap WWWDir [client] =
    Some [ [UrlsUpdated; UrlsNotified];
           Log "Getting markers for game image" :: (Log <$> Fetch.warnings config client)
           ++ [Log "Generating game images";
               WorldWritten (WorldMap (gamePath WWWDir)) header;
               UrlsUpdated; UrlsNotified; Sleep (FetchRateInSeconds config)] ].
Proof.
  intros Hs Hq Hrange Hr header. split; [done|].
  unfold gameBackgroundWorker. cbn [rounds]. unfold gameCycle.
  rewrite fetch_empty by done. cbn [mbind option_bind].
  rewrite decide_True by done.
  assert (generateGame config Query rangeIDMap (gamePath WWWDir) [] =
          Some (WorldMap (gamePath WWWDir), header)) as ->; [|done].
  assert (∃ p, virtualPixelsPerServer config (gameOptions config (gamePath WWWDir)) = Some p)
    as [p Hp].
  { unfold virtualPixelsPerServer, GoInt.div64.
    rewrite decide_False by done. by eexists. }
  assert (createQuadTree config (gameOptions config (gamePath WWWDir)) [] = Some [])
    as Hqt by (unfold createQuadTree; by rewrite Hp).
  unfold generateGame. rewrite Hqt. cbn [mbind option_bind].
  unfold generateCompressedFile. rewrite Hp. cbn [mbind option_bind].
  rewrite Hq. unfold aggregate. cbn [fold_left].
  assert (rangeIDMap ∅ = []) as ->.
  { apply Permutation_nil_r. rewrite Hrange. by rewrite map_to_list_empty. }
  rewrite map_size_empty. unfold writeFile, header, FileVerison, CompressionType.
  change (insertionSort ByTribeOrPlayerID []) with (@nil FlagOwnerOutputHeader).
  cbn [fold_left]. change (GoInt.uint32 (Z.of_nat 0)) with 0.
  by rewrite app_nil_l, <- !app_assoc.
Qed.

End EmptyStoreFacts.

Lemma game_worker_empty_store_witness :
  let header :=
    LittleEndian.PutUint16 2 ++ LittleEndian.PutUint16 1
    ++ LittleEndian.PutUint16
         (GoInt.uint16 (actualPixels (gameOptions defaultConfig (gamePath "./www"))))
    ++ LittleEndian.PutUint16 (GoInt.uint16 (GameSize defaultConfig))
    ++ LittleEndian.PutUint32 0 in
  length header = 12%nat ∧
  gameBackgroundWorker defaultConfig SampleQueries.query_all SampleQueries.range_by_key
      "./www" [store_one_down] =
    Some [ [UrlsUpdated; UrlsNotified];
           Log "Getting markers for game image"
           :: (Log <$> Fetch.warnings defaultConfig store_one_down)
           ++ [Log "Generating game images";
               WorldWritten (WorldMap (gamePath "./www")) header;
               UrlsUpdated; UrlsNotified; Sleep (FetchRateInSeconds defaultConfig)] ].
Proof.
  apply (game_worker_empty_store defaultConfig SampleQueries.query_all
           SampleQueries.range_by_key "./www" store_one_down).
  - by vm_compute.
  - done.
  - apply range_by_key_perm.
  - by vm_compute.
Defined.

(** ** A claim that moves to another cell *)

Section RelocationFacts.
Context (config : Configuration).
Context (Query : list VirtualBounds → BoundingBox → list VirtualBounds).
Context (rangeIDMap : gmap Z FlagOwnerOutputHeader → list FlagOwnerOutputHeader).
Context (WWWDir : string).






End RelocationFacts.

